(** * Crustocean SDK: the agent session and its helpers

    A shallow embedding of [packages/sdk/src/index.js]: the helper
    [shouldRespond] and the class [CrustoceanAgent] (constructor, connect,
    connectSocket, join, send, joinAllMemberAgencies, on, off, getAgencies,
    getRecentMessages, disconnect, connectAndJoin), followed by
    [shouldRespond] on untyped values ([Untyped]), the REST helpers of the
    same file ([Rest]), the payment wiring of [packages/sdk/src/x402.js]
    ([X402]) and [callLLM] of the example agent ([Example]).

    JavaScript values are typed the way the JSDoc of the source types them:
    strings are [string], a value that may be [null]/[undefined] is an
    [option], `!x` on such a value is [falsy]; numbers are integers and
    strings are ASCII.  The REST endpoints and the Socket.IO channel are
    collaborators outside the repository; they appear as a [World] of oracles
    that answer from the history of effects, so every statement below is
    quantified over every behaviour of the server.

    An asynchronous method runs to its end before the next one starts (one
    logical thread of control per session); what the channel delivers while
    a method waits is part of the world.  A promise that never settles is
    the outcome [Pending].  A caller's handler is a black box that does not
    call back into the session.  The events of [step] and [reachable] are
    those the channel the session holds delivers; a channel that
    connectSocket replaced stays open, and what it delivers is
    [dispatch_on]. *)

From Stdlib Require Import List String Ascii Bool Arith ZArith Lia.
From Stdlib Require Import Numbers.DecimalString.
Import ListNotations.
Open Scope string_scope.
Open Scope bool_scope.

Set Implicit Arguments.

(** ** JavaScript strings and truthiness *)

Definition is_empty (s : string) : bool :=
  match s with EmptyString => true | String _ _ => false end.

(** `!!x` for a value that is a string, [null] or [undefined]. *)
Definition truthy (x : option string) : bool :=
  match x with Some s => negb (is_empty s) | None => false end.

Definition falsy (x : option string) : bool := negb (truthy x).

(** `a || b` where [a] may be absent and [b] is a string. *)
Definition or_else (a : option string) (b : string) : string :=
  match a with Some s => if is_empty s then b else s | None => b end.

(** `String.prototype.toLowerCase`, on the ASCII range (where it works
    letter by letter; beyond it the real function is not modelled). *)
Definition lower_ascii (c : ascii) : ascii :=
  let n := nat_of_ascii c in
  if ((65 <=? n) && (n <=? 90))%nat then ascii_of_nat (n + 32) else c.

Fixpoint toLowerCase (s : string) : string :=
  match s with
  | EmptyString => EmptyString
  | String c r => String (lower_ascii c) (toLowerCase r)
  end.

(** `String.prototype.includes`: scan for the first position where [sub]
    is a prefix of the rest. *)
Fixpoint includes (s sub : string) : bool :=
  if prefix sub s then true
  else match s with
       | EmptyString => false
       | String _ r => includes r sub
       end.

(** `String.prototype.trim`, on ASCII white space. *)
Definition is_space (c : ascii) : bool :=
  let n := nat_of_ascii c in
  ((n =? 32) || ((9 <=? n) && (n <=? 13)))%nat.

Fixpoint trim_start (s : string) : string :=
  match s with
  | String c r => if is_space c then trim_start r else s
  | EmptyString => EmptyString
  end.

Fixpoint trim_end (s : string) : string :=
  match s with
  | EmptyString => EmptyString
  | String c r =>
      match trim_end r with
      | EmptyString => if is_space c then EmptyString else String c EmptyString
      | r' => String c r'
      end
  end.

Definition trim (s : string) : string := trim_end (trim_start s).

(** `s.replace(/\/$/, '')`: the pattern is anchored at the end of the input
    and matches one character, so at most the last character goes. *)
Fixpoint strip_trailing_slash (s : string) : string :=
  match s with
  | EmptyString => EmptyString
  | String c EmptyString => if Ascii.eqb c "/" then EmptyString else s
  | String c r => String c (strip_trailing_slash r)
  end.

Fixpoint ends_with (suffix s : string) : bool :=
  if String.eqb s suffix then true
  else match s with
       | EmptyString => false
       | String _ r => ends_with suffix r
       end.

(** Number to string, as a template literal or URLSearchParams prints an
    integer. *)
Definition string_of_nat (n : nat) : string :=
  NilZero.string_of_uint (Nat.to_uint n).

Definition string_of_Z (z : Z) : string :=
  NilZero.string_of_int (Z.to_int z).

(** ** shouldRespond *)

Module Msg.
(** A message object, `{ content, sender_username }`; a field may be
    missing. *)
Record t := mk { content : option string; sender_username : option string }.
End Msg.

(** `msg?.content` *)
Definition content_of (msg : option Msg.t) : option string :=
  match msg with Some m => Msg.content m | None => None end.

Definition shouldRespond (msg : option Msg.t) (agentUsername : option string)
  : bool :=
  if falsy (content_of msg) || falsy agentUsername then false
  else
    match content_of msg, agentUsername with
    | Some content, Some name =>
        let lower := toLowerCase content in
        let mention := "@" ++ toLowerCase name in
        includes lower mention
    | _, _ => false
    end.

(** ** Request URLs *)

Inductive Endpoint :=
| EpAuth
| EpAgencies
| EpMessages (agencyId : string).

Definition endpoint_path (ep : Endpoint) : string :=
  match ep with
  | EpAuth => "/api/auth/agent"
  | EpAgencies => "/api/agencies"
  | EpMessages a => "/api/agencies/" ++ a ++ "/messages"
  end.

(** `${this.apiUrl}<path>` *)
Definition request_url (base : string) (ep : Endpoint) : string :=
  base ++ endpoint_path ep.

(** The two characters around the point where the base and the path meet. *)
Definition join_point (base : string) (ep : Endpoint) : string :=
  substring (String.length base - 1) 2 (request_url base ep).

(** ** Data exchanged with the platform *)

Module Agency.
(** A room record of the directory listing, `{ id, slug, isMember, ... }`. *)
Record t := mk { id : string; slug : option string; isMember : bool }.
End Agency.

(** The identity record of the token exchange. *)
Record Identity := { user_id : string; username : string; display_name : string }.

(** The object a channel event carries; the session reads `agencyId`,
    `members` and `message`, the rest is opaque. *)
Record Payload := {
  p_agencyId : option string;
  p_members : list string;
  p_message : option string;
  p_rest : string }.

Record ChanEvent := { ev_name : string; ev_data : Payload }.

(** A caller's handler function, known by its identity. *)
Definition Handler := nat.

(** The functions that get attached to the channel: the caller's handlers
    and the closures the session creates, one pair per promise [p]. *)
Inductive Closure :=
| UserFn (h : Handler)
| OnConnect (p : nat)
| OnConnectError (p : nat)
| OnJoined (p : nat)
| OnErr (p : nat).

Definition Closure_eqb (a b : Closure) : bool :=
  match a, b with
  | UserFn x, UserFn y => Nat.eqb x y
  | OnConnect x, OnConnect y => Nat.eqb x y
  | OnConnectError x, OnConnectError y => Nat.eqb x y
  | OnJoined x, OnJoined y => Nat.eqb x y
  | OnErr x, OnErr y => Nat.eqb x y
  | _, _ => false
  end.

(** ** The event emitter of the channel

    The Socket.IO client is an event emitter: [on] appends a callback to the
    event's list, [once] appends a wrapper that removes itself before it calls
    the function, [off] removes the first callback that is the function or
    wraps it, and an incoming event calls a snapshot of the event's list in
    order.  The per-event lists are kept as one list of (event, callback)
    pairs in registration order. *)

Record Callback := { cb_fn : Closure; cb_once : bool }.

Definition Callback_eqb (a b : Callback) : bool :=
  Closure_eqb (cb_fn a) (cb_fn b) && Bool.eqb (cb_once a) (cb_once b).

Record Socket := {
  sock_id : nat;
  connected : bool;
  callbacks : list (string * Callback) }.

Fixpoint remove_first {A} (p : A -> bool) (l : list A) : list A :=
  match l with
  | [] => []
  | x :: r => if p x then r else x :: remove_first p r
  end.

Definition sock_on (event : string) (fn : Closure) (so : Socket) : Socket :=
  {| sock_id := sock_id so; connected := connected so;
     callbacks := callbacks so ++ [(event, {| cb_fn := fn; cb_once := false |})] |}.

Definition sock_once (event : string) (fn : Closure) (so : Socket) : Socket :=
  {| sock_id := sock_id so; connected := connected so;
     callbacks := callbacks so ++ [(event, {| cb_fn := fn; cb_once := true |})] |}.

(** `off(event, fn)`: `cb === fn || cb.fn === fn`, first match only. *)
Definition sock_off (event : string) (fn : Closure) (so : Socket) : Socket :=
  {| sock_id := sock_id so; connected := connected so;
     callbacks :=
       remove_first
         (fun ec => String.eqb (fst ec) event && Closure_eqb (cb_fn (snd ec)) fn)
         (callbacks so) |}.

(** `this.off(event, on)` inside a [once] wrapper: the wrapper itself. *)
Definition sock_off_wrapper (event : string) (cb : Callback) (so : Socket)
  : Socket :=
  {| sock_id := sock_id so; connected := connected so;
     callbacks :=
       remove_first
         (fun ec => String.eqb (fst ec) event && Callback_eqb (snd ec) cb)
         (callbacks so) |}.

Definition set_connected (b : bool) (so : Socket) : Socket :=
  {| sock_id := sock_id so; connected := b; callbacks := callbacks so |}.

(** The callbacks of one event, in registration order. *)
Definition listeners_of (event : string) (so : Socket) : list Callback :=
  map snd (filter (fun ec => String.eqb (fst ec) event) (callbacks so)).

(** ** Effects and the world *)

Record Request := {
  req_method : string;
  req_url : string;
  req_query : list (string * string);
  req_bearer : option string;
  req_body : option string }.

(** What the session emits over the channel: `join-agency` and
    `send-message`. *)
Inductive Outbound :=
| JoinAgency (agencyId : string)
| SendMessage (agencyId content : string) (type metadata : option string).

Inductive Effect :=
| Http (r : Request)
| ChannelOpen (sid : nat) (url : string) (authToken : option string)
| ChannelEmit (sid : nat) (msg : Outbound)
| ChannelClose (sid : nat)
| ConsoleWarn (text detail : string)
| HandlerCall (h : Handler) (event : string) (data : Payload).

(** The token exchange: a success carries the session credential and the
    identity record (the contract of the endpoint), a rejection the status
    and, when the body has one, an `error` string. *)
Inductive AuthResponse :=
| AuthOk (token : string) (user : Identity)
| AuthRejected (status : nat) (error : option string).

Inductive AgenciesResponse :=
| AgenciesOk (agencies : list Agency.t)
| AgenciesFailed (status : nat).

Inductive MessagesResponse :=
| MessagesOk (messages : list Msg.t)
| MessagesFailed (status : nat).

Inductive OpenResponse :=
| OpenConnected
| OpenError (message : string)
| OpenSilent.

(** The server, as seen from the session: every answer may depend on
    everything the session did so far.  [channel_feed] is what the channel
    delivers while a join request waits for its answer. *)
Record World := {
  auth_endpoint : list Effect -> AuthResponse;
  agencies_endpoint : list Effect -> AgenciesResponse;
  messages_endpoint : list Effect -> MessagesResponse;
  channel_open : list Effect -> OpenResponse;
  channel_feed : list Effect -> list ChanEvent }.

(** ** The session *)

Definition Registry := list (string * list Handler).

(** The fields of a [CrustoceanAgent]. *)
Record Agent := {
  apiUrl : string;
  agentToken : string;
  token : option string;
  user : option Identity;
  socket : option Socket;
  currentAgencyId : option string;
  listeners : Registry }.

(** What a promise settles with. *)
Inductive Value :=
| VSocket (sid : nat)
| VJoined (agencyId : option string) (members : list string).

Inductive Settlement :=
| Fulfilled (v : Value)
| Rejected (message : string).

(** The session object together with what surrounds it: the effects so far,
    the allocator of closure identities, and every call of a promise's
    `resolve`/`reject` in the order made (the first one of a promise
    settles it). *)
Record Machine := {
  this : Agent;
  log : list Effect;
  nextId : nat;
  settle_calls : list (nat * Settlement) }.

Definition update_agent (f : Agent -> Agent) (m : Machine) : Machine :=
  {| this := f (this m); log := log m; nextId := nextId m;
     settle_calls := settle_calls m |}.

Definition record (e : Effect) (m : Machine) : Machine :=
  {| this := this m; log := log m ++ [e]; nextId := nextId m;
     settle_calls := settle_calls m |}.

Definition bump (m : Machine) : Machine :=
  {| this := this m; log := log m; nextId := S (nextId m);
     settle_calls := settle_calls m |}.

Definition settle (p : nat) (s : Settlement) (m : Machine) : Machine :=
  {| this := this m; log := log m; nextId := nextId m;
     settle_calls := settle_calls m ++ [(p, s)] |}.

Definition set_token (t : option string) (u : option Identity) (a : Agent) :=
  {| apiUrl := apiUrl a; agentToken := agentToken a; token := t; user := u;
     socket := socket a; currentAgencyId := currentAgencyId a;
     listeners := listeners a |}.

Definition set_socket (s : option Socket) (a : Agent) :=
  {| apiUrl := apiUrl a; agentToken := agentToken a; token := token a;
     user := user a; socket := s; currentAgencyId := currentAgencyId a;
     listeners := listeners a |}.

Definition set_currentAgencyId (c : option string) (a : Agent) :=
  {| apiUrl := apiUrl a; agentToken := agentToken a; token := token a;
     user := user a; socket := socket a; currentAgencyId := c;
     listeners := listeners a |}.

Definition set_listeners (r : Registry) (a : Agent) :=
  {| apiUrl := apiUrl a; agentToken := agentToken a; token := token a;
     user := user a; socket := socket a;
     currentAgencyId := currentAgencyId a; listeners := r |}.

(** `this.socket.<op>(...)` *)
Definition on_socket (f : Socket -> Socket) (m : Machine) : Machine :=
  update_agent
    (fun a => set_socket (option_map f (socket a)) a) m.

(** `this.socket?.connected` *)
Definition socket_connected (a : Agent) : bool :=
  match socket a with Some so => connected so | None => false end.

Fixpoint promise_state (p : nat) (calls : list (nat * Settlement))
  : option Settlement :=
  match calls with
  | [] => None
  | (q, s) :: r => if Nat.eqb q p then Some s else promise_state p r
  end.

(** ** Results of operations *)

Inductive Outcome (A : Type) :=
| Returned (a : A)
| Thrown (message : string)
| Pending.
Arguments Thrown {A} message.
Arguments Pending {A}.

Definition M (A : Type) := Machine -> Machine * Outcome A.

Definition ret {A} (a : A) : M A := fun m => (m, Returned a).
Definition throw {A} (msg : string) : M A := fun m => (m, Thrown msg).

Definition bind {A B} (c : M A) (k : A -> M B) : M B :=
  fun m =>
    match c m with
    | (m1, Returned a) => k a m1
    | (m1, Thrown msg) => (m1, Thrown msg)
    | (m1, Pending) => (m1, Pending)
    end.

Notation "x <- c ;; k" := (bind c (fun x => k))
  (at level 61, c at next level, right associativity).
Notation "c ;;; k" := (bind c (fun _ => k))
  (at level 61, right associativity).

(** `await` of the promise [p] once the world has moved. *)
Definition await (p : nat) (m : Machine) : Outcome Value :=
  match promise_state p (settle_calls m) with
  | Some (Fulfilled v) => Returned v
  | Some (Rejected msg) => Thrown msg
  | None => Pending
  end.

(** ** Incoming channel events *)

Definition empty_payload : Payload :=
  {| p_agencyId := None; p_members := []; p_message := None; p_rest := "" |}.

Definition error_payload (msg : string) : Payload :=
  {| p_agencyId := None; p_members := []; p_message := Some msg; p_rest := "" |}.

(** The body of each function attached to the channel.  A caller's handler
    is opaque: its call is recorded and it does not touch the session. *)
Definition run_closure (event : string) (data : Payload) (fn : Closure)
  (m : Machine) : Machine :=
  match fn with
  | UserFn h => record (HandlerCall h event data) m
  | OnConnect p =>
      match socket (this m) with
      | Some so => settle p (Fulfilled (VSocket (sock_id so))) m
      | None => settle p (Fulfilled (VSocket 0)) m
      end
  | OnConnectError p =>
      settle p (Rejected (match p_message data with Some s => s | None => "" end)) m
  | OnJoined p =>
      let m1 := update_agent (set_currentAgencyId (p_agencyId data)) m in
      let m2 := on_socket (sock_off "error" (OnErr p)) m1 in
      settle p (Fulfilled (VJoined (p_agencyId data) (p_members data))) m2
  | OnErr p =>
      let m1 := on_socket (sock_off "agency-joined" (OnJoined p)) m in
      settle p (Rejected (or_else (p_message data) "Join failed")) m1
  end.

Definition invoke (event : string) (data : Payload) (m : Machine)
  (cb : Callback) : Machine :=
  let m1 := if cb_once cb then on_socket (sock_off_wrapper event cb) m else m in
  run_closure event data (cb_fn cb) m1.

(** The channel the session holds delivers one event: every callback of
    the snapshot runs.  (For a channel it held earlier see [dispatch_on].) *)
Definition dispatch (m : Machine) (e : ChanEvent) : Machine :=
  match socket (this m) with
  | Some so =>
      fold_left (invoke (ev_name e) (ev_data e)) (listeners_of (ev_name e) so) m
  | None => m
  end.

Definition deliver (events : list ChanEvent) (m : Machine) : Machine :=
  fold_left dispatch events m.

(** ** The listener registry, a `Map` from event name to array *)

Fixpoint reg_get (event : string) (r : Registry) : option (list Handler) :=
  match r with
  | [] => None
  | (e, l) :: r' => if String.eqb e event then Some l else reg_get event r'
  end.

Definition reg_has (event : string) (r : Registry) : bool :=
  match reg_get event r with Some _ => true | None => false end.

(** `map.set(event, l)`: replace the entry of the key, or add one at the
    end. *)
Fixpoint reg_set (event : string) (l : list Handler) (r : Registry) : Registry :=
  match r with
  | [] => [(event, l)]
  | (e, l') :: r' =>
      if String.eqb e event then (e, l) :: r' else (e, l') :: reg_set event l r'
  end.

(** `map.get(event).<mutation>`: the array of the key is changed in place. *)
Fixpoint reg_mutate (event : string) (f : list Handler -> list Handler)
  (r : Registry) : Registry :=
  match r with
  | [] => []
  | (e, l) :: r' =>
      if String.eqb e event then (e, f l) :: r' else (e, l) :: reg_mutate event f r'
  end.

(** `list.indexOf(handler)` *)
Fixpoint indexOf (h : Handler) (l : list Handler) : option nat :=
  match l with
  | [] => None
  | x :: r => if Nat.eqb x h then Some 0 else option_map S (indexOf h r)
  end.

(** `list.splice(i, 1)` *)
Definition splice1 (i : nat) (l : list Handler) : list Handler :=
  firstn i l ++ skipn (S i) l.

(** The handlers registered for an event (none when the key is absent). *)
Definition registered (event : string) (r : Registry) : list Handler :=
  match reg_get event r with Some l => l | None => [] end.

(** The caller's handlers attached to a channel for an event. *)
Fixpoint user_fns (l : list Callback) : list Handler :=
  match l with
  | [] => []
  | cb :: r =>
      match cb_fn cb with
      | UserFn h => h :: user_fns r
      | _ => user_fns r
      end
  end.

Definition attached (event : string) (a : Agent) : list Handler :=
  match socket a with
  | Some so => user_fns (listeners_of event so)
  | None => []
  end.

(** ** CrustoceanAgent *)

Record SendOptions := { o_type : option string; o_metadata : option string }.

Record MessagesOptions := {
  limit : option Z;
  before : option string;
  mentions : option string }.

Module CrustoceanAgent.

Definition constructor (apiUrl agentToken : string) : Machine :=
  {| this := {| apiUrl := strip_trailing_slash apiUrl;
                agentToken := agentToken;
                token := None;
                user := None;
                socket := None;
                currentAgencyId := None;
                listeners := [] |};
     log := []; nextId := 0; settle_calls := [] |}.

Definition send_precondition : string :=
  "Not connected or no agency joined. Call join() first.".

Definition agency_not_found (agencyIdOrSlug : string) : string :=
  "Agency not found: " ++ agencyIdOrSlug.

Definition no_agency_joined : string :=
  "No agency joined. Call join() first.".

Definition send (content : string) (options : SendOptions) : M unit :=
  fun m =>
    if negb (socket_connected (this m)) || falsy (currentAgencyId (this m))
    then (m, Thrown send_precondition)
    else
      match socket (this m), currentAgencyId (this m) with
      | Some so, Some agencyId =>
          let payload :=
            SendMessage agencyId (trim content)
              (if truthy (o_type options) then o_type options else None)
              (o_metadata options) in
          (record (ChannelEmit (sock_id so) payload) m, Returned tt)
      | _, _ => (m, Thrown "TypeError")
      end.

Definition on (event : string) (handler : Handler) (m : Machine) : Machine :=
  let r := listeners (this m) in
  let r1 := if reg_has event r then r else reg_set event [] r in
  let r2 := reg_mutate event (fun l => (l ++ [handler])%list) r1 in
  on_socket (sock_on event (UserFn handler))
    (update_agent (set_listeners r2) m).

Definition off (event : string) (handler : Handler) (m : Machine) : Machine :=
  let r := listeners (this m) in
  let r1 :=
    match reg_get event r with
    | Some list =>
        match indexOf handler list with
        | Some i => reg_mutate event (splice1 i) r
        | None => r
        end
    | None => r
    end in
  on_socket (sock_off event (UserFn handler))
    (update_agent (set_listeners r1) m).

Definition disconnect (m : Machine) : Machine :=
  let m1 :=
    match socket (this m) with
    | Some so =>
        update_agent (set_socket None) (record (ChannelClose (sock_id so)) m)
    | None => m
    end in
  update_agent (set_currentAgencyId None) m1.

(** `a.id === x || a.slug === x` *)
Definition names (agencyIdOrSlug : string) (a : Agency.t) : bool :=
  String.eqb (Agency.id a) agencyIdOrSlug
  || match Agency.slug a with
     | Some s => String.eqb s agencyIdOrSlug
     | None => false
     end.

(** The loop of connectAndJoin over `this.listeners`. *)
Definition attach_handlers (event : string) (handlers : list Handler)
  (m : Machine) : Machine :=
  fold_left (fun m h => on_socket (sock_on event (UserFn h)) m) handlers m.

Definition attach_registry (m : Machine) : Machine :=
  fold_left (fun m eh => attach_handlers (fst eh) (snd eh) m)
    (listeners (this m)) m.

(** `this.socket = io(this.apiUrl, { auth: { token: this.token }, ... })`
    and the two listeners of the promise of connectSocket, which gets the
    fresh identity [nextId m] (as does the channel). *)
Definition open_channel (m : Machine) : Machine :=
  let k := nextId m in
  let a := this m in
  let so := {| sock_id := k; connected := false; callbacks := [] |} in
  let m1 := update_agent (set_socket (Some so)) (bump m) in
  let m2 := record (ChannelOpen k (apiUrl a) (token a)) m1 in
  let m3 := on_socket (sock_on "connect" (OnConnect k)) m2 in
  on_socket (sock_on "connect_error" (OnConnectError k)) m3.

(** The executor of the promise of [join], up to the emission:
    `once('agency-joined', onJoined)`, `once('error', onErr)`,
    `emit('join-agency', { agencyId: agency.id })`; the two closures get the
    fresh identity [nextId m]. *)
Definition request_join (agency : Agency.t) (so : Socket) (m : Machine)
  : Machine :=
  let k := nextId m in
  let m1 := bump m in
  let m2 := on_socket (sock_once "agency-joined" (OnJoined k)) m1 in
  let m3 := on_socket (sock_once "error" (OnErr k)) m2 in
  record (ChannelEmit (sock_id so) (JoinAgency (Agency.id agency))) m3.

Section Server.

Variable w : World.

Definition connect : M unit :=
  fun m =>
    let a := this m in
    let m1 :=
      record
        (Http {| req_method := "POST";
                 req_url := request_url (apiUrl a) EpAuth;
                 req_query := [];
                 req_bearer := None;
                 req_body := Some (agentToken a) |}) m in
    match auth_endpoint w (log m1) with
    | AuthRejected status error =>
        (m1, Thrown (or_else error ("Auth failed: " ++ string_of_nat status)))
    | AuthOk tok u =>
        (update_agent (set_token (Some tok) (Some u)) m1, Returned tt)
    end.

(** `if (!this.token) await this.connect()` *)
Definition ensure_token : M unit :=
  fun m => if truthy (token (this m)) then ret tt m else connect m.

Definition connectSocket : M Value :=
  ensure_token ;;;
  fun m =>
    let k := nextId m in
    let m4 := open_channel m in
    let m5 :=
      match channel_open w (log m4) with
      | OpenConnected =>
          dispatch (on_socket (set_connected true) m4)
            {| ev_name := "connect"; ev_data := empty_payload |}
      | OpenError msg =>
          dispatch m4
            {| ev_name := "connect_error"; ev_data := error_payload msg |}
      | OpenSilent => m4
      end in
    (m5, await k m5).

Definition getAgencies : M (list Agency.t) :=
  ensure_token ;;;
  fun m =>
    let a := this m in
    let m1 :=
      record
        (Http {| req_method := "GET";
                 req_url := request_url (apiUrl a) EpAgencies;
                 req_query := [];
                 req_bearer := token a;
                 req_body := None |}) m in
    match agencies_endpoint w (log m1) with
    | AgenciesFailed status =>
        (m1, Thrown ("Failed to fetch agencies: " ++ string_of_nat status))
    | AgenciesOk agencies => (m1, Returned agencies)
    end.

(** `if (!this.socket?.connected) await this.connectSocket()` *)
Definition ensure_socket : M unit :=
  fun m =>
    if socket_connected (this m) then ret tt m
    else (connectSocket ;;; ret tt) m.

(** The promise of [join]: two one-shot listeners, the request
    ([request_join]), and the wait for what the channel delivers. *)
Definition handshake (agency : Agency.t) : M Value :=
  fun m =>
    match socket (this m) with
    | None => (m, Thrown "TypeError: this.socket is null")
    | Some so =>
        let k := nextId m in
        let m4 := request_join agency so m in
        let m5 := deliver (channel_feed w (log m4)) m4 in
        (m5, await k m5)
    end.

Definition join (agencyIdOrSlug : string) : M Value :=
  ensure_socket ;;;
  agencies <- getAgencies ;;
  match find (names agencyIdOrSlug) agencies with
  | None => throw (agency_not_found agencyIdOrSlug)
  | Some agency => handshake agency
  end.

(** The `for ... of` loop of joinAllMemberAgencies with its try/catch;
    [joined] is the array being filled. *)
Fixpoint join_each (memberAgencies : list Agency.t) (joined : list string)
  : M (list string) :=
  fun m =>
    match memberAgencies with
    | [] => (m, Returned joined)
    | a :: rest =>
        let name := or_else (Agency.slug a) (Agency.id a) in
        match join name m with
        | (m1, Returned _) => join_each rest (joined ++ [name])%list m1
        | (m1, Thrown msg) =>
            join_each rest joined
              (record (ConsoleWarn ("Failed to join " ++ name ++ ":") msg) m1)
        | (m1, Pending) => (m1, Pending)
        end
    end.

Definition joinAllMemberAgencies : M (list string) :=
  agencies <- getAgencies ;;
  join_each (filter Agency.isMember agencies) [].

Definition getRecentMessages (opts : MessagesOptions) : M (list Msg.t) :=
  ensure_token ;;;
  fun m =>
    let a := this m in
    match currentAgencyId a with
    | Some agencyId =>
        if is_empty agencyId then (m, Thrown no_agency_joined)
        else
          let lim := match limit opts with Some l => l | None => 50%Z end in
          let params :=
            ([("limit", string_of_Z (Z.min lim 100))]
             ++ (match before opts with
                 | Some b => if is_empty b then [] else [("before", b)]
                 | None => []
                 end)
             ++ (match mentions opts with
                 | Some u => if is_empty u then [] else [("mentions", u)]
                 | None => []
                 end))%list in
          let m1 :=
            record
              (Http {| req_method := "GET";
                       req_url := request_url (apiUrl a) (EpMessages agencyId);
                       req_query := params;
                       req_bearer := token a;
                       req_body := None |}) m in
          match messages_endpoint w (log m1) with
          | MessagesFailed status =>
              (m1, Thrown ("Failed to fetch messages: " ++ string_of_nat status))
          | MessagesOk msgs => (m1, Returned msgs)
          end
    | None => (m, Thrown no_agency_joined)
    end.

Definition connectAndJoin (agencyIdOrSlug : option string) : M Value :=
  connect ;;;
  connectSocket ;;;
  (fun m => ret tt (attach_registry m)) ;;;
  join (match agencyIdOrSlug with Some x => x | None => "lobby" end).

End Server.

End CrustoceanAgent.

(** ** Runs of the session *)

(** What can happen to a session: a call of one of its methods, or the
    server acting on the channel (an event arrives, the connection drops). *)
Inductive Step :=
| CallConnect
| CallConnectSocket
| CallJoin (agencyIdOrSlug : string)
| CallJoinAllMemberAgencies
| CallSend (content : string) (options : SendOptions)
| CallOn (event : string) (handler : Handler)
| CallOff (event : string) (handler : Handler)
| CallGetAgencies
| CallGetRecentMessages (opts : MessagesOptions)
| CallDisconnect
| CallConnectAndJoin (agencyIdOrSlug : option string)
| ServerEvent (e : ChanEvent)
| ServerDrop.

Definition step (w : World) (s : Step) (m : Machine) : Machine :=
  match s with
  | CallConnect => fst (CrustoceanAgent.connect w m)
  | CallConnectSocket => fst (CrustoceanAgent.connectSocket w m)
  | CallJoin x => fst (CrustoceanAgent.join w x m)
  | CallJoinAllMemberAgencies => fst (CrustoceanAgent.joinAllMemberAgencies w m)
  | CallSend c o => fst (CrustoceanAgent.send c o m)
  | CallOn e h => CrustoceanAgent.on e h m
  | CallOff e h => CrustoceanAgent.off e h m
  | CallGetAgencies => fst (CrustoceanAgent.getAgencies w m)
  | CallGetRecentMessages o => fst (CrustoceanAgent.getRecentMessages w o m)
  | CallDisconnect => CrustoceanAgent.disconnect m
  | CallConnectAndJoin x => fst (CrustoceanAgent.connectAndJoin w x m)
  | ServerEvent e => dispatch m e
  | ServerDrop => on_socket (set_connected false) m
  end.

(** The states a session can be in: built by the constructor, then any
    steps, the server free to answer differently at every step. *)
Inductive reachable : Machine -> Prop :=
| reach_new : forall apiUrl agentToken,
    reachable (CrustoceanAgent.constructor apiUrl agentToken)
| reach_step : forall w s m, reachable m -> reachable (step w s m).

(** ** Observations on the log *)

Definition is_emit (e : Effect) : bool :=
  match e with ChannelEmit _ _ => true | _ => false end.

Definition is_network (e : Effect) : bool :=
  match e with
  | Http _ | ChannelOpen _ _ _ | ChannelEmit _ _ | ChannelClose _ => true
  | _ => false
  end.

Definition is_warning (e : Effect) : bool :=
  match e with ConsoleWarn _ _ => true | _ => false end.

(** The effects a step added to the log. *)
Definition added (before after : Machine) : list Effect :=
  skipn (List.length (log before)) (log after).

(** The calls an event makes to the caller's handlers of its name. *)
Definition calls_for (handlers : list Handler) (e : ChanEvent) : list Effect :=
  map (fun h => HandlerCall h (ev_name e) (ev_data e)) handlers.

(** ** Words of the specification *)

(** "contains the substring" *)
Definition contains (s sub : string) : Prop :=
  exists pre post, s = pre ++ sub ++ post.

(** "exact match on the id field or the slug field" *)
Definition exact_match (x : string) (a : Agency.t) : Prop :=
  Agency.id a = x \/ Agency.slug a = Some x.

(** "the first matching record" *)
Definition first_match (x : string) (dir : list Agency.t) (a : Agency.t) : Prop :=
  exists pre post,
    dir = (pre ++ a :: post)%list /\ exact_match x a /\
    forall b, In b pre -> ~ exact_match x b.

(** The identifier joinAllMemberAgencies uses for a room, `a.slug || a.id`. *)
Definition room_name (a : Agency.t) : string :=
  or_else (Agency.slug a) (Agency.id a).

(** "joins each sequentially": the joins of a list of rooms, each one
    started in the state its predecessor left once it settled (with the
    warning of a rejected one logged); the run ends at a join that never
    settles. *)
Fixpoint sequential_joins (w : World) (rooms : list string) (m : Machine)
  : list (string * Outcome Value) :=
  match rooms with
  | [] => []
  | name :: rest =>
      match CrustoceanAgent.join w name m with
      | (m1, Returned v) => (name, Returned v) :: sequential_joins w rest m1
      | (m1, Thrown msg) =>
          (name, Thrown msg)
          :: sequential_joins w rest
               (record (ConsoleWarn ("Failed to join " ++ name ++ ":") msg) m1)
      | (m1, Pending) => [(name, Pending)]
      end
  end.

Definition succeeded {A} (r : string * Outcome A) : bool :=
  match snd r with Returned _ => true | _ => false end.

Definition rejected {A} (r : string * Outcome A) : bool :=
  match snd r with Thrown _ => true | _ => false end.

Definition unsettled {A} (r : string * Outcome A) : bool :=
  match snd r with Pending => true | _ => false end.

Definition warning_of (r : string * Outcome Value) : Effect :=
  ConsoleWarn ("Failed to join " ++ fst r ++ ":")
    (match snd r with Thrown msg => msg | _ => "" end).

(** The callbacks on the session's channel (none without a channel). *)
Definition channel_callbacks (a : Agent) : list (string * Callback) :=
  match socket a with Some so => callbacks so | None => [] end.

(** A function is among the callbacks of the channel. *)
Definition listening (fn : Closure) (a : Agent) : Prop :=
  exists ev cb, In (ev, cb) (channel_callbacks a) /\ cb_fn cb = fn.

(** The calls of `resolve`/`reject` made for a promise. *)
Definition settlements_of (p : nat) (m : Machine) : list Settlement :=
  map snd (filter (fun c => Nat.eqb (fst c) p) (settle_calls m)).

(** Every closure on the channel was allocated before [nextId]. *)
Definition closure_id (fn : Closure) : option nat :=
  match fn with
  | UserFn _ => None
  | OnConnect p | OnConnectError p | OnJoined p | OnErr p => Some p
  end.

Definition allocated (m : Machine) : Prop :=
  (forall ev cb p, In (ev, cb) (channel_callbacks (this m)) ->
                   closure_id (cb_fn cb) = Some p -> p < nextId m)
  /\ (forall p s, In (p, s) (settle_calls m) -> p < nextId m).

(** The keys of the registry are distinct, as the keys of a `Map` are. *)
Definition distinct_keys (r : Registry) : Prop := NoDup (map fst r).

(** The caller's handlers are attached with `on`, never with `once`. *)
Definition users_plain (m : Machine) : Prop :=
  forall ev cb h, In (ev, cb) (channel_callbacks (this m)) ->
                  cb_fn cb = UserFn h -> cb_once cb = false.

(** Without a session credential no room is current and no join is
    waiting for its acknowledgment. *)
Definition credential_first (m : Machine) : Prop :=
  token (this m) = None ->
  currentAgencyId (this m) = None
  /\ forall p, ~ listening (OnJoined p) (this m).

(** The invariant of the reachable states. *)
Record well_formed (m : Machine) : Prop := {
  wf_allocated : allocated m;
  wf_keys : distinct_keys (listeners (this m));
  wf_plain : users_plain m;
  wf_credential : credential_first m }.

(** How many times a log records a call of the handler [h]. *)
Definition calls_to (h : Handler) (l : list Effect) : nat :=
  List.length
    (filter (fun e => match e with
                      | HandlerCall h' _ _ => Nat.eqb h' h
                      | _ => false
                      end) l).

(** How many times [h] occurs in a list of handlers. *)
Definition occurrences (h : Handler) (l : list Handler) : nat :=
  count_occ Nat.eq_dec l h.

(** "removes only the first-matching instance" *)
Definition without_first (h : Handler) (l : list Handler) : list Handler :=
  match indexOf h l with
  | Some i => splice1 i l
  | None => l
  end.

(** A step added no effect of the kind [P] to the log. *)
Definition quiet (P : Effect -> bool) (m m' : Machine) : Prop :=
  exists l, log m' = (log m ++ l)%list /\ forallb (fun e => negb (P e)) l = true.

(** The channel a session holds, by identity and state. *)
Definition channel_of (m : Machine) : option (nat * bool) :=
  option_map (fun so => (sock_id so, connected so)) (socket (this m)).

(** What an incoming event cannot change. *)
Definition frame (m : Machine) :=
  (apiUrl (this m), agentToken (this m), token (this m), user (this m),
   listeners (this m), channel_of m, nextId m).

(** What a REST call cannot change. *)
Definition core (m : Machine) :=
  (apiUrl (this m), agentToken (this m), socket (this m),
   currentAgencyId (this m), listeners (this m), nextId m, settle_calls m).

(** An operation adds no effect of the kind [P], whatever the state. *)
Definition quiet_op (P : Effect -> bool) {A} (c : M A) : Prop :=
  forall m, quiet P m (fst (c m)).

(** The part of the state the invariant speaks about. *)
Definition shape (m : Machine) :=
  (channel_callbacks (this m), nextId m, settle_calls m, token (this m),
   currentAgencyId (this m), listeners (this m)).

(** An operation keeps the invariant. *)
Definition keeps {A} (c : M A) : Prop :=
  forall m, well_formed m -> well_formed (fst (c m)).

(** ** One join attempt *)

(** A callback belongs to the promise [k]. *)
Definition belongs_to (k : nat) (ec : string * Callback) : bool :=
  match closure_id (cb_fn (snd ec)) with
  | Some p => Nat.eqb p k
  | None => false
  end.

(** The callbacks of the promise [k] still on the channel. *)
Definition listeners_of_promise (k : nat) (a : Agent) : list (string * Callback) :=
  filter (belongs_to k) (channel_callbacks a).

Definition joined_listener (k : nat) : string * Callback :=
  ("agency-joined", {| cb_fn := OnJoined k; cb_once := true |}).

Definition error_listener (k : nat) : string * Callback :=
  ("error", {| cb_fn := OnErr k; cb_once := true |}).

(** What a channel event means to a join that waits: an acknowledgment, an
    error, or nothing. *)
Definition settles_with (e : ChanEvent) : option Settlement :=
  if String.eqb (ev_name e) "agency-joined"
  then Some (Fulfilled (VJoined (p_agencyId (ev_data e)) (p_members (ev_data e))))
  else if String.eqb (ev_name e) "error"
  then Some (Rejected (or_else (p_message (ev_data e)) "Join failed"))
  else None.

(** "the first of the two channel events" *)
Fixpoint first_settling (events : list ChanEvent) : option Settlement :=
  match events with
  | [] => None
  | e :: rest =>
      match settles_with e with
      | Some s => Some s
      | None => first_settling rest
      end
  end.

(** The join attempt [k] waits: both listeners are on the channel and
    neither `resolve` nor `reject` was called. *)
Definition armed (k : nat) (m : Machine) : Prop :=
  listeners_of_promise k (this m) = [joined_listener k; error_listener k]
  /\ settlements_of k m = [].

(** The join attempt [k] is over: its listeners are gone and its promise
    was settled by one call. *)
Definition spent (k : nat) (s : Settlement) (m : Machine) : Prop :=
  listeners_of_promise k (this m) = [] /\ settlements_of k m = [s].

Definition outcome_of (s : Settlement) : Outcome Value :=
  match s with
  | Fulfilled v => Returned v
  | Rejected msg => Thrown msg
  end.

(** ** A sample server

    A directory of three rooms, of which the agent is a member of the first
    and the third; the server acknowledges every join request except the one
    for room [r3], which it answers with an error. *)

Module Sample.

Definition directory : list Agency.t :=
  [ Agency.mk "r1" (Some "a") true;
    Agency.mk "r2" (Some "b") false;
    Agency.mk "r3" (Some "c") true ].

Definition joined_event (agencyId : string) : ChanEvent :=
  {| ev_name := "agency-joined";
     ev_data := {| p_agencyId := Some agencyId; p_members := ["bot"];
                   p_message := None; p_rest := "" |} |}.

Definition error_event (msg : string) : ChanEvent :=
  {| ev_name := "error"; ev_data := error_payload msg |}.

Definition message_event (text : string) : ChanEvent :=
  {| ev_name := "message";
     ev_data := {| p_agencyId := None; p_members := [];
                   p_message := None; p_rest := text |} |}.

Definition feed (l : list Effect) : list ChanEvent :=
  match last l (ConsoleWarn "" "") with
  | ChannelEmit _ (JoinAgency agencyId) =>
      if String.eqb agencyId "r3" then [error_event "Room is closed"]
      else [joined_event agencyId]
  | _ => []
  end.

Definition world : World :=
  {| auth_endpoint := fun _ => AuthOk "jwt" (Build_Identity "u1" "bot" "Bot");
     agencies_endpoint := fun _ => AgenciesOk directory;
     messages_endpoint := fun _ => MessagesOk [];
     channel_open := fun _ => OpenConnected;
     channel_feed := feed |}.

Definition fresh : Machine := CrustoceanAgent.constructor "https://x/" "sk-agent".

(** The session after `connectAndJoin('a')`. *)
Definition in_room : Machine :=
  step world (CallConnectAndJoin (Some "a")) fresh.

(** ... after two registrations made while in the room ... *)
Definition listening : Machine :=
  step world (CallOn "error" 8) (step world (CallOn "message" 7) in_room).

(** ... and after `disconnect()` and `connectAndJoin('a')` again. *)
Definition rejoined : Machine :=
  fst (CrustoceanAgent.connectAndJoin world (Some "a")
         (CrustoceanAgent.disconnect listening)).

(** Three events the channel delivers afterwards. *)
Definition burst : list ChanEvent :=
  [message_event "one"; error_event "oops"; message_event "two"].

End Sample.

(** The session of the sample after connectAndJoin was called once more,
    without a disconnect before. *)
Definition sample_again : Machine :=
  step Sample.world (CallConnectAndJoin (Some "a")) Sample.listening.

(** The session of the sample after the connection has dropped. *)
Definition sample_dropped : Machine := step Sample.world ServerDrop Sample.listening.

(** No join attempt waits for its acknowledgment. *)
Definition no_join_waiting (m : Machine) : Prop :=
  forall p, ~ listening (OnJoined p) (this m).

(** The join attempt [k] is the only one that waits. *)
Definition only_join_waiting (k : nat) (m : Machine) : Prop :=
  armed k m /\ forall p, listening (OnJoined p) (this m) -> p = k.

(** The two requests of the session API that need no room. *)
Definition auth_request (a : Agent) : Request :=
  {| req_method := "POST"; req_url := request_url (apiUrl a) EpAuth;
     req_query := []; req_bearer := None; req_body := Some (agentToken a) |}.

Definition directory_request (a : Agent) (bearer : option string) : Request :=
  {| req_method := "GET"; req_url := request_url (apiUrl a) EpAgencies;
     req_query := []; req_bearer := bearer; req_body := None |}.
(** A server that rejects the token exchange. *)
Definition sample_closed : World :=
  {| auth_endpoint := fun _ => AuthRejected 401 None;
     agencies_endpoint := agencies_endpoint Sample.world;
     messages_endpoint := messages_endpoint Sample.world;
     channel_open := channel_open Sample.world;
     channel_feed := channel_feed Sample.world |}.

(** ** A channel that was replaced

    connectSocket assigns a new channel to `this.socket` and does nothing
    to the one the session held: that one is not closed (only disconnect
    closes a channel), keeps its listeners and goes on delivering what the
    server sends it.  [dispatch] is an event delivered by the channel the
    session holds; [dispatch_on] is an event delivered by a channel it
    held earlier.  The callbacks run as in [dispatch]: a one-shot wrapper
    removes itself from the channel it is on, and a closure of the session
    acts on the session as it is now (`this.socket` is the current
    channel). *)

Definition is_close (e : Effect) : bool :=
  match e with ChannelClose _ => true | _ => false end.

Definition invoke_on (event : string) (data : Payload) (st : Socket * Machine)
  (cb : Callback) : Socket * Machine :=
  let so := if cb_once cb then sock_off_wrapper event cb (fst st) else fst st in
  (so, run_closure event data (cb_fn cb) (snd st)).

Definition dispatch_on (so : Socket) (m : Machine) (e : ChanEvent)
  : Socket * Machine :=
  fold_left (invoke_on (ev_name e) (ev_data e)) (listeners_of (ev_name e) so) (so, m).

(** The channel an operation left open behind it: the one held before,
    when the session holds another one after. *)
Definition left_open (before after : Machine) : option Socket :=
  match socket (this before), socket (this after) with
  | Some so, Some so' =>
      if Nat.eqb (sock_id so) (sock_id so') then None else Some so
  | _, _ => None
  end.

(** One emission of the server to the agent: it arrives on the channel
    left open, if there is one, and on the current channel. *)
Definition emission (old : option Socket) (m : Machine) (e : ChanEvent) : Machine :=
  match old with
  | Some so => dispatch (snd (dispatch_on so m e)) e
  | None => dispatch m e
  end.

(** ** Text in the ASCII range

    The range on which [toLowerCase] above is the function of the
    language. *)
Definition ascii_only (s : string) : bool :=
  forallb (fun c => (nat_of_ascii c <? 128)%nat) (list_ascii_of_string s).

Definition ascii_content (msg : option Msg.t) : bool :=
  match content_of msg with Some c => ascii_only c | None => true end.

(** ** JavaScript values as data

    Where a function is handed a value the JSDoc does not type, or reads a
    body that a server sent, the value is a [Js]: a primitive, an array or
    an object of such values (numbers are integers; no functions, getters
    or wrapper objects).  An object's properties have distinct keys.  A
    `TypeError` is known by its name, the text of its message being the
    engine's. *)

Unset Elimination Schemes.
Inductive Js :=
| JsUndefined
| JsNull
| JsBool (b : bool)
| JsNumber (n : Z)
| JsString (s : string)
| JsArray (items : list Js)
| JsObject (properties : list (string * Js)).
Set Elimination Schemes.

Definition type_error : string := "TypeError".

(** `!!v` *)
Definition js_truthy (v : Js) : bool :=
  match v with
  | JsUndefined | JsNull => false
  | JsBool b => b
  | JsNumber n => negb (Z.eqb n 0)
  | JsString s => negb (is_empty s)
  | JsArray _ | JsObject _ => true
  end.

Definition is_nullish (v : Js) : bool :=
  match v with JsUndefined | JsNull => true | _ => false end.

Definition is_string (v : Js) : bool :=
  match v with JsString _ => true | _ => false end.

Fixpoint js_lookup (key : string) (properties : list (string * Js)) : Js :=
  match properties with
  | [] => JsUndefined
  | (k, v) :: rest => if String.eqb k key then v else js_lookup key rest
  end.

(** `v.key` for a name that no prototype defines, on a value that is not
    nullish (there the read throws). *)
Definition js_get (key : string) (v : Js) : Js :=
  match v with
  | JsObject properties => js_lookup key properties
  | _ => JsUndefined
  end.

(** `v?.key` *)
Definition optional_get (key : string) (v : Js) : Js :=
  if is_nullish v then JsUndefined else js_get key v.

(** `v?.[0]` *)
Definition optional_first (v : Js) : Js :=
  match v with
  | JsArray (x :: _) => x
  | JsString (String c _) => JsString (String c EmptyString)
  | JsObject properties => js_lookup "0" properties
  | _ => JsUndefined
  end.

(** `String(v)`, which is also `${v}` and the message of `new Error(v)`. *)
Fixpoint to_text (v : Js) : string :=
  match v with
  | JsUndefined => "undefined"
  | JsNull => "null"
  | JsBool b => if b then "true" else "false"
  | JsNumber n => string_of_Z n
  | JsString s => s
  | JsArray items =>
      (fix join (l : list Js) : string :=
         match l with
         | [] => ""
         | x :: r =>
             let head :=
               match x with
               | JsUndefined | JsNull => ""
               | _ => to_text x
               end in
             match r with
             | [] => head
             | _ => head ++ "," ++ join r
             end
         end) items
  | JsObject _ => "[object Object]"
  end.

(** What `fetch` gives: it rejects, or it resolves with a response, whose
    `ok` is its status being 2xx and whose `json()` parses or rejects. *)
Inductive Parsed :=
| Parses (value : Js)
| ParseFails (error : string).

Inductive HttpReply :=
| FetchRejected (reason : string)
| Response (status : nat) (body : Parsed).

Definition ok (status : nat) : bool :=
  ((200 <=? status) && (status <=? 299))%nat.

(** `await res.json().catch(() => ({}))` *)
Definition json_or_empty (body : Parsed) : Js :=
  match body with Parses v => v | ParseFails _ => JsObject [] end.

(** *** shouldRespond on every value

    [shouldRespond] above takes its arguments as the JSDoc types them; this
    is the function on whatever it may be handed. *)

Module Untyped.

Definition shouldRespond (msg agentUsername : Js) : Outcome bool :=
  if negb (js_truthy (optional_get "content" msg)) || negb (js_truthy agentUsername)
  then Returned false
  else
    match js_get "content" msg with
    | JsString content =>
        let lower := toLowerCase content in
        match agentUsername with
        | JsString name =>
            let mention := "@" ++ toLowerCase name in
            Returned (includes lower mention)
        | _ => Thrown type_error
        end
    | _ => Thrown type_error
    end.

End Untyped.

(** The typed arguments as values. *)
Definition js_of_option (x : option string) : Js :=
  match x with Some s => JsString s | None => JsUndefined end.

Definition js_of_msg (msg : option Msg.t) : Js :=
  match msg with
  | Some m =>
      JsObject [("content", js_of_option (Msg.content m));
                ("sender_username", js_of_option (Msg.sender_username m))]
  | None => JsUndefined
  end.

(** ** The REST helpers

    The thirteen exported functions after the class ([register] to
    [deleteCustomCommand]).  Each one strips the base address, makes one
    `fetch` and ends the same way: a response that is not `ok` throws
    `err.error || "<Label> failed: <status>"`, any other returns the parsed
    body ([deleteCustomCommand] returns nothing).  A helper is written here
    as the call it prepares, a [Rest.Call]; [Rest.perform] is the common
    ending, on every [HttpReply].  An object the caller passes through
    ([config], [updates], [explore_metadata]) is one that `JSON.stringify`
    accepts, known by its JSON text. *)

Module Rest.

(** The value of a property of an object literal. *)
Inductive Json :=
| JUndefined
| JNull
| JString (s : string)
| JNumber (n : Z)
| JStrings (l : list string)
| JObject (text : string).

Definition is_undefined (v : Json) : bool :=
  match v with JUndefined => true | _ => false end.

Definition of_string (x : option string) : Json :=
  match x with Some s => JString s | None => JUndefined end.

Definition of_number (x : option Z) : Json :=
  match x with Some n => JNumber n | None => JUndefined end.

Definition of_strings (x : option (list string)) : Json :=
  match x with Some l => JStrings l | None => JUndefined end.

Definition Object := list (string * Json).

(** `JSON.stringify` of an object: a property whose value is `undefined`
    is left out, the others keep their order. *)
Definition stringify (o : Object) : Object :=
  filter (fun kv => negb (is_undefined (snd kv))) o.

(** `if (v !== undefined) body.k = v`, for a key the object does not have. *)
Definition assign (k : string) (v : Json) (o : Object) : Object :=
  if is_undefined v then o else (o ++ [(k, v)])%list.

Inductive Body :=
| NoBody
| ObjectBody (properties : Object)
| TextBody (json : string).

(** What is handed to `fetch`. *)
Record Fetch := {
  f_method : string;
  f_url : string;
  f_content_type : option string;
  f_authorization : option string;
  f_body : Body }.

(** A helper up to its `fetch`: the request, the label of its error
    message and whether it returns the body. *)
Record Call := {
  request : Fetch;
  label : string;
  returns_body : bool }.

Definition json_type : option string := Some "application/json".

Definition bearer (userToken : string) : option string :=
  Some ("Bearer " ++ userToken).

(** The common ending of the helpers:
    `if (!res.ok) { const err = await res.json().catch(() => ({}));
                    throw new Error(err.error || `<Label> failed: ${res.status}`); }
     return res.json();`
    A `fetch` that rejects rejects the helper; `err.error` on a body that
    is `null` is a TypeError; `res.json()` of the last line is not guarded
    and [deleteCustomCommand] has no last line. *)
Definition perform (fetch : Fetch -> HttpReply) (c : Call) : Outcome Js :=
  match fetch (request c) with
  | FetchRejected reason => Thrown reason
  | Response status body =>
      if negb (ok status) then
        let err := json_or_empty body in
        if is_nullish err then Thrown type_error
        else
          let error := js_get "error" err in
          Thrown (if js_truthy error then to_text error
                  else label c ++ " failed: " ++ string_of_nat status)
      else if returns_body c then
        match body with
        | Parses v => Returned v
        | ParseFails e => Thrown e
        end
      else Returned JsUndefined
  end.

Definition register (apiUrl username password : string)
  (displayName : option string) : Call :=
  let url := strip_trailing_slash apiUrl in
  {| request :=
       {| f_method := "POST";
          f_url := url ++ "/api/auth/register";
          f_content_type := json_type;
          f_authorization := None;
          f_body :=
            ObjectBody
              (stringify [("username", JString username);
                          ("password", JString password);
                          ("displayName", JString (or_else displayName username))]) |};
     label := "Register";
     returns_body := true |}.

Definition login (apiUrl username password : string) : Call :=
  let url := strip_trailing_slash apiUrl in
  {| request :=
       {| f_method := "POST";
          f_url := url ++ "/api/auth/login";
          f_content_type := json_type;
          f_authorization := None;
          f_body :=
            ObjectBody
              (stringify [("username", JString username);
                          ("password", JString password)]) |};
     label := "Login";
     returns_body := true |}.

Definition createAgent (apiUrl userToken name : string)
  (role agencyId : option string) : Call :=
  let url := strip_trailing_slash apiUrl in
  {| request :=
       {| f_method := "POST";
          f_url := url ++ "/api/agents";
          f_content_type := json_type;
          f_authorization := bearer userToken;
          f_body :=
            ObjectBody
              (stringify [("name", JString name);
                          ("role", of_string role);
                          ("agencyId", of_string agencyId)]) |};
     label := "Create";
     returns_body := true |}.

Definition updateAgentConfig (apiUrl userToken agentId config : string) : Call :=
  let url := strip_trailing_slash apiUrl in
  {| request :=
       {| f_method := "PATCH";
          f_url := url ++ "/api/agents/" ++ agentId ++ "/config";
          f_content_type := json_type;
          f_authorization := bearer userToken;
          f_body := TextBody config |};
     label := "Update config";
     returns_body := true |}.

Definition verifyAgent (apiUrl userToken agentId : string) : Call :=
  let url := strip_trailing_slash apiUrl in
  {| request :=
       {| f_method := "POST";
          f_url := url ++ "/api/agents/" ++ agentId ++ "/verify";
          f_content_type := None;
          f_authorization := bearer userToken;
          f_body := NoBody |};
     label := "Verify";
     returns_body := true |}.

Definition addAgentToAgency (apiUrl userToken agencyId : string)
  (agentId username : option string) : Call :=
  let url := strip_trailing_slash apiUrl in
  {| request :=
       {| f_method := "POST";
          f_url := url ++ "/api/agencies/" ++ agencyId ++ "/agents";
          f_content_type := json_type;
          f_authorization := bearer userToken;
          f_body :=
            ObjectBody
              (stringify [("agentId", of_string agentId);
                          ("username", of_string username)]) |};
     label := "Add agent";
     returns_body := true |}.

Definition updateAgency (apiUrl userToken agencyId updates : string) : Call :=
  let url := strip_trailing_slash apiUrl in
  {| request :=
       {| f_method := "PATCH";
          f_url := url ++ "/api/agencies/" ++ agencyId;
          f_content_type := json_type;
          f_authorization := bearer userToken;
          f_body := TextBody updates |};
     label := "Update agency";
     returns_body := true |}.

Definition createInvite (apiUrl userToken agencyId : string)
  (maxUses : option Z) (expires : option string) : Call :=
  let url := strip_trailing_slash apiUrl in
  {| request :=
       {| f_method := "POST";
          f_url := url ++ "/api/agencies/" ++ agencyId ++ "/invites";
          f_content_type := json_type;
          f_authorization := bearer userToken;
          f_body :=
            ObjectBody
              (stringify [("maxUses", of_number maxUses);
                          ("expires", of_string expires)]) |};
     label := "Create invite";
     returns_body := true |}.

Definition installSkill (apiUrl userToken agencyId skillName : string) : Call :=
  let url := strip_trailing_slash apiUrl in
  {| request :=
       {| f_method := "POST";
          f_url := url ++ "/api/agencies/" ++ agencyId ++ "/skills";
          f_content_type := json_type;
          f_authorization := bearer userToken;
          f_body := ObjectBody (stringify [("skillName", JString skillName)]) |};
     label := "Install skill";
     returns_body := true |}.

Definition listCustomCommands (apiUrl userToken agencyId : string) : Call :=
  let url := strip_trailing_slash apiUrl in
  {| request :=
       {| f_method := "GET";
          f_url := url ++ "/api/custom-commands/" ++ agencyId ++ "/commands";
          f_content_type := None;
          f_authorization := bearer userToken;
          f_body := NoBody |};
     label := "List";
     returns_body := true |}.

Definition createCustomCommand (apiUrl userToken agencyId name webhook_url : string)
  (description : option string) (explore_metadata : Json)
  (invoke_permission : option string) (invoke_whitelist : option (list string))
  : Call :=
  let url := strip_trailing_slash apiUrl in
  let body :=
    [("name", JString name);
     ("webhook_url", JString webhook_url);
     ("description", of_string description);
     ("explore_metadata", explore_metadata);
     ("invoke_permission", of_string invoke_permission);
     ("invoke_whitelist", of_strings invoke_whitelist)] in
  {| request :=
       {| f_method := "POST";
          f_url := url ++ "/api/custom-commands/" ++ agencyId ++ "/commands";
          f_content_type := json_type;
          f_authorization := bearer userToken;
          f_body := ObjectBody (stringify body) |};
     label := "Create";
     returns_body := true |}.

Definition updateCustomCommand (apiUrl userToken agencyId commandId : string)
  (name webhook_url description : option string) (explore_metadata : Json)
  (invoke_permission : option string) (invoke_whitelist : option (list string))
  : Call :=
  let url := strip_trailing_slash apiUrl in
  let body := [] in
  let body := assign "name" (of_string name) body in
  let body := assign "webhook_url" (of_string webhook_url) body in
  let body := assign "description" (of_string description) body in
  let body := assign "explore_metadata" explore_metadata body in
  let body := assign "invoke_permission" (of_string invoke_permission) body in
  let body := assign "invoke_whitelist" (of_strings invoke_whitelist) body in
  {| request :=
       {| f_method := "PATCH";
          f_url := url ++ "/api/custom-commands/" ++ agencyId ++ "/commands/"
                   ++ commandId;
          f_content_type := json_type;
          f_authorization := bearer userToken;
          f_body := ObjectBody (stringify body) |};
     label := "Update";
     returns_body := true |}.

Definition deleteCustomCommand (apiUrl userToken agencyId commandId : string)
  : Call :=
  let url := strip_trailing_slash apiUrl in
  {| request :=
       {| f_method := "DELETE";
          f_url := url ++ "/api/custom-commands/" ++ agencyId ++ "/commands/"
                   ++ commandId;
          f_content_type := None;
          f_authorization := bearer userToken;
          f_body := NoBody |};
     label := "Delete";
     returns_body := false |}.

(** The helpers as functions of the base address. *)
Inductive helper : (string -> Call) -> Prop :=
| h_register username password displayName :
    helper (fun apiUrl => register apiUrl username password displayName)
| h_login username password :
    helper (fun apiUrl => login apiUrl username password)
| h_createAgent userToken name role agencyId :
    helper (fun apiUrl => createAgent apiUrl userToken name role agencyId)
| h_updateAgentConfig userToken agentId config :
    helper (fun apiUrl => updateAgentConfig apiUrl userToken agentId config)
| h_verifyAgent userToken agentId :
    helper (fun apiUrl => verifyAgent apiUrl userToken agentId)
| h_addAgentToAgency userToken agencyId agentId username :
    helper (fun apiUrl => addAgentToAgency apiUrl userToken agencyId agentId username)
| h_updateAgency userToken agencyId updates :
    helper (fun apiUrl => updateAgency apiUrl userToken agencyId updates)
| h_createInvite userToken agencyId maxUses expires :
    helper (fun apiUrl => createInvite apiUrl userToken agencyId maxUses expires)
| h_installSkill userToken agencyId skillName :
    helper (fun apiUrl => installSkill apiUrl userToken agencyId skillName)
| h_listCustomCommands userToken agencyId :
    helper (fun apiUrl => listCustomCommands apiUrl userToken agencyId)
| h_createCustomCommand userToken agencyId name webhook_url description
    explore_metadata invoke_permission invoke_whitelist :
    helper (fun apiUrl =>
              createCustomCommand apiUrl userToken agencyId name webhook_url
                description explore_metadata invoke_permission invoke_whitelist)
| h_updateCustomCommand userToken agencyId commandId name webhook_url description
    explore_metadata invoke_permission invoke_whitelist :
    helper (fun apiUrl =>
              updateCustomCommand apiUrl userToken agencyId commandId name
                webhook_url description explore_metadata invoke_permission
                invoke_whitelist)
| h_deleteCustomCommand userToken agencyId commandId :
    helper (fun apiUrl => deleteCustomCommand apiUrl userToken agencyId commandId).

End Rest.
(** ** x402: the paying `fetch`

    [packages/sdk/src/x402.js].  The wallet, the chain client, the signer,
    the scheme and the payment wrapper come from `viem` and `@x402`.
    [privateKeyToAccount] is the wallet, which refuses a key that is not a
    private key; [wrap] stands for the four calls that follow it
    (`createPublicClient`, `toClientEvmSigner`, `new ExactEvmScheme`,
    `wrapFetchWithPaymentFromConfig`), which get from this function the
    [X402.Wiring] and nothing else.  An error of a library is the error of
    the function. *)

Module X402.

(** `viem/chains` *)
Inductive Chain := base | baseSepolia.

Definition BASE_MAINNET : string := "eip155:8453".
Definition BASE_SEPOLIA : string := "eip155:84532".

Definition key_required : string :=
  "createX402Fetch requires a privateKey (hex string with 0x prefix)".

(** `v === s` *)
Definition is_the_string (s : string) (v : Js) : bool :=
  match v with JsString t => String.eqb t s | _ => false end.

Section Libraries.

Variables Account Fetch Paying : Type.

Record Wiring := {
  account : Account;
  chain : Chain;
  networkId : string;
  fetchFn : Fetch }.

Variable privateKeyToAccount : string -> Account + string.
Variable wrap : Wiring -> Paying + string.
Variable globalFetch : Fetch.

(** `network = 'base'` and `fetchFn = globalThis.fetch` are the defaults of
    parameters left out. *)
Definition createX402Fetch (privateKey network : Js) (fetchFn : option Fetch)
  : Paying + string :=
  let network := match network with JsUndefined => JsString "base" | _ => network end in
  let fetchFn := match fetchFn with Some f => f | None => globalFetch end in
  match privateKey with
  | JsString key =>
      if is_empty key then inr key_required
      else
        let chain :=
          if is_the_string "base-sepolia" network then baseSepolia else base in
        let networkId :=
          if is_the_string "base-sepolia" network then BASE_SEPOLIA
          else BASE_MAINNET in
        match privateKeyToAccount (if prefix "0x" key then key else "0x" ++ key) with
        | inr refused => inr refused
        | inl account =>
            wrap {| account := account; chain := chain; networkId := networkId;
                    fetchFn := fetchFn |}
        end
  | _ => inr key_required
  end.

End Libraries.

End X402.

(** ** The example agent: callLLM

    [packages/sdk/examples/llm-agent.js].  The key is read from the
    environment when the script starts; the completion endpoint is a
    collaborator outside the repository.  The result comes with the
    requests that were made. *)

Module Example.

Record Completion := {
  c_url : string;
  c_authorization : string;
  c_model : string;
  c_system : string;
  c_user : string;
  c_max_tokens : nat }.

Definition not_configured : string :=
  "LLM not configured. Set OPENAI_API_KEY to enable responses.".

(** `${x}` *)
Definition template (x : option string) : string :=
  match x with Some s => s | None => "undefined" end.

Definition completion (OPENAI_API_KEY : option string)
  (systemPrompt userPrompt : string) : Completion :=
  {| c_url := "https://api.openai.com/v1/chat/completions";
     c_authorization := "Bearer " ++ template OPENAI_API_KEY;
     c_model := "gpt-4o-mini";
     c_system := systemPrompt;
     c_user := userPrompt;
     c_max_tokens := 500 |}.

(** `data.choices?.[0]?.message?.content` *)
Definition first_content (data : Js) : Js :=
  optional_get "content"
    (optional_get "message" (optional_first (js_get "choices" data))).

Definition callLLM (OPENAI_API_KEY : option string)
  (fetch : Completion -> HttpReply) (systemPrompt userPrompt : string)
  : list Completion * Outcome string :=
  if falsy OPENAI_API_KEY then ([], Returned not_configured)
  else
    let rq := completion OPENAI_API_KEY systemPrompt userPrompt in
    match fetch rq with
    | FetchRejected reason => ([rq], Thrown reason)
    | Response status body =>
        if negb (ok status) then
          let err := json_or_empty body in
          if is_nullish err then ([rq], Thrown type_error)
          else
            let message := optional_get "message" (js_get "error" err) in
            ([rq],
             Returned
               ("Error: " ++ (if js_truthy message then to_text message
                              else string_of_nat status)))
        else
          match body with
          | ParseFails e => ([rq], Thrown e)
          | Parses data =>
              if is_nullish data then ([rq], Thrown type_error)
              else
                match first_content data with
                | JsUndefined | JsNull => ([rq], Returned "(no response)")
                | JsString content =>
                    ([rq],
                     Returned (if is_empty (trim content) then "(no response)"
                               else trim content))
                | _ => ([rq], Thrown type_error)
                end
          end
    end.

End Example.

(** What the session is configured with: the base address, the agent token
    and the registry of handlers. *)
Definition settings (m : Machine) :=
  (apiUrl (this m), agentToken (this m), listeners (this m)).

(** An operation keeps the settings, and a credential once held. *)
Definition steady {A} (c : M A) : Prop :=
  forall m,
    settings (fst (c m)) = settings m
    /\ (token (this m) <> None -> token (this (fst (c m))) <> None).

(** * Properties *)

Unset Implicit Arguments.

(** ** Strings *)

Lemma prefix_app (p s : string) :
  prefix p s = true <-> exists t, s = p ++ t.
Proof.
  revert s. induction p as [|c p IH]; intros s; simpl.
  - split; [intros _; now exists s | intros _; now destruct s].
  - destruct s as [|d s]; simpl.
    + split; [discriminate | intros [t H]; discriminate].
    + destruct (Ascii.ascii_dec c d) as [->|ne].
      * rewrite IH. split; intros [t H]; exists t.
        -- now rewrite H.
        -- now inversion H.
      * split; [discriminate|]. intros [t H]. inversion H. congruence.
Qed.

Lemma includes_here (s sub : string) :
  prefix sub s = true -> includes s sub = true.
Proof. intros H. destruct s; cbn [includes]; now rewrite H. Qed.

Lemma includes_later (c : ascii) (s sub : string) :
  includes s sub = true -> includes (String c s) sub = true.
Proof. intros H. cbn [includes]. rewrite H. now destruct (prefix sub (String c s)). Qed.

Lemma includes_contains (s sub : string) :
  includes s sub = true <-> contains s sub.
Proof.
  split.
  - induction s as [|c s IH]; cbn [includes].
    + destruct (prefix sub "") eqn:P; [|discriminate].
      intros _. apply prefix_app in P. destruct P as [t P].
      exists "", t. exact P.
    + destruct (prefix sub (String c s)) eqn:P.
      * intros _. apply prefix_app in P. destruct P as [t P].
        exists "", t. exact P.
      * intros H. destruct (IH H) as (pre & post & E).
        exists (String c pre), post. simpl. now rewrite E.
  - intros (pre & post & E). subst s.
    induction pre as [|c pre IH]; simpl append.
    + apply includes_here. apply prefix_app. now exists post.
    + now apply includes_later.
Qed.

Lemma is_empty_false (s : string) : is_empty s = false <-> s <> "".
Proof. destruct s; simpl; split; congruence. Qed.

Lemma truthy_spec (x : option string) :
  truthy x = true <-> exists s, x = Some s /\ s <> "".
Proof.
  destruct x as [s|]; simpl.
  - rewrite negb_true_iff, is_empty_false. split.
    + intros H. now exists s.
    + intros (s' & E & H). now inversion E; subst.
  - split; [discriminate | intros (s & E & _); discriminate].
Qed.

(** On arguments of the types the JSDoc gives them, shouldRespond answers
    true exactly when the message is present with a non-empty content, the
    username is present and non-empty, and the lower-cased content contains
    "@" followed by the lower-cased username. *)
Lemma shouldRespond_iff (msg : option Msg.t) (agentUsername : option string) :
  shouldRespond msg agentUsername = true <->
  exists m content name,
    msg = Some m /\ Msg.content m = Some content /\ content <> "" /\
    agentUsername = Some name /\ name <> "" /\
    contains (toLowerCase content) ("@" ++ toLowerCase name).
Proof.
  unfold shouldRespond, falsy. split.
  - destruct (truthy (content_of msg)) eqn:Tc; simpl; [|discriminate].
    destruct (truthy agentUsername) eqn:Tu; simpl; [|discriminate].
    apply truthy_spec in Tc, Tu.
    destruct Tc as (c & Ec & Hc), Tu as (u & Eu & Hu).
    rewrite Ec, Eu. intros H. apply includes_contains in H.
    destruct msg as [m|]; [|discriminate]. simpl in Ec.
    now exists m, c, u.
  - intros (m & c & u & -> & Ec & Hc & -> & Hu & H).
    assert (Tc : truthy (content_of (Some m)) = true)
      by (apply truthy_spec; exists c; now split).
    assert (Tu : truthy (Some u) = true)
      by (apply truthy_spec; exists u; now split).
    rewrite Tc, Tu. cbn [negb orb content_of]. rewrite Ec.
    now apply includes_contains.
Qed.

(** ** The base URL *)

Lemma ends_with_slash_cons (c : ascii) (s : string) :
  s <> "" -> ends_with "/" (String c s) = ends_with "/" s.
Proof.
  intros H. destruct s as [|d s]; [congruence|].
  cbn [ends_with]. cbn [String.eqb].
  destruct (Ascii.eqb c "/"); reflexivity.
Qed.

Lemma join_point_slash (base : string) (ep : Endpoint) :
  join_point base ep = "//" -> ends_with "/" base = true.
Proof.
  unfold join_point, request_url.
  induction base as [|c r IH].
  - destruct ep; simpl; discriminate.
  - destruct r as [|d r].
    + simpl. destruct ep; simpl; intros H; inversion H; reflexivity.
    + intros H. rewrite ends_with_slash_cons by discriminate.
      apply IH. simpl in H |- *. rewrite Nat.sub_0_r in *. exact H.
Qed.

Lemma append_assoc' (a b c : string) : (a ++ b) ++ c = a ++ (b ++ c).
Proof. induction a as [|x a IH]; simpl; [reflexivity | now rewrite IH]. Qed.

Lemma ends_with_spec (suffix s : string) :
  ends_with suffix s = true <-> exists pre, s = pre ++ suffix.
Proof.
  induction s as [|c r IH]; cbn [ends_with].
  - destruct (String.eqb_spec "" suffix) as [<-|ne].
    + split; [now exists "" | reflexivity].
    + split; [discriminate|]. intros [pre E].
      destruct pre; simpl in E; [congruence | discriminate].
  - destruct (String.eqb_spec (String c r) suffix) as [<-|ne].
    + split; [now exists "" | reflexivity].
    + rewrite IH. split.
      * intros [pre E]. exists (String c pre). simpl. now rewrite E.
      * intros [pre E]. destruct pre as [|d pre]; simpl in E; [congruence|].
        inversion E. now exists pre.
Qed.

Lemma strip_trailing_slash_spec (s : string) :
  (exists t, s = t ++ "/" /\ strip_trailing_slash s = t)
  \/ ((~ exists t, s = t ++ "/") /\ strip_trailing_slash s = s).
Proof.
  induction s as [|c r IH].
  - right. split; [|reflexivity]. intros [t E]. destruct t; discriminate.
  - destruct r as [|d r].
    + cbn [strip_trailing_slash].
      destruct (Ascii.eqb_spec c "/") as [->|ne].
      * left. now exists "".
      * right. split; [|reflexivity]. intros [t E].
        destruct t as [|x t]; simpl in E; [congruence|].
        inversion E. destruct t; discriminate.
    + change (strip_trailing_slash (String c (String d r)))
        with (String c (strip_trailing_slash (String d r))).
      destruct IH as [(t & E & S)|(N & S)].
      * left. exists (String c t). split.
        -- cbn [append]. now rewrite <- E.
        -- now rewrite S.
      * right. split; [|now rewrite S]. intros [t E].
        destruct t as [|x t]; simpl in E; [discriminate|].
        inversion E. apply N. now exists t.
Qed.

Lemma stripped_base_no_slash (url : string) :
  ends_with "//" url = false ->
  ends_with "/" (strip_trailing_slash url) = false.
Proof.
  intros H. destruct (ends_with "/" (strip_trailing_slash url)) eqn:E; [|reflexivity].
  apply ends_with_spec in E. destruct E as [pre E].
  destruct (strip_trailing_slash_spec url) as [(t & U & S)|(N & S)].
  - assert (X : ends_with "//" url = true).
    { apply ends_with_spec. exists pre. rewrite U, <- S, E.
      now rewrite append_assoc'. }
    congruence.
  - exfalso. apply N. exists pre. now rewrite <- S.
Qed.

(** C9, as stated, fails: with two trailing slashes one is left on the stored
    base, and the request URL has a double slash where base and path meet. *)
Lemma constructor_double_slash_left :
  ~ (forall url tok ep,
       join_point (apiUrl (this (CrustoceanAgent.constructor url tok))) ep <> "//").
Proof.
  intros H. apply (H "https://x//" "sk" EpAuth). reflexivity.
Qed.

(** C9 (amended). The constructor stores the base URL with one trailing
    slash stripped: "https://x/" is stored as "https://x"; and for every
    apiUrl that does not end in two slashes, no request URL built from the
    stored base has a double slash where base and path meet. *)
Theorem constructor_strips_one_slash (url tok : string) :
  apiUrl (this (CrustoceanAgent.constructor "https://x/" tok)) = "https://x"
  /\ apiUrl (this (CrustoceanAgent.constructor url tok)) = strip_trailing_slash url
  /\ (ends_with "//" url = false ->
      forall ep,
        join_point (apiUrl (this (CrustoceanAgent.constructor url tok))) ep <> "//").
Proof.
  split; [reflexivity|]. split; [reflexivity|].
  intros H ep J. cbn [CrustoceanAgent.constructor this apiUrl] in J.
  apply join_point_slash in J.
  rewrite (stripped_base_no_slash _ H) in J. discriminate.
Qed.

Lemma constructor_strips_one_slash_witness :
  ends_with "//" "https://api.crustocean.chat/" = false
  /\ forall ep,
       join_point
         (apiUrl (this (CrustoceanAgent.constructor "https://api.crustocean.chat/" "sk")))
         ep <> "//".
Proof.
  split; [reflexivity|].
  apply (constructor_strips_one_slash "https://api.crustocean.chat/" "sk").
  reflexivity.
Defined.

(** ** The log *)

Lemma added_app (m m' : Machine) (l : list Effect) :
  log m' = (log m ++ l)%list -> added m m' = l.
Proof.
  intros E. unfold added. rewrite E.
  rewrite skipn_app, skipn_all, Nat.sub_diag. reflexivity.
Qed.

Lemma added_refl (m : Machine) : added m m = [].
Proof. apply added_app. now rewrite app_nil_r. Qed.

(** ** getRecentMessages *)

(** C7. The messages request of getRecentMessages carries
    [min(limit, 100)] as its only `limit` parameter, 50 standing for an
    omitted limit (so limit 500 is sent as "100"); with a credential and a
    room joined the request is the one effect of the call. *)
Theorem getRecentMessages_limit_clamped
  (w : World) (opts : MessagesOptions) (m : Machine) :
  let lim := match limit opts with Some l => l | None => 50%Z end in
  let m' := fst (CrustoceanAgent.getRecentMessages w opts m) in
  (forall rq, In (Http rq) (added m m') -> req_method rq = "GET" ->
     exists more,
       req_query rq = ("limit", string_of_Z (Z.min lim 100)) :: more
       /\ ~ In "limit" (map fst more))
  /\ (forall agencyId,
        truthy (token (this m)) = true ->
        currentAgencyId (this m) = Some agencyId -> agencyId <> "" ->
        exists rq,
          added m m' = [Http rq]
          /\ req_method rq = "GET"
          /\ req_url rq = request_url (apiUrl (this m)) (EpMessages agencyId)
          /\ hd_error (req_query rq)
             = Some ("limit", string_of_Z (Z.min lim 100)))
  /\ string_of_Z (Z.min 500 100) = "100".
Proof.
  intros lim m'. subst m'.
  unfold CrustoceanAgent.getRecentMessages, bind, CrustoceanAgent.ensure_token,
    CrustoceanAgent.connect, ret.
  split; [|split; [|reflexivity]].
  - intros rq.
    destruct (truthy (token (this m))); cbn [fst snd];
      [| destruct (auth_endpoint w _) ];
      cbn [this update_agent record log currentAgencyId set_token];
      repeat match goal with
        | |- context [match currentAgencyId ?a with _ => _ end] =>
            destruct (currentAgencyId a) as [agencyId|]
        | |- context [if is_empty ?a then _ else _] => destruct (is_empty a)
        | |- context [match messages_endpoint ?w ?l with _ => _ end] =>
            destruct (messages_endpoint w l)
        end;
      cbn [fst snd];
      try (rewrite added_refl; intros []);
      try (erewrite added_app by (cbn [log record update_agent];
                                  rewrite <- ?app_assoc; reflexivity));
      cbn [In app]; intros I G;
      repeat match goal with
        | H : _ \/ _ |- _ => destruct H
        | H : False |- _ => destruct H
        | H : Http _ = Http _ |- _ => inversion H; subst; clear H
        end;
      try discriminate;
      cbn [req_query];
      fold lim;
      destruct (before opts) as [b|]; try destruct (is_empty b);
      destruct (mentions opts) as [u|]; try destruct (is_empty u);
      eexists; (split; [reflexivity|]); cbn; intuition discriminate.
  - intros agencyId T C N. rewrite T. cbn [fst]. rewrite C.
    apply is_empty_false in N. rewrite N.
    eexists. split.
    + destruct (messages_endpoint w _); apply added_app; reflexivity.
    + cbn. auto.
Qed.

(** ** send *)

(** C1. Without an open channel or without a joined room, send throws the
    precondition error and leaves the whole state as it was: nothing is
    emitted over the channel and no network effect is recorded. *)
Theorem send_precondition_no_effect
  (content : string) (options : SendOptions) (m : Machine) :
  socket (this m) = None \/ socket_connected (this m) = false
  \/ currentAgencyId (this m) = None \/ falsy (currentAgencyId (this m)) = true ->
  CrustoceanAgent.send content options m
    = (m, Thrown CrustoceanAgent.send_precondition)
  /\ filter is_network (added m (fst (CrustoceanAgent.send content options m))) = [].
Proof.
  intros H.
  assert (G : negb (socket_connected (this m)) || falsy (currentAgencyId (this m))
              = true).
  { unfold socket_connected. destruct H as [H|[H|[H|H]]].
    - now rewrite H.
    - unfold socket_connected in H. now rewrite H.
    - rewrite H. apply orb_true_r.
    - rewrite H. apply orb_true_r. }
  unfold CrustoceanAgent.send. rewrite G. split; [reflexivity|].
  cbn [fst]. now rewrite added_refl.
Qed.

Lemma send_precondition_no_effect_witness :
  socket (this Sample.fresh) = None
  /\ CrustoceanAgent.send "hello" {| o_type := None; o_metadata := None |} Sample.fresh
     = (Sample.fresh, Thrown CrustoceanAgent.send_precondition).
Proof.
  split; [reflexivity|].
  apply (send_precondition_no_effect "hello"
           {| o_type := None; o_metadata := None |} Sample.fresh).
  left. reflexivity.
Defined.

(** ** The channel's event emitter *)

Lemma Closure_eqb_eq (a b : Closure) : Closure_eqb a b = true <-> a = b.
Proof.
  destruct a, b; simpl; rewrite ?Nat.eqb_eq; split; intros H;
    try discriminate; try (inversion H; reflexivity); now subst.
Qed.

Lemma log_invoke (event : string) (data : Payload) (m : Machine) (cb : Callback) :
  log (invoke event data m cb)
  = (log m ++ match cb_fn cb with
              | UserFn h => [HandlerCall h event data]
              | _ => []
              end)%list.
Proof.
  unfold invoke, run_closure.
  destruct (cb_fn cb); destruct (cb_once cb); cbn [log record settle on_socket update_agent];
    rewrite ?app_nil_r; try reflexivity;
    destruct (socket _); reflexivity.
Qed.

Lemma log_fold_invoke (event : string) (data : Payload) (l : list Callback) :
  forall m,
    log (fold_left (invoke event data) l m)
    = (log m ++ map (fun h => HandlerCall h event data) (user_fns l))%list.
Proof.
  induction l as [|cb l IH]; intros m; cbn [fold_left user_fns].
  - now rewrite app_nil_r.
  - rewrite IH, log_invoke. destruct (cb_fn cb); cbn [map];
      rewrite <- app_assoc; reflexivity.
Qed.

(** An incoming event calls the attached handlers of its name, each once per
    attachment, in the order attached, and records nothing else. *)
Lemma log_dispatch (m : Machine) (e : ChanEvent) :
  log (dispatch m e)
  = (log m ++ calls_for (attached (ev_name e) (this m)) e)%list.
Proof.
  unfold dispatch, attached, calls_for. destruct (socket (this m)) as [so|].
  - apply log_fold_invoke.
  - now rewrite app_nil_r.
Qed.

Lemma calls_to_calls_for (h : Handler) (hs : list Handler) (e : ChanEvent) :
  calls_to h (calls_for hs e) = occurrences h hs.
Proof.
  unfold calls_to, calls_for, occurrences.
  induction hs as [|x hs IH]; cbn [map filter count_occ]; [reflexivity|].
  destruct (Nat.eq_dec x h) as [->|ne].
  - rewrite Nat.eqb_refl. cbn [List.length]. now rewrite IH.
  - apply Nat.eqb_neq in ne. now rewrite ne.
Qed.

(** ** The listener registry *)

Lemma reg_get_mutate (event e : string) (f : list Handler -> list Handler)
  (r : Registry) :
  reg_get e (reg_mutate event f r)
  = if String.eqb e event then option_map f (reg_get e r) else reg_get e r.
Proof.
  induction r as [|[k l] r IH]; cbn [reg_mutate reg_get].
  - now destruct (String.eqb e event).
  - destruct (String.eqb_spec k event) as [->|ne]; cbn [reg_get].
    + destruct (String.eqb_spec event e) as [->|ne'].
      * now rewrite String.eqb_refl.
      * destruct (String.eqb_spec e event); [congruence | reflexivity].
    + destruct (String.eqb_spec k e) as [->|ne'].
      * destruct (String.eqb_spec e event); [congruence | reflexivity].
      * exact IH.
Qed.

Lemma reg_get_set_absent (event e : string) (l : list Handler) (r : Registry) :
  reg_get event r = None ->
  reg_get e (reg_set event l r)
  = if String.eqb e event then Some l else reg_get e r.
Proof.
  induction r as [|[k l'] r IH]; cbn [reg_set reg_get].
  - intros _. rewrite (String.eqb_sym event e). reflexivity.
  - destruct (String.eqb_spec k event) as [->|ne]; [discriminate|].
    intros H. cbn [reg_get]. rewrite (IH H).
    destruct (String.eqb_spec k e) as [->|ne'].
    + destruct (String.eqb_spec e event); [congruence | reflexivity].
    + reflexivity.
Qed.

Lemma registered_on (event e : string) (h : Handler) (m : Machine) :
  registered e (listeners (this (CrustoceanAgent.on event h m)))
  = if String.eqb e event
    then (registered e (listeners (this m)) ++ [h])%list
    else registered e (listeners (this m)).
Proof.
  unfold CrustoceanAgent.on, registered, reg_has.
  cbn [this on_socket update_agent listeners set_listeners set_socket].
  rewrite reg_get_mutate.
  destruct (reg_get event (listeners (this m))) as [l|] eqn:G.
  - destruct (String.eqb_spec e event) as [->|ne]; [|reflexivity].
    now rewrite G.
  - rewrite reg_get_set_absent by exact G.
    destruct (String.eqb_spec e event) as [->|ne]; [|reflexivity].
    now rewrite G.
Qed.

Lemma indexOf_splice (h : Handler) (l : list Handler) :
  match indexOf h l with
  | Some i =>
      exists pre post,
        l = (pre ++ h :: post)%list /\ ~ In h pre /\ List.length pre = i
        /\ splice1 i l = (pre ++ post)%list
  | None => ~ In h l
  end.
Proof.
  induction l as [|x l IH]; cbn [indexOf].
  - intros [].
  - destruct (Nat.eqb_spec x h) as [->|ne].
    + exists [], l. repeat split; auto.
    + destruct (indexOf h l) as [i|]; cbn [option_map].
      * destruct IH as (pre & post & E & N & L & HS).
        exists (x :: pre), post. split; [now rewrite E|].
        split; [intros [H|H]; [congruence | contradiction]|].
        split; [cbn [List.length]; now rewrite L|].
        unfold splice1 in *. cbn [firstn skipn app]. now rewrite <- HS.
      * intros [H|H]; [congruence | contradiction].
Qed.

Lemma first_occurrence_unique (h : Handler) (pre post pre' post' : list Handler) :
  (pre ++ h :: post = pre' ++ h :: post')%list ->
  ~ In h pre -> ~ In h pre' -> pre = pre' /\ post = post'.
Proof.
  revert pre'. induction pre as [|x pre IH]; intros [|y pre'] E N N'; cbn in E.
  - inversion E. auto.
  - inversion E. subst. exfalso. apply N'. now left.
  - inversion E. subst. exfalso. apply N. now left.
  - inversion E. subst. destruct (IH pre' H1) as [-> ->].
    + intros H. apply N. now right.
    + intros H. apply N'. now right.
    + auto.
Qed.

Lemma registered_off (event e : string) (h : Handler) (m : Machine) :
  registered e (listeners (this (CrustoceanAgent.off event h m)))
  = if String.eqb e event
    then match indexOf h (registered e (listeners (this m))) with
         | Some i => splice1 i (registered e (listeners (this m)))
         | None => registered e (listeners (this m))
         end
    else registered e (listeners (this m)).
Proof.
  unfold CrustoceanAgent.off, registered.
  cbn [this on_socket update_agent listeners set_listeners set_socket].
  destruct (String.eqb_spec e event) as [->|ne].
  - destruct (reg_get event (listeners (this m))) as [l|] eqn:G.
    + destruct (indexOf h l) as [i|].
      * rewrite reg_get_mutate, String.eqb_refl, G. reflexivity.
      * now rewrite G.
    + rewrite G. reflexivity.
  - destruct (reg_get event (listeners (this m))) as [l|]; [|reflexivity].
    destruct (indexOf h l); [|reflexivity].
    rewrite reg_get_mutate. apply String.eqb_neq in ne. now rewrite ne.
Qed.

Lemma occurrences_app (h : Handler) (a b : list Handler) :
  occurrences h (a ++ b) = occurrences h a + occurrences h b.
Proof. apply count_occ_app. Qed.

Lemma occurrences_self (h : Handler) : occurrences h [h] = 1.
Proof. unfold occurrences. cbn. destruct (Nat.eq_dec h h); congruence. Qed.

Lemma without_first_cons (h x : Handler) (l : list Handler) :
  without_first h (x :: l) = if Nat.eqb x h then l else x :: without_first h l.
Proof.
  unfold without_first. cbn [indexOf].
  destruct (Nat.eqb x h); [reflexivity|].
  destruct (indexOf h l); reflexivity.
Qed.

Lemma occurrences_without_first (h : Handler) (l : list Handler) :
  occurrences h (without_first h l) = pred (occurrences h l).
Proof.
  unfold occurrences.
  induction l as [|x l IH]; [reflexivity|].
  rewrite without_first_cons. cbn [count_occ].
  destruct (Nat.eqb_spec x h) as [->|ne].
  - destruct (Nat.eq_dec h h); [reflexivity | congruence].
  - cbn [count_occ]. destruct (Nat.eq_dec x h); [congruence | exact IH].
Qed.

Lemma user_fns_app (a b : list Callback) :
  user_fns (a ++ b) = (user_fns a ++ user_fns b)%list.
Proof.
  induction a as [|cb a IH]; cbn [app user_fns]; [reflexivity|].
  destruct (cb_fn cb); cbn [app]; now rewrite IH.
Qed.

Lemma listeners_of_added (event e : string) (cb : Callback) (so so' : Socket) :
  callbacks so' = (callbacks so ++ [(event, cb)])%list ->
  listeners_of e so'
  = if String.eqb event e then (listeners_of e so ++ [cb])%list
    else listeners_of e so.
Proof.
  intros E. unfold listeners_of. rewrite E, filter_app, map_app.
  cbn [filter fst]. destruct (String.eqb event e); cbn [map snd].
  - reflexivity.
  - now rewrite app_nil_r.
Qed.

Lemma attached_on_socket_on (event e : string) (fn : Closure) (m : Machine) :
  attached e (this (on_socket (sock_on event fn) m))
  = match socket (this m) with
    | Some _ =>
        if String.eqb event e
        then (attached e (this m)
              ++ match fn with UserFn h => [h] | _ => [] end)%list
        else attached e (this m)
    | None => []
    end.
Proof.
  unfold attached. cbn [on_socket update_agent this socket set_socket].
  destruct (socket (this m)) as [so|]; cbn [option_map]; [|reflexivity].
  rewrite (@listeners_of_added event e {| cb_fn := fn; cb_once := false |} so)
    by reflexivity.
  destruct (String.eqb event e); [|reflexivity].
  rewrite user_fns_app. cbn [user_fns cb_fn]. now destruct fn.
Qed.

Lemma attached_on (event e : string) (h : Handler) (m : Machine) :
  attached e (this (CrustoceanAgent.on event h m))
  = match socket (this m) with
    | Some _ =>
        if String.eqb event e then (attached e (this m) ++ [h])%list
        else attached e (this m)
    | None => []
    end.
Proof.
  unfold CrustoceanAgent.on. rewrite attached_on_socket_on. reflexivity.
Qed.

Lemma user_fns_off (event e : string) (h : Handler) (l : list (string * Callback)) :
  user_fns
    (map snd
       (filter (fun ec => String.eqb (fst ec) e)
          (remove_first
             (fun ec => String.eqb (fst ec) event
                        && Closure_eqb (cb_fn (snd ec)) (UserFn h)) l)))
  = if String.eqb event e
    then without_first h
           (user_fns (map snd (filter (fun ec => String.eqb (fst ec) e) l)))
    else user_fns (map snd (filter (fun ec => String.eqb (fst ec) e) l)).
Proof.
  destruct (String.eqb_spec event e) as [<-|ne].
  - induction l as [|[k cb] l IH]; cbn [remove_first filter map user_fns fst snd];
      [reflexivity|].
    destruct (String.eqb_spec k event) as [->|nk]; cbn [andb].
    + cbn [map snd user_fns].
      destruct (cb_fn cb) as [h'| | | |] eqn:F; cbn [Closure_eqb];
        try (cbn [filter fst]; rewrite String.eqb_refl; cbn [map snd user_fns];
             rewrite F; exact IH).
      rewrite without_first_cons.
      destruct (Nat.eqb_spec h' h) as [->|nh]; [reflexivity|].
      cbn [filter fst]. rewrite String.eqb_refl. cbn [map snd user_fns].
      rewrite F. now rewrite IH.
    + cbn [filter fst]. apply String.eqb_neq in nk. rewrite nk. exact IH.
  - induction l as [|[k cb] l IH]; cbn [remove_first filter map user_fns fst snd];
      [reflexivity|].
    destruct (String.eqb_spec k event) as [->|nk]; cbn [andb].
    + apply String.eqb_neq in ne. rewrite ne.
      destruct (Closure_eqb (cb_fn cb) (UserFn h)); [reflexivity|].
      cbn [filter fst]. rewrite ne. exact IH.
    + cbn [filter fst]. destruct (String.eqb k e); [|exact IH].
      cbn [map snd user_fns]. now rewrite IH.
Qed.

Lemma attached_off (event e : string) (h : Handler) (m : Machine) :
  attached e (this (CrustoceanAgent.off event h m))
  = if String.eqb event e then without_first h (attached e (this m))
    else attached e (this m).
Proof.
  unfold CrustoceanAgent.off, attached.
  cbn [on_socket update_agent this socket set_socket set_listeners].
  destruct (socket (this m)) as [so|]; cbn [option_map].
  - unfold listeners_of, sock_off. cbn [callbacks]. apply user_fns_off.
  - now destruct (String.eqb event e).
Qed.

Lemma socket_on (event : string) (h : Handler) (m : Machine) :
  socket (this m) <> None -> socket (this (CrustoceanAgent.on event h m)) <> None.
Proof.
  unfold CrustoceanAgent.on. cbn [on_socket update_agent this socket set_socket set_listeners].
  destruct (socket (this m)); cbn; congruence.
Qed.

(** ** off *)

(** C8. off(event, handler) leaves the lists of the other events alone and
    removes from the event's list only the first instance of the handler
    (nothing when it is not there); after on, on, off of the same handler one
    more registration of it remains than before, and on a live channel the
    handler is called once more per emission than before: exactly once when
    it was not registered before. *)
Theorem off_removes_first_instance (event : string) (h : Handler) (m : Machine) :
  let before := registered event (listeners (this m)) in
  let m' := CrustoceanAgent.off event h m in
  let m2 :=
    CrustoceanAgent.off event h
      (CrustoceanAgent.on event h (CrustoceanAgent.on event h m)) in
  (forall e, e <> event ->
     registered e (listeners (this m')) = registered e (listeners (this m)))
  /\ (~ In h before -> registered event (listeners (this m')) = before)
  /\ (forall pre post,
        before = (pre ++ h :: post)%list -> ~ In h pre ->
        registered event (listeners (this m')) = (pre ++ post)%list)
  /\ occurrences h (registered event (listeners (this m2)))
     = S (occurrences h before)
  /\ (forall e, socket (this m) <> None -> ev_name e = event ->
        calls_to h (added m2 (dispatch m2 e))
        = S (occurrences h (attached event (this m)))).
Proof.
  intros before m' m2. subst before m' m2.
  split; [|split; [|split; [|split]]].
  - intros e ne. rewrite registered_off.
    apply String.eqb_neq in ne. now rewrite ne.
  - intros N. rewrite registered_off, String.eqb_refl.
    pose proof (indexOf_splice h (registered event (listeners (this m)))) as I.
    destruct (indexOf h _); [|reflexivity].
    destruct I as (pre & post & E & _). exfalso. apply N. rewrite E.
    apply in_or_app. right. now left.
  - intros pre post E N. rewrite registered_off, String.eqb_refl.
    pose proof (indexOf_splice h (registered event (listeners (this m)))) as I.
    destruct (indexOf h _).
    + destruct I as (pre' & post' & E' & N' & _ & ->).
      rewrite E in E'. destruct (first_occurrence_unique _ _ _ _ _ E' N N').
      now subst.
    + exfalso. apply I. rewrite E. apply in_or_app. right. now left.
  - rewrite registered_off, String.eqb_refl.
    fold (without_first h
            (registered event
               (listeners (this (CrustoceanAgent.on event h
                                   (CrustoceanAgent.on event h m)))))).
    rewrite occurrences_without_first, !registered_on, String.eqb_refl.
    rewrite !occurrences_app, occurrences_self. lia.
  - intros e So <-.
    erewrite added_app by apply log_dispatch.
    rewrite calls_to_calls_for, attached_off, String.eqb_refl.
    rewrite occurrences_without_first, !attached_on.
    destruct (socket (this (CrustoceanAgent.on (ev_name e) h m))) eqn:S1.
    + destruct (socket (this m)) eqn:S0; [|congruence].
      rewrite String.eqb_refl, !occurrences_app, occurrences_self. lia.
    + exfalso. revert S1. now apply socket_on.
Qed.

Lemma getRecentMessages_limit_clamped_witness :
  truthy (token (this Sample.in_room)) = true
  /\ currentAgencyId (this Sample.in_room) = Some "r1"
  /\ exists rq,
       added Sample.in_room
         (fst (CrustoceanAgent.getRecentMessages Sample.world
                 {| limit := Some 500%Z; before := None; mentions := None |}
                 Sample.in_room))
       = [Http rq]
       /\ req_method rq = "GET"
       /\ req_url rq = "https://x/api/agencies/r1/messages"
       /\ hd_error (req_query rq) = Some ("limit", "100").
Proof.
  split; [reflexivity|]. split; [reflexivity|].
  apply (proj1 (proj2 (getRecentMessages_limit_clamped Sample.world
                  {| limit := Some 500%Z; before := None; mentions := None |}
                  Sample.in_room)) "r1").
  - reflexivity.
  - reflexivity.
  - discriminate.
Defined.

Lemma off_removes_first_instance_witness :
  socket (this Sample.in_room) <> None
  /\ calls_to 7
       (added
          (CrustoceanAgent.off "message" 7
             (CrustoceanAgent.on "message" 7
                (CrustoceanAgent.on "message" 7 Sample.in_room)))
          (dispatch
             (CrustoceanAgent.off "message" 7
                (CrustoceanAgent.on "message" 7
                   (CrustoceanAgent.on "message" 7 Sample.in_room)))
             (Sample.message_event "hi")))
     = 1.
Proof.
  split; [discriminate|].
  apply (proj2 (proj2 (proj2 (proj2
           (off_removes_first_instance "message" 7 Sample.in_room))))
           (Sample.message_event "hi")).
  - discriminate.
  - reflexivity.
Defined.

(** ** The monad *)

Lemma bind_assoc {A B C} (c : M A) (k : A -> M B) (k' : B -> M C) (m : Machine) :
  bind (bind c k) k' m = bind c (fun a => bind (k a) k') m.
Proof.
  unfold bind. destruct (c m) as [m1 [a| |]]; reflexivity.
Qed.

Lemma bind_returned {A B} (c : M A) (k : A -> M B) (m m1 : Machine) (a : A) :
  c m = (m1, Returned a) -> bind c k m = k a m1.
Proof. intros E. unfold bind. now rewrite E. Qed.

Lemma bind_returned_inv {A B} (c : M A) (k : A -> M B) (m m2 : Machine) (b : B) :
  bind c k m = (m2, Returned b) ->
  exists m1 a, c m = (m1, Returned a) /\ k a m1 = (m2, Returned b).
Proof.
  unfold bind. destruct (c m) as [m1 [a| |]]; try discriminate.
  intros E. now exists m1, a.
Qed.

(** ** What the log gains *)

Lemma quiet_refl (P : Effect -> bool) (m : Machine) : quiet P m m.
Proof. exists []. now rewrite app_nil_r. Qed.

Lemma quiet_trans (P : Effect -> bool) (m1 m2 m3 : Machine) :
  quiet P m1 m2 -> quiet P m2 m3 -> quiet P m1 m3.
Proof.
  intros (l1 & E1 & F1) (l2 & E2 & F2). exists (l1 ++ l2)%list. split.
  - now rewrite E2, E1, app_assoc.
  - now rewrite forallb_app, F1, F2.
Qed.

Lemma quiet_same_log (P : Effect -> bool) (m m' : Machine) :
  log m' = log m -> quiet P m m'.
Proof. intros E. exists []. now rewrite app_nil_r. Qed.

Lemma quiet_record (P : Effect -> bool) (e : Effect) (m : Machine) :
  P e = false -> quiet P m (record e m).
Proof. intros H. exists [e]. split; [reflexivity|]. cbn. now rewrite H. Qed.

Lemma quiet_added (P : Effect -> bool) (m m' : Machine) :
  quiet P m m' -> filter P (added m m') = [].
Proof.
  intros (l & E & F). rewrite (added_app _ _ _ E). clear E.
  induction l as [|e l IH]; [reflexivity|].
  cbn in F |- *. apply andb_true_iff in F. destruct F as [F1 F2].
  apply negb_true_iff in F1. rewrite F1. now apply IH.
Qed.

Lemma quiet_bind (P : Effect -> bool) {A B} (c : M A) (k : A -> M B) :
  quiet_op P c -> (forall a, quiet_op P (k a)) -> quiet_op P (bind c k).
Proof.
  intros Hc Hk m. unfold bind. specialize (Hc m).
  destruct (c m) as [m1 [a| |]]; cbn [fst] in *; auto.
  eapply quiet_trans; [exact Hc | apply Hk].
Qed.

Lemma quiet_ret (P : Effect -> bool) {A} (a : A) : quiet_op P (ret a).
Proof. intros m. apply quiet_refl. Qed.

Section Quiet.

Variable P : Effect -> bool.
Hypothesis P_http : forall r, P (Http r) = false.
Hypothesis P_open : forall sid url t, P (ChannelOpen sid url t) = false.
Hypothesis P_call : forall h ev d, P (HandlerCall h ev d) = false.

Variable w : World.

Lemma quiet_dispatch (m : Machine) (e : ChanEvent) : quiet P m (dispatch m e).
Proof.
  exists (calls_for (attached (ev_name e) (this m)) e).
  split; [apply log_dispatch|].
  unfold calls_for. induction (attached (ev_name e) (this m)) as [|h l IH];
    [reflexivity|].
  cbn. now rewrite P_call, IH.
Qed.

Lemma quiet_deliver (events : list ChanEvent) (m : Machine) :
  quiet P m (deliver events m).
Proof.
  revert m. induction events as [|e es IH]; intros m; cbn.
  - apply quiet_refl.
  - eapply quiet_trans; [apply quiet_dispatch | apply IH].
Qed.

Lemma quiet_connect : quiet_op P (CrustoceanAgent.connect w).
Proof.
  intros m. unfold CrustoceanAgent.connect.
  destruct (auth_endpoint w _); cbn [fst];
    (eapply quiet_trans; [apply quiet_record, P_http|]);
    apply quiet_same_log; reflexivity.
Qed.

Lemma quiet_ensure_token : quiet_op P (CrustoceanAgent.ensure_token w).
Proof.
  intros m. unfold CrustoceanAgent.ensure_token.
  destruct (truthy _); [apply quiet_refl | apply quiet_connect].
Qed.

Lemma quiet_connectSocket : quiet_op P (CrustoceanAgent.connectSocket w).
Proof.
  unfold CrustoceanAgent.connectSocket.
  apply quiet_bind; [apply quiet_ensure_token|]. intros _ m. cbn [fst].
  assert (Q : quiet P m (CrustoceanAgent.open_channel m)).
  { exists [ChannelOpen (nextId m) (apiUrl (this m)) (token (this m))].
    split; [reflexivity|]. cbn. now rewrite P_open. }
  destruct (channel_open w _).
  - eapply quiet_trans; [exact Q|].
    eapply quiet_trans; [|apply quiet_dispatch].
    apply quiet_same_log. reflexivity.
  - eapply quiet_trans; [exact Q | apply quiet_dispatch].
  - exact Q.
Qed.

Lemma quiet_getAgencies : quiet_op P (CrustoceanAgent.getAgencies w).
Proof.
  unfold CrustoceanAgent.getAgencies.
  apply quiet_bind; [apply quiet_ensure_token|]. intros _ m.
  destruct (agencies_endpoint w _); cbn [fst]; apply quiet_record, P_http.
Qed.

Lemma quiet_ensure_socket : quiet_op P (CrustoceanAgent.ensure_socket w).
Proof.
  intros m. unfold CrustoceanAgent.ensure_socket.
  destruct (socket_connected _); [apply quiet_refl|].
  apply quiet_bind; [apply quiet_connectSocket | intros; apply quiet_ret].
Qed.

Lemma quiet_handshake (a : Agency.t) :
  (forall sid o, P (ChannelEmit sid o) = false) ->
  quiet_op P (CrustoceanAgent.handshake w a).
Proof.
  intros P_emit m. unfold CrustoceanAgent.handshake, CrustoceanAgent.request_join.
  destruct (socket (this m)) as [so|]; cbn [fst]; [|apply quiet_refl].
  eapply quiet_trans; [|apply quiet_deliver].
  exists [ChannelEmit (sock_id so) (JoinAgency (Agency.id a))].
  split; [reflexivity|]. cbn. now rewrite P_emit.
Qed.

Lemma quiet_join (x : string) :
  (forall sid o, P (ChannelEmit sid o) = false) ->
  quiet_op P (CrustoceanAgent.join w x).
Proof.
  intros P_emit. unfold CrustoceanAgent.join.
  apply quiet_bind; [apply quiet_ensure_socket|]. intros _.
  apply quiet_bind; [apply quiet_getAgencies|]. intros dir.
  destruct (find _ dir); [now apply quiet_handshake | intros m; apply quiet_refl].
Qed.

End Quiet.

(** ** What incoming events and REST calls leave alone *)

Lemma frame_on_socket (f : Socket -> Socket) (m : Machine) :
  (forall so, sock_id (f so) = sock_id so /\ connected (f so) = connected so) ->
  frame (on_socket f m) = frame m.
Proof.
  intros H. unfold frame, channel_of.
  cbn [on_socket update_agent this set_socket apiUrl agentToken token user
       listeners socket nextId].
  destruct (socket (this m)) as [so|]; cbn [option_map]; [|reflexivity].
  destruct (H so) as [-> ->]. reflexivity.
Qed.

Lemma frame_settle (p : nat) (s : Settlement) (m : Machine) :
  frame (settle p s m) = frame m.
Proof. reflexivity. Qed.

Lemma frame_record (e : Effect) (m : Machine) : frame (record e m) = frame m.
Proof. reflexivity. Qed.

Lemma frame_set_currentAgencyId (c : option string) (m : Machine) :
  frame (update_agent (set_currentAgencyId c) m) = frame m.
Proof. reflexivity. Qed.

Lemma frame_run_closure (event : string) (data : Payload) (fn : Closure)
  (m : Machine) :
  frame (run_closure event data fn m) = frame m.
Proof.
  unfold run_closure. destruct fn.
  - apply frame_record.
  - destruct (socket (this m)); apply frame_settle.
  - apply frame_settle.
  - rewrite frame_settle, frame_on_socket by (intros; split; reflexivity).
    apply frame_set_currentAgencyId.
  - rewrite frame_settle. apply frame_on_socket. intros; split; reflexivity.
Qed.

Lemma frame_invoke (event : string) (data : Payload) (m : Machine) (cb : Callback) :
  frame (invoke event data m cb) = frame m.
Proof.
  unfold invoke. rewrite frame_run_closure.
  destruct (cb_once cb); [|reflexivity].
  apply frame_on_socket. intros; split; reflexivity.
Qed.

Lemma frame_dispatch (m : Machine) (e : ChanEvent) : frame (dispatch m e) = frame m.
Proof.
  unfold dispatch. destruct (socket (this m)) as [so|]; [|reflexivity].
  generalize (listeners_of (ev_name e) so). intros l. revert m.
  induction l as [|cb l IH]; intros m; cbn [fold_left]; [reflexivity|].
  now rewrite IH, frame_invoke.
Qed.

Lemma frame_deliver (events : list ChanEvent) (m : Machine) :
  frame (deliver events m) = frame m.
Proof.
  revert m. induction events as [|e es IH]; intros m; cbn; [reflexivity|].
  now rewrite IH, frame_dispatch.
Qed.

Lemma core_connect (w : World) (m : Machine) :
  core (fst (CrustoceanAgent.connect w m)) = core m.
Proof.
  unfold CrustoceanAgent.connect. destruct (auth_endpoint w _); reflexivity.
Qed.

Lemma core_ensure_token (w : World) (m : Machine) :
  core (fst (CrustoceanAgent.ensure_token w m)) = core m.
Proof.
  unfold CrustoceanAgent.ensure_token.
  destruct (truthy _); [reflexivity | apply core_connect].
Qed.

Lemma core_getAgencies (w : World) (m : Machine) :
  core (fst (CrustoceanAgent.getAgencies w m)) = core m.
Proof.
  unfold CrustoceanAgent.getAgencies, bind.
  pose proof (core_ensure_token w m) as E.
  destruct (CrustoceanAgent.ensure_token w m) as [m1 [[]| |]]; cbn [fst] in *;
    try exact E.
  destruct (agencies_endpoint w _); cbn [fst]; exact E.
Qed.

Lemma frame_channel (m m' : Machine) :
  frame m = frame m' -> channel_of m = channel_of m'.
Proof. unfold frame. intros H. now inversion H. Qed.

Lemma channel_socket (m : Machine) :
  channel_of m <> None <-> socket (this m) <> None.
Proof. unfold channel_of. destruct (socket (this m)); cbn; split; congruence. Qed.

Lemma core_socket (m m' : Machine) :
  core m = core m' -> socket (this m) = socket (this m').
Proof. unfold core. intros H. now inversion H. Qed.

Lemma connectSocket_socket (w : World) (m m' : Machine) (v : Value) :
  CrustoceanAgent.connectSocket w m = (m', Returned v) ->
  socket (this m') <> None.
Proof.
  unfold CrustoceanAgent.connectSocket, bind.
  destruct (CrustoceanAgent.ensure_token w m) as [m0 [[]| |]]; try discriminate.
  intros E. inversion E as [[E1 E2]]. clear E E2.
  apply channel_socket.
  destruct (channel_open w _);
    rewrite ?(frame_channel _ _ (frame_dispatch _ _)); discriminate.
Qed.

Lemma ensure_socket_socket (w : World) (m m' : Machine) :
  CrustoceanAgent.ensure_socket w m = (m', Returned tt) ->
  socket (this m') <> None.
Proof.
  unfold CrustoceanAgent.ensure_socket, socket_connected.
  destruct (socket (this m)) as [so|] eqn:S.
  - destruct (connected so).
    + intros E. inversion E. subst. congruence.
    + intros E. apply bind_returned_inv in E. destruct E as (m1 & v & E & R).
      inversion R. subst. eapply connectSocket_socket, E.
  - intros E. apply bind_returned_inv in E. destruct E as (m1 & v & E & R).
    inversion R. subst. eapply connectSocket_socket, E.
Qed.

(** ** join: resolving the identifier *)

Lemma names_exact (x : string) (a : Agency.t) :
  CrustoceanAgent.names x a = true <-> exact_match x a.
Proof.
  unfold CrustoceanAgent.names, exact_match.
  rewrite orb_true_iff, String.eqb_eq.
  destruct (Agency.slug a) as [s|].
  - rewrite String.eqb_eq. split; (intros [H|H]; [now left | right; congruence]).
  - split; (intros [H|H]; [now left | discriminate]).
Qed.

Lemma find_first_match (x : string) (dir : list Agency.t) (a : Agency.t) :
  find (CrustoceanAgent.names x) dir = Some a <-> first_match x dir a.
Proof.
  unfold first_match. induction dir as [|b dir IH]; cbn [find].
  - split; [discriminate|]. intros (pre & post & E & _). destruct pre; discriminate.
  - destruct (CrustoceanAgent.names x b) eqn:N.
    + split.
      * intros E. inversion E. subst. exists [], dir.
        split; [reflexivity|]. split; [now apply names_exact | intros ? []].
      * intros (pre & post & E & M & F). destruct pre as [|c pre].
        -- now inversion E.
        -- inversion E. subst. exfalso. eapply F; [left; reflexivity|].
           now apply names_exact.
    + rewrite IH. split.
      * intros (pre & post & E & M & F). exists (b :: pre), post.
        split; [now rewrite E|]. split; [exact M|].
        intros c [<-|I]; [|now apply F].
        intros X. apply names_exact in X. congruence.
      * intros (pre & post & E & M & F). destruct pre as [|c pre].
        -- inversion E. subst. apply names_exact in M. congruence.
        -- inversion E. subst. exists pre, post.
           split; [reflexivity|]. split; [exact M|].
           intros d I. apply F. now right.
Qed.

Lemma find_no_match (x : string) (dir : list Agency.t) :
  find (CrustoceanAgent.names x) dir = None <->
  forall a, In a dir -> ~ exact_match x a.
Proof.
  split.
  - intros H a I M. apply names_exact in M.
    rewrite (find_none _ _ H a I) in M. discriminate.
  - intros H. destruct (find _ dir) as [a|] eqn:F; [|reflexivity].
    apply find_some in F. destruct F as [I N]. apply names_exact in N.
    exfalso. now apply (H a).
Qed.

Lemma is_emit_quiet_http (r : Request) : is_emit (Http r) = false.
Proof. reflexivity. Qed.
Lemma is_emit_quiet_open sid url t : is_emit (ChannelOpen sid url t) = false.
Proof. reflexivity. Qed.
Lemma is_emit_quiet_call h ev d : is_emit (HandlerCall h ev d) = false.
Proof. reflexivity. Qed.

(** C2. join looks the identifier up by exact equality with the id or the
    slug and takes the first record that matches; when no record matches it
    throws "Agency not found" in the state the lookup left, so that nothing
    was emitted over the channel; when one matches, the first effect after
    the lookup is the join request with the id of that record, and it is the
    only emission. *)
Theorem join_resolves_first_exact_match
  (w : World) (x : string) (m m1 : Machine) (dir : list Agency.t) :
  bind (CrustoceanAgent.ensure_socket w)
       (fun _ => CrustoceanAgent.getAgencies w) m = (m1, Returned dir) ->
  filter is_emit (added m m1) = []
  /\ (forall a, find (CrustoceanAgent.names x) dir = Some a <-> first_match x dir a)
  /\ ((forall a, In a dir -> ~ exact_match x a) ->
      CrustoceanAgent.join w x m
      = (m1, Thrown (CrustoceanAgent.agency_not_found x)))
  /\ (forall a, first_match x dir a ->
      exists sid rest,
        added m1 (fst (CrustoceanAgent.join w x m))
        = ChannelEmit sid (JoinAgency (Agency.id a)) :: rest
        /\ filter is_emit rest = []).
Proof.
  intros E.
  assert (J : forall k : list Agency.t -> M Value,
             bind (CrustoceanAgent.ensure_socket w)
               (fun _ => bind (CrustoceanAgent.getAgencies w) k) m = k dir m1).
  { intros k. rewrite <- bind_assoc. now apply bind_returned. }
  split; [|split; [|split]].
  - apply quiet_added.
    pose proof (quiet_bind is_emit _ _
                  (quiet_ensure_socket is_emit is_emit_quiet_http
                     is_emit_quiet_open is_emit_quiet_call w)
                  (fun _ => quiet_getAgencies is_emit is_emit_quiet_http w) m) as Q.
    now rewrite E in Q.
  - intros a. apply find_first_match.
  - intros N. unfold CrustoceanAgent.join. rewrite J.
    apply find_no_match in N. now rewrite N.
  - intros a F. unfold CrustoceanAgent.join. rewrite J.
    apply find_first_match in F. rewrite F.
    apply bind_returned_inv in E. destruct E as (m0 & [] & E0 & E1).
    apply ensure_socket_socket in E0.
    pose proof (core_socket _ _ (core_getAgencies w m0)) as S.
    rewrite E1 in S. cbn [fst] in S.
    unfold CrustoceanAgent.handshake, CrustoceanAgent.request_join.
    destruct (socket (this m1)) as [so|]; [|congruence].
    cbn [fst].
    match goal with
    | |- context [deliver ?f ?m4] =>
        destruct (quiet_deliver is_emit is_emit_quiet_call f m4) as (l & L & Q)
    end.
    exists (sock_id so), l. split.
    + apply added_app. rewrite L. cbn [log record on_socket update_agent bump].
      now rewrite <- app_assoc.
    + clear L. induction l as [|e l IH]; [reflexivity|].
      cbn in Q |- *. apply andb_true_iff in Q. destruct Q as [Q1 Q2].
      apply negb_true_iff in Q1. rewrite Q1. now apply IH.
Qed.

Lemma join_resolves_first_exact_match_witness :
  bind (CrustoceanAgent.ensure_socket Sample.world)
       (fun _ => CrustoceanAgent.getAgencies Sample.world) Sample.in_room
  = (fst (CrustoceanAgent.getAgencies Sample.world Sample.in_room),
     Returned Sample.directory)
  /\ CrustoceanAgent.join Sample.world "nope" Sample.in_room
     = (fst (CrustoceanAgent.getAgencies Sample.world Sample.in_room),
        Thrown "Agency not found: nope").
Proof.
  split; [reflexivity|].
  apply (proj1 (proj2 (proj2
           (join_resolves_first_exact_match Sample.world "nope" Sample.in_room
              (fst (CrustoceanAgent.getAgencies Sample.world Sample.in_room))
              Sample.directory eq_refl)))).
  intros a [<-|[<-|[<-|[]]]] [H|H]; discriminate.
Defined.

(** ** The invariant *)

Lemma remove_first_incl {A} (q : A -> bool) (l : list A) :
  incl (remove_first q l) l.
Proof.
  induction l as [|x l IH]; cbn [remove_first]; [apply incl_refl|].
  destruct (q x).
  - apply incl_tl, incl_refl.
  - intros y [<-|I]; [now left | right; now apply IH].
Qed.

Lemma callbacks_on_socket (f : Socket -> Socket) (m : Machine) :
  channel_callbacks (this (on_socket f m))
  = match socket (this m) with
    | Some so => callbacks (f so)
    | None => []
    end.
Proof.
  unfold channel_callbacks. cbn [on_socket update_agent this socket set_socket].
  now destruct (socket (this m)).
Qed.

Lemma callbacks_off (event : string) (fn : Closure) (m : Machine) :
  incl (channel_callbacks (this (on_socket (sock_off event fn) m)))
       (channel_callbacks (this m)).
Proof.
  rewrite callbacks_on_socket. unfold channel_callbacks.
  destruct (socket (this m)); [apply remove_first_incl | apply incl_refl].
Qed.

Lemma callbacks_off_wrapper (event : string) (cb : Callback) (m : Machine) :
  incl (channel_callbacks (this (on_socket (sock_off_wrapper event cb) m)))
       (channel_callbacks (this m)).
Proof.
  rewrite callbacks_on_socket. unfold channel_callbacks.
  destruct (socket (this m)); [apply remove_first_incl | apply incl_refl].
Qed.

Lemma callbacks_added (event : string) (cb : Callback) (m : Machine)
  (f : Socket -> Socket) :
  (forall so, callbacks (f so) = (callbacks so ++ [(event, cb)])%list) ->
  forall ec, In ec (channel_callbacks (this (on_socket f m))) ->
             In ec (channel_callbacks (this m)) \/ ec = (event, cb).
Proof.
  intros F ec. rewrite callbacks_on_socket. unfold channel_callbacks.
  destruct (socket (this m)) as [so|]; [|intros []].
  rewrite F. intros I. apply in_app_or in I.
  destruct I as [I|[<-|[]]]; auto.
Qed.

(** What one callback of a snapshot can do to the session. *)
Lemma invoke_effects (event : string) (data : Payload) (m : Machine) (cb : Callback) :
  let m' := invoke event data m cb in
  incl (channel_callbacks (this m')) (channel_callbacks (this m))
  /\ (forall p s, In (p, s) (settle_calls m') ->
        In (p, s) (settle_calls m) \/ closure_id (cb_fn cb) = Some p)
  /\ (currentAgencyId (this m') = currentAgencyId (this m)
      \/ exists p, cb_fn cb = OnJoined p).
Proof.
  cbn zeta. unfold invoke.
  set (m1 := if cb_once cb then on_socket (sock_off_wrapper event cb) m else m).
  assert (I1 : incl (channel_callbacks (this m1)) (channel_callbacks (this m))).
  { subst m1. destruct (cb_once cb); [apply callbacks_off_wrapper | apply incl_refl]. }
  assert (S1 : settle_calls m1 = settle_calls m)
    by (subst m1; now destruct (cb_once cb)).
  assert (C1 : currentAgencyId (this m1) = currentAgencyId (this m))
    by (subst m1; now destruct (cb_once cb)).
  clearbody m1. unfold run_closure. destruct (cb_fn cb) as [h|p|p|p|p].
  - cbn [record this settle_calls]. rewrite S1. auto.
  - destruct (socket (this m1));
      cbn [settle this settle_calls]; rewrite S1;
      (split; [exact I1|]; split; [|now left]);
      intros q st I; apply in_app_or in I;
      (destruct I as [I|[E|[]]]; [now left | right; now inversion E]).
  - cbn [settle this settle_calls]. rewrite S1.
    split; [exact I1|]. split; [|now left].
    intros q st I. apply in_app_or in I.
    destruct I as [I|[E|[]]]; [now left | right; now inversion E].
  - cbn [settle this settle_calls]. split; [|split].
    + eapply incl_tran; [apply callbacks_off|]. exact I1.
    + cbn [on_socket update_agent settle_calls]. rewrite S1.
      intros q st I. apply in_app_or in I.
      destruct I as [I|[E|[]]]; [now left | right; now inversion E].
    + right. now exists p.
  - cbn [settle this settle_calls]. split; [|split].
    + eapply incl_tran; [apply callbacks_off|]. exact I1.
    + cbn [on_socket update_agent settle_calls]. rewrite S1.
      intros q st I. apply in_app_or in I.
      destruct I as [I|[E|[]]]; [now left | right; now inversion E].
    + now left.
Qed.

Lemma fold_invoke_effects (event : string) (data : Payload) (l : list Callback) :
  forall m,
    let m' := fold_left (invoke event data) l m in
    incl (channel_callbacks (this m')) (channel_callbacks (this m))
    /\ (forall p s, In (p, s) (settle_calls m') ->
          In (p, s) (settle_calls m)
          \/ exists cb, In cb l /\ closure_id (cb_fn cb) = Some p)
    /\ (currentAgencyId (this m') = currentAgencyId (this m)
        \/ exists cb p, In cb l /\ cb_fn cb = OnJoined p).
Proof.
  induction l as [|cb l IH]; intros m; cbn [fold_left].
  - split; [apply incl_refl|]. split; auto.
  - destruct (IH (invoke event data m cb)) as (I & S & C).
    destruct (invoke_effects event data m cb) as (I0 & S0 & C0).
    split; [|split].
    + eapply incl_tran; eassumption.
    + intros p s H. destruct (S p s H) as [H1|(cb' & In' & E)].
      * destruct (S0 p s H1) as [H2|E]; [now left|].
        right. exists cb. split; [now left | exact E].
      * right. exists cb'. split; [now right | exact E].
    + destruct C as [C|(cb' & p & In' & E)].
      * destruct C0 as [C0|(p & E)].
        -- left. congruence.
        -- right. exists cb, p. split; [now left | exact E].
      * right. exists cb', p. split; [now right | exact E].
Qed.

Lemma listeners_of_in (event : string) (so : Socket) (cb : Callback) :
  In cb (listeners_of event so) -> In (event, cb) (callbacks so).
Proof.
  unfold listeners_of. intros I. apply in_map_iff in I.
  destruct I as ([ev cb'] & E & I). cbn in E. subst cb'.
  apply filter_In in I. destruct I as [I N]. cbn in N.
  apply String.eqb_eq in N. now subst.
Qed.

(** What an incoming event can do to the session: callbacks only go away,
    promises are settled only by closures that were listening, and the
    current room changes only when a join was listening. *)
Lemma dispatch_effects (m : Machine) (e : ChanEvent) :
  let m' := dispatch m e in
  incl (channel_callbacks (this m')) (channel_callbacks (this m))
  /\ (forall p s, In (p, s) (settle_calls m') ->
        In (p, s) (settle_calls m)
        \/ exists ev cb, In (ev, cb) (channel_callbacks (this m))
                         /\ closure_id (cb_fn cb) = Some p)
  /\ (currentAgencyId (this m') = currentAgencyId (this m)
      \/ exists p, listening (OnJoined p) (this m)).
Proof.
  cbn zeta. unfold dispatch.
  destruct (socket (this m)) as [so|] eqn:So.
  - destruct (fold_invoke_effects (ev_name e) (ev_data e)
                (listeners_of (ev_name e) so) m) as (I & S & C).
    assert (X : forall cb, In cb (listeners_of (ev_name e) so) ->
                           In (ev_name e, cb) (channel_callbacks (this m))).
    { intros cb H. unfold channel_callbacks. rewrite So.
      now apply listeners_of_in. }
    split; [exact I|]. split.
    + intros p s H. destruct (S p s H) as [H1|(cb & In' & E)]; [now left|].
      right. exists (ev_name e), cb. split; [now apply X | exact E].
    + destruct C as [C|(cb & p & In' & E)]; [now left|].
      right. exists p, (ev_name e), cb. split; [now apply X | exact E].
  - split; [apply incl_refl|]. split; auto.
Qed.

(** A way to re-establish the invariant after a step. *)
Lemma well_formed_step (m m' : Machine) :
  well_formed m ->
  nextId m <= nextId m' ->
  (token (this m') = None -> token (this m) = None) ->
  distinct_keys (listeners (this m')) ->
  (forall ev cb, In (ev, cb) (channel_callbacks (this m')) ->
     In (ev, cb) (channel_callbacks (this m))
     \/ ((forall p, closure_id (cb_fn cb) = Some p -> p < nextId m')
         /\ (forall h, cb_fn cb = UserFn h -> cb_once cb = false)
         /\ (forall p, cb_fn cb = OnJoined p -> token (this m') <> None))) ->
  (forall p s, In (p, s) (settle_calls m') -> p < nextId m') ->
  (token (this m') = None -> currentAgencyId (this m') = None) ->
  well_formed m'.
Proof.
  intros [[A1 A2] K U C] N T K' Cb St Cu. split.
  - split; [|exact St]. intros ev cb p I E.
    destruct (Cb ev cb I) as [Old|(New & _)].
    + specialize (A1 ev cb p Old E). lia.
    + now apply New.
  - exact K'.
  - intros ev cb h I E. destruct (Cb ev cb I) as [Old|(_ & New & _)].
    + now apply (U ev cb h).
    + now apply (New h).
  - intros Tn. split; [now apply Cu|].
    intros p (ev & cb & I & E).
    destruct (Cb ev cb I) as [Old|(_ & _ & New)].
    + destruct (C (T Tn)) as [_ NoJ]. apply (NoJ p). now exists ev, cb.
    + now apply (New p E).
Qed.

Lemma well_formed_shape (m m' : Machine) :
  shape m = shape m' -> well_formed m -> well_formed m'.
Proof.
  unfold shape. intros E [[A1 A2] K U C]. inversion E as [[E1 E2 E3 E4 E5 E6]].
  split; unfold allocated, users_plain, credential_first, listening;
    rewrite <- ?E1, <- ?E2, <- ?E3, <- ?E4, <- ?E5, <- ?E6; auto.
Qed.

Lemma frame_parts (m m' : Machine) :
  frame m = frame m' ->
  token (this m) = token (this m') /\ listeners (this m) = listeners (this m')
  /\ nextId m = nextId m' /\ channel_of m = channel_of m'.
Proof. unfold frame. intros H. inversion H. auto. Qed.

Lemma well_formed_dispatch (m : Machine) (e : ChanEvent) :
  well_formed m -> well_formed (dispatch m e).
Proof.
  intros W. destruct (frame_parts _ _ (frame_dispatch m e)) as (T & L & N & _).
  destruct (dispatch_effects m e) as (I & S & C).
  apply (well_formed_step m); auto.
  - lia.
  - congruence.
  - rewrite L. apply W.
  - intros p s H. rewrite N. destruct (S p s H) as [H1|(ev & cb & H1 & E)].
    + now apply (proj2 (wf_allocated W) p s).
    + now apply (proj1 (wf_allocated W) ev cb p).
  - intros Tn. rewrite T in Tn. destruct (wf_credential W Tn) as [Cn NoJ].
    destruct C as [C|(p & J)]; [congruence|]. now apply NoJ in J.
Qed.

Lemma well_formed_deliver (events : list ChanEvent) (m : Machine) :
  well_formed m -> well_formed (deliver events m).
Proof.
  revert m. induction events as [|e es IH]; intros m W; cbn; [exact W|].
  now apply IH, well_formed_dispatch.
Qed.

Lemma well_formed_record (e : Effect) (m : Machine) :
  well_formed m -> well_formed (record e m).
Proof. apply well_formed_shape. reflexivity. Qed.

Lemma well_formed_set_connected (b : bool) (m : Machine) :
  well_formed m -> well_formed (on_socket (set_connected b) m).
Proof.
  apply well_formed_shape. unfold shape. rewrite callbacks_on_socket.
  unfold channel_callbacks. now destruct (socket (this m)).
Qed.

Lemma keeps_bind {A B} (c : M A) (k : A -> M B) :
  keeps c ->
  (forall a m m1, well_formed m1 -> c m = (m1, Returned a) ->
                  well_formed (fst (k a m1))) ->
  keeps (bind c k).
Proof.
  intros Hc Hk m W. unfold bind. specialize (Hc m W).
  destruct (c m) as [m1 [a| |]] eqn:E; cbn [fst] in *; auto.
  now apply (Hk a m m1).
Qed.

Lemma well_formed_open_channel (m : Machine) :
  well_formed m -> well_formed (CrustoceanAgent.open_channel m).
Proof.
  intros W. apply (well_formed_step m _ W).
  - cbn. lia.
  - auto.
  - apply W.
  - intros ev cb I. right. cbn in I.
    destruct I as [E|[E|[]]]; inversion E; subst; cbn;
      (split; [intros p E'; inversion E'; lia|]);
      split; discriminate.
  - intros p s I. cbn in I |- *.
    pose proof (proj2 (wf_allocated W) p s I). lia.
  - intros T. cbn in T |- *. now apply (wf_credential W).
Qed.

Lemma well_formed_request_join (a : Agency.t) (so : Socket) (m : Machine) :
  well_formed m -> token (this m) <> None -> socket (this m) = Some so ->
  well_formed (CrustoceanAgent.request_join a so m).
Proof.
  intros W T So. apply (well_formed_step m _ W).
  - cbn. lia.
  - auto.
  - apply W.
  - intros ev cb I. unfold channel_callbacks in *. cbn in I. rewrite So in *.
    cbn in I. rewrite <- app_assoc in I. apply in_app_or in I.
    destruct I as [I|I]; [now left|]. right. cbn in I.
    destruct I as [E|[E|[]]]; inversion E; subst; cbn [cb_fn cb_once closure_id];
      (split; [intros p E'; inversion E'; cbn; lia|]);
      (split; [discriminate|]); intros; cbn; rewrite ?So; exact T.
  - intros p s I. cbn in I |- *.
    pose proof (proj2 (wf_allocated W) p s I). lia.
  - cbn. intros Tn. congruence.
Qed.

Section Keeps.

Variable w : World.

Lemma keeps_connect : keeps (CrustoceanAgent.connect w).
Proof.
  intros m W. unfold CrustoceanAgent.connect.
  destruct (auth_endpoint w _) as [tok u|st err]; cbn [fst].
  - apply (well_formed_step m _ W); cbn; auto; try apply W; try discriminate.
  - now apply well_formed_record.
Qed.

Lemma keeps_ensure_token : keeps (CrustoceanAgent.ensure_token w).
Proof.
  intros m W. unfold CrustoceanAgent.ensure_token.
  destruct (truthy _); [exact W | now apply keeps_connect].
Qed.

Lemma token_ensure_token (m m1 : Machine) :
  CrustoceanAgent.ensure_token w m = (m1, Returned tt) ->
  token (this m1) <> None.
Proof.
  unfold CrustoceanAgent.ensure_token, CrustoceanAgent.connect.
  destruct (token (this m)) as [t|] eqn:T; cbn [truthy].
  - destruct (negb (is_empty t)).
    + intros E. inversion E. subst. congruence.
    + destruct (auth_endpoint w _); intros E; inversion E. cbn. discriminate.
  - destruct (auth_endpoint w _); intros E; inversion E. cbn. discriminate.
Qed.

Lemma token_getAgencies (m m1 : Machine) (dir : list Agency.t) :
  CrustoceanAgent.getAgencies w m = (m1, Returned dir) ->
  token (this m1) <> None.
Proof.
  unfold CrustoceanAgent.getAgencies. intros E.
  apply bind_returned_inv in E. destruct E as (m0 & [] & E0 & E1).
  apply token_ensure_token in E0.
  destruct (agencies_endpoint w _); inversion E1. exact E0.
Qed.

Lemma keeps_getAgencies : keeps (CrustoceanAgent.getAgencies w).
Proof.
  unfold CrustoceanAgent.getAgencies.
  apply keeps_bind; [apply keeps_ensure_token|]. intros _ m m1 W _.
  destruct (agencies_endpoint w _); cbn [fst]; now apply well_formed_record.
Qed.

Lemma keeps_connectSocket : keeps (CrustoceanAgent.connectSocket w).
Proof.
  unfold CrustoceanAgent.connectSocket.
  apply keeps_bind; [apply keeps_ensure_token|]. intros _ m0 m W _.
  cbn [fst]. pose proof (well_formed_open_channel m W) as W4.
  destruct (channel_open w _).
  - now apply well_formed_dispatch, well_formed_set_connected.
  - now apply well_formed_dispatch.
  - exact W4.
Qed.

Lemma keeps_ensure_socket : keeps (CrustoceanAgent.ensure_socket w).
Proof.
  intros m W. unfold CrustoceanAgent.ensure_socket.
  destruct (socket_connected _); [exact W|].
  apply keeps_bind; [apply keeps_connectSocket | intros; assumption | exact W].
Qed.

Lemma well_formed_handshake (a : Agency.t) (m : Machine) :
  well_formed m -> token (this m) <> None ->
  well_formed (fst (CrustoceanAgent.handshake w a m)).
Proof.
  intros W T. unfold CrustoceanAgent.handshake.
  destruct (socket (this m)) as [so|] eqn:So; cbn [fst]; [|exact W].
  now apply well_formed_deliver, well_formed_request_join.
Qed.

Lemma keeps_join (x : string) : keeps (CrustoceanAgent.join w x).
Proof.
  unfold CrustoceanAgent.join.
  apply keeps_bind; [apply keeps_ensure_socket|]. intros _ m0 m1 W1 _.
  apply keeps_bind; [apply keeps_getAgencies| |exact W1].
  intros dir m2 m3 W3 E. apply token_getAgencies in E.
  destruct (find _ dir); [now apply well_formed_handshake | exact W3].
Qed.

Lemma keeps_join_each (l : list Agency.t) :
  forall joined, keeps (CrustoceanAgent.join_each w l joined).
Proof.
  induction l as [|a l IH]; intros joined m W; cbn [CrustoceanAgent.join_each].
  - exact W.
  - pose proof (keeps_join (or_else (Agency.slug a) (Agency.id a)) m W) as W1.
    destruct (CrustoceanAgent.join w _ m) as [m1 [v|msg|]]; cbn [fst] in *.
    + now apply IH.
    + now apply IH, well_formed_record.
    + exact W1.
Qed.

Lemma keeps_joinAllMemberAgencies :
  keeps (CrustoceanAgent.joinAllMemberAgencies w).
Proof.
  unfold CrustoceanAgent.joinAllMemberAgencies.
  apply keeps_bind; [apply keeps_getAgencies|]. intros dir m m1 W _.
  now apply keeps_join_each.
Qed.

Lemma keeps_getRecentMessages (opts : MessagesOptions) :
  keeps (CrustoceanAgent.getRecentMessages w opts).
Proof.
  unfold CrustoceanAgent.getRecentMessages.
  apply keeps_bind; [apply keeps_ensure_token|]. intros _ m m1 W _.
  destruct (currentAgencyId (this m1)) as [c|]; [|exact W].
  destruct (is_empty c); [exact W|].
  destruct (messages_endpoint w _); cbn [fst]; now apply well_formed_record.
Qed.

End Keeps.

Lemma keeps_send (content : string) (options : SendOptions) :
  keeps (CrustoceanAgent.send content options).
Proof.
  intros m W. unfold CrustoceanAgent.send.
  destruct (_ || _); [exact W|].
  destruct (socket (this m)) as [so|]; [|exact W].
  destruct (currentAgencyId (this m)); [|exact W].
  now apply well_formed_record.
Qed.

Lemma well_formed_attach (event : string) (h : Handler) (m : Machine) :
  well_formed m -> well_formed (on_socket (sock_on event (UserFn h)) m).
Proof.
  intros W. apply (well_formed_step m _ W).
  - cbn. lia.
  - auto.
  - apply W.
  - intros ev cb I.
    apply (callbacks_added event {| cb_fn := UserFn h; cb_once := false |}) in I;
      [|reflexivity].
    destruct I as [I|E]; [now left|]. right. inversion E. subst. cbn.
    split; [discriminate|]. split; [reflexivity | discriminate].
  - apply W.
  - apply W.
Qed.

Lemma reg_get_none_keys (event : string) (r : Registry) :
  reg_get event r = None <-> ~ In event (map fst r).
Proof.
  induction r as [|[k l] r IH]; cbn [reg_get map fst In]; [tauto|].
  destruct (String.eqb_spec k event) as [->|ne].
  - split; [discriminate | tauto].
  - rewrite IH. tauto.
Qed.

Lemma keys_reg_mutate (event : string) (f : list Handler -> list Handler)
  (r : Registry) :
  map fst (reg_mutate event f r) = map fst r.
Proof.
  induction r as [|[k l] r IH]; cbn [reg_mutate map fst]; [reflexivity|].
  destruct (String.eqb k event); cbn [map fst]; now rewrite ?IH.
Qed.

Lemma keys_reg_set_absent (event : string) (l : list Handler) (r : Registry) :
  reg_get event r = None ->
  map fst (reg_set event l r) = (map fst r ++ [event])%list.
Proof.
  induction r as [|[k l'] r IH]; cbn [reg_set reg_get map fst app]; [reflexivity|].
  destruct (String.eqb k event); [discriminate|].
  intros H. cbn [map fst]. now rewrite IH.
Qed.

Lemma well_formed_on (event : string) (h : Handler) (m : Machine) :
  well_formed m -> well_formed (CrustoceanAgent.on event h m).
Proof.
  intros W. unfold CrustoceanAgent.on. apply well_formed_attach.
  apply (well_formed_step m _ W).
  - cbn. lia.
  - auto.
  - cbn [update_agent this listeners set_listeners].
    unfold distinct_keys, reg_has. rewrite keys_reg_mutate.
    destruct (reg_get event (listeners (this m))) eqn:G; [apply W|].
    rewrite keys_reg_set_absent by exact G.
    apply NoDup_app; [apply W | repeat constructor; intros [] | ].
    intros x I [<-|[]]. now apply reg_get_none_keys in G.
  - intros ev cb I. now left.
  - apply W.
  - apply W.
Qed.

Lemma well_formed_off (event : string) (h : Handler) (m : Machine) :
  well_formed m -> well_formed (CrustoceanAgent.off event h m).
Proof.
  intros W. unfold CrustoceanAgent.off. apply (well_formed_step m _ W).
  - cbn. lia.
  - auto.
  - cbn [on_socket update_agent this listeners set_listeners set_socket].
    unfold distinct_keys.
    destruct (reg_get event (listeners (this m))); [|apply W].
    destruct (indexOf h l); [|apply W].
    rewrite keys_reg_mutate. apply W.
  - intros ev cb I. left. revert I.
    apply (callbacks_off event (UserFn h)
             (update_agent (set_listeners _) m)).
  - apply W.
  - apply W.
Qed.

Lemma well_formed_disconnect (m : Machine) :
  well_formed m -> well_formed (CrustoceanAgent.disconnect m).
Proof.
  intros W. unfold CrustoceanAgent.disconnect.
  apply (well_formed_step m _ W).
  - destruct (socket (this m)); cbn; lia.
  - destruct (socket (this m)); cbn; auto.
  - destruct (socket (this m)); cbn; apply W.
  - intros ev cb I. left. unfold channel_callbacks in *.
    destruct (socket (this m)) eqn:S; cbn in I; [destruct I|].
    now rewrite S in I.
  - intros p s I. destruct (socket (this m)); cbn in *;
      now apply (proj2 (wf_allocated W) p s).
  - reflexivity.
Qed.

Lemma well_formed_attach_handlers (event : string) (hs : list Handler) :
  forall m, well_formed m ->
            well_formed (CrustoceanAgent.attach_handlers event hs m).
Proof.
  unfold CrustoceanAgent.attach_handlers.
  induction hs as [|h hs IH]; intros m W; cbn [fold_left]; [exact W|].
  now apply IH, well_formed_attach.
Qed.

Lemma well_formed_attach_entries (r : Registry) :
  forall m, well_formed m ->
            well_formed
              (fold_left (fun m eh => CrustoceanAgent.attach_handlers (fst eh) (snd eh) m)
                 r m).
Proof.
  induction r as [|[ev hs] r IH]; intros m W; cbn [fold_left]; [exact W|].
  now apply IH, well_formed_attach_handlers.
Qed.

Lemma keeps_connectAndJoin (w : World) (x : option string) :
  keeps (CrustoceanAgent.connectAndJoin w x).
Proof.
  unfold CrustoceanAgent.connectAndJoin.
  apply keeps_bind; [apply keeps_connect|]. intros _ m0 m1 W1 _.
  apply keeps_bind; [apply keeps_connectSocket| |exact W1].
  intros _ m2 m3 W3 _.
  apply keeps_bind; [| |exact W3].
  - intros m W. cbn. now apply well_formed_attach_entries.
  - intros _ m4 m5 W5 _. now apply keeps_join.
Qed.

Lemma well_formed_constructor (url tok : string) :
  well_formed (CrustoceanAgent.constructor url tok).
Proof.
  split.
  - split; cbn; intros; contradiction.
  - constructor.
  - intros ev cb h I. destruct I.
  - intros _. split; [reflexivity|]. intros p (ev & cb & I & _). destruct I.
Qed.

(** Every reachable state satisfies the invariant. *)
Lemma reachable_well_formed (m : Machine) : reachable m -> well_formed m.
Proof.
  induction 1 as [url tok|w s m R W].
  - apply well_formed_constructor.
  - destruct s; cbn [step].
    + now apply keeps_connect.
    + now apply keeps_connectSocket.
    + now apply keeps_join.
    + now apply keeps_joinAllMemberAgencies.
    + now apply keeps_send.
    + now apply well_formed_on.
    + now apply well_formed_off.
    + now apply keeps_getAgencies.
    + now apply keeps_getRecentMessages.
    + now apply well_formed_disconnect.
    + now apply keeps_connectAndJoin.
    + now apply well_formed_dispatch.
    + now apply well_formed_set_connected.
Qed.

(** ** The credential and the current room *)

(** C6. In every state reachable from the constructor by the session's
    operations (and by anything the server does on the channel), a current
    room implies a session credential. *)
Theorem credential_while_joined (m : Machine) :
  reachable m ->
  currentAgencyId (this m) <> None -> token (this m) <> None.
Proof.
  intros R C T.
  destruct (wf_credential (reachable_well_formed m R) T) as [N _].
  contradiction.
Qed.

Lemma in_room_reachable : reachable Sample.in_room.
Proof.
  exact (reach_step Sample.world (CallConnectAndJoin (Some "a"))
           (reach_new "https://x/" "sk-agent")).
Qed.

Lemma credential_while_joined_witness :
  reachable Sample.in_room
  /\ currentAgencyId (this Sample.in_room) = Some "r1"
  /\ token (this Sample.in_room) <> None.
Proof.
  split; [exact in_room_reachable|]. split; [vm_compute; reflexivity|].
  apply (credential_while_joined Sample.in_room in_room_reachable).
  vm_compute. discriminate.
Defined.

(** ** One join attempt *)

Lemma filter_remove_first_in {A} (p q : A -> bool) (l : list A) :
  (forall x, q x = true -> p x = true) ->
  filter p (remove_first q l) = remove_first q (filter p l).
Proof.
  intros H. induction l as [|x l IH]; cbn [remove_first filter]; [reflexivity|].
  destruct (q x) eqn:Q.
  - rewrite (H x Q). cbn [remove_first]. now rewrite Q.
  - cbn [filter]. destruct (p x); cbn [remove_first]; now rewrite ?Q, IH.
Qed.

Lemma filter_remove_first_out {A} (p q : A -> bool) (l : list A) :
  (forall x, q x = true -> p x = false) ->
  filter p (remove_first q l) = filter p l.
Proof.
  intros H. induction l as [|x l IH]; cbn [remove_first filter]; [reflexivity|].
  destruct (q x) eqn:Q.
  - now rewrite (H x Q).
  - cbn [filter]. now rewrite IH.
Qed.

Lemma filter_singleton_split {A} (p : A -> bool) (l : list A) (a : A) :
  filter p l = [a] ->
  exists l1 l2, l = (l1 ++ a :: l2)%list /\ filter p l1 = [] /\ filter p l2 = [].
Proof.
  induction l as [|x l IH]; cbn [filter]; [discriminate|].
  destruct (p x) eqn:Px.
  - intros E. inversion E. subst. exists [], l. cbn. auto.
  - intros E. destruct (IH E) as (l1 & l2 & -> & F1 & F2).
    exists (x :: l1), l2. cbn. rewrite Px. auto.
Qed.

Lemma filter_snapshot (p : string * Callback -> bool) (p' : Callback -> bool)
  (event : string) (l : list (string * Callback)) :
  (forall ec, p ec = p' (snd ec)) ->
  filter p' (map snd (filter (fun ec => String.eqb (fst ec) event) l))
  = map snd (filter (fun ec => String.eqb (fst ec) event) (filter p l)).
Proof.
  intros H. induction l as [|ec l IH]; cbn [filter map]; [reflexivity|].
  destruct (String.eqb (fst ec) event) eqn:N; cbn [map filter].
  - rewrite H. destruct (p' (snd ec)); cbn [filter map]; rewrite ?N; cbn [map];
      now rewrite IH.
  - rewrite H. destruct (p' (snd ec)); cbn [filter]; rewrite ?N; exact IH.
Qed.

Lemma promise_off (k : nat) (event : string) (fn : Closure) (m : Machine) :
  listeners_of_promise k (this (on_socket (sock_off event fn) m))
  = if match closure_id fn with Some p => Nat.eqb p k | None => false end
    then remove_first
           (fun ec => String.eqb (fst ec) event && Closure_eqb (cb_fn (snd ec)) fn)
           (listeners_of_promise k (this m))
    else listeners_of_promise k (this m).
Proof.
  unfold listeners_of_promise. rewrite callbacks_on_socket. unfold channel_callbacks.
  destruct (socket (this m)) as [so|];
    [|destruct (closure_id fn) as [p|]; [destruct (Nat.eqb p k)|]; reflexivity].
  cbn [sock_off callbacks].
  destruct (match closure_id fn with Some p => Nat.eqb p k | None => false end) eqn:B.
  - apply filter_remove_first_in. intros [ev cb] Q. cbn in Q.
    apply andb_true_iff in Q. destruct Q as [_ Q]. apply Closure_eqb_eq in Q.
    unfold belongs_to. cbn [snd]. now rewrite Q.
  - apply filter_remove_first_out. intros [ev cb] Q. cbn in Q.
    apply andb_true_iff in Q. destruct Q as [_ Q]. apply Closure_eqb_eq in Q.
    unfold belongs_to. cbn [snd]. now rewrite Q.
Qed.

Lemma Callback_eqb_eq (a b : Callback) : Callback_eqb a b = true <-> a = b.
Proof.
  unfold Callback_eqb. rewrite andb_true_iff, Closure_eqb_eq, Bool.eqb_true_iff.
  destruct a, b; cbn. split; [intros [-> ->]; reflexivity | intros E; now inversion E].
Qed.

Lemma promise_off_wrapper (k : nat) (event : string) (cb : Callback) (m : Machine) :
  listeners_of_promise k (this (on_socket (sock_off_wrapper event cb) m))
  = if belongs_to k (event, cb)
    then remove_first
           (fun ec => String.eqb (fst ec) event && Callback_eqb (snd ec) cb)
           (listeners_of_promise k (this m))
    else listeners_of_promise k (this m).
Proof.
  unfold listeners_of_promise. rewrite callbacks_on_socket. unfold channel_callbacks.
  destruct (socket (this m)) as [so|]; [|now destruct (belongs_to k (event, cb))].
  cbn [sock_off_wrapper callbacks].
  destruct (belongs_to k (event, cb)) eqn:B.
  - apply filter_remove_first_in. intros [ev c] Q. cbn in Q.
    apply andb_true_iff in Q. destruct Q as [_ Q]. apply Callback_eqb_eq in Q.
    subst c. exact B.
  - apply filter_remove_first_out. intros [ev c] Q. cbn in Q.
    apply andb_true_iff in Q. destruct Q as [_ Q]. apply Callback_eqb_eq in Q.
    subst c. exact B.
Qed.

Lemma settlements_settle (k p : nat) (s : Settlement) (m : Machine) :
  settlements_of k (settle p s m)
  = (settlements_of k m ++ if Nat.eqb p k then [s] else [])%list.
Proof.
  unfold settlements_of. cbn [settle settle_calls].
  rewrite filter_app, map_app. cbn [filter fst].
  now destruct (Nat.eqb p k).
Qed.

(** A callback of another promise, or of the caller, leaves the promise [k]
    alone. *)
Lemma invoke_other (k : nat) (event : string) (data : Payload) (m : Machine)
  (cb : Callback) :
  belongs_to k (event, cb) = false ->
  listeners_of_promise k (this (invoke event data m cb))
  = listeners_of_promise k (this m)
  /\ settlements_of k (invoke event data m cb) = settlements_of k m.
Proof.
  intros B. unfold invoke.
  set (m1 := if cb_once cb then on_socket (sock_off_wrapper event cb) m else m).
  assert (L1 : listeners_of_promise k (this m1) = listeners_of_promise k (this m)).
  { subst m1. destruct (cb_once cb); [|reflexivity].
    now rewrite promise_off_wrapper, B. }
  assert (S1 : settlements_of k m1 = settlements_of k m)
    by (subst m1; now destruct (cb_once cb)).
  clearbody m1. unfold belongs_to in B. cbn [snd] in B.
  unfold run_closure. destruct (cb_fn cb) as [h|p|p|p|p]; cbn [closure_id] in B.
  - split; [exact L1 | exact S1].
  - destruct (socket (this m1)); rewrite settlements_settle, B, app_nil_r;
      split; assumption.
  - rewrite settlements_settle, B, app_nil_r. split; assumption.
  - rewrite settlements_settle, B, app_nil_r. split; [|exact S1].
    change (this (settle p _ ?x)) with (this x).
    rewrite promise_off. cbn [closure_id]. rewrite B. exact L1.
  - rewrite settlements_settle, B, app_nil_r. split; [|exact S1].
    change (this (settle p _ ?x)) with (this x).
    rewrite promise_off. cbn [closure_id]. rewrite B. exact L1.
Qed.

Lemma fold_invoke_other (k : nat) (event : string) (data : Payload)
  (l : list Callback) :
  filter (fun cb => belongs_to k (event, cb)) l = [] ->
  forall m,
    listeners_of_promise k (this (fold_left (invoke event data) l m))
    = listeners_of_promise k (this m)
    /\ settlements_of k (fold_left (invoke event data) l m) = settlements_of k m.
Proof.
  induction l as [|cb l IH]; intros F m; cbn [fold_left]; [auto|].
  cbn [filter] in F. destruct (belongs_to k (event, cb)) eqn:B; [discriminate|].
  destruct (IH F (invoke event data m cb)) as [L S].
  destruct (invoke_other k event data m cb B) as [L0 S0].
  split; congruence.
Qed.

Lemma promise_set_currentAgencyId (k : nat) (c : option string) (m : Machine) :
  listeners_of_promise k (this (update_agent (set_currentAgencyId c) m))
  = listeners_of_promise k (this m).
Proof. reflexivity. Qed.

Lemma invoke_joined (k : nat) (data : Payload) (m : Machine) :
  armed k m ->
  spent k (Fulfilled (VJoined (p_agencyId data) (p_members data)))
    (invoke "agency-joined" data m (snd (joined_listener k))).
Proof.
  intros [L S]. unfold invoke, joined_listener. cbn [snd cb_once cb_fn run_closure].
  split.
  - change (this (settle k _ ?x)) with (this x).
    rewrite promise_off, promise_set_currentAgencyId, promise_off_wrapper, L.
    unfold belongs_to. cbn [snd cb_fn closure_id]. rewrite Nat.eqb_refl.
    unfold joined_listener, error_listener. cbn [remove_first fst snd].
    unfold Callback_eqb. cbn [cb_fn cb_once Closure_eqb String.eqb Ascii.eqb Bool.eqb andb].
    rewrite Nat.eqb_refl. cbn [andb remove_first fst snd String.eqb Ascii.eqb Bool.eqb
                                 cb_fn Closure_eqb].
    now rewrite Nat.eqb_refl.
  - rewrite settlements_settle, Nat.eqb_refl.
    change (settlements_of k (on_socket ?f (update_agent ?g (on_socket ?h m))))
      with (settlements_of k m).
    now rewrite S.
Qed.

Lemma invoke_error (k : nat) (data : Payload) (m : Machine) :
  armed k m ->
  spent k (Rejected (or_else (p_message data) "Join failed"))
    (invoke "error" data m (snd (error_listener k))).
Proof.
  intros [L S]. unfold invoke, error_listener. cbn [snd cb_once cb_fn run_closure].
  split.
  - change (this (settle k _ ?x)) with (this x).
    rewrite promise_off, promise_off_wrapper, L.
    unfold belongs_to. cbn [snd cb_fn closure_id]. rewrite Nat.eqb_refl.
    unfold joined_listener, error_listener. cbn [remove_first fst snd].
    unfold Callback_eqb. cbn [cb_fn cb_once Closure_eqb String.eqb Ascii.eqb Bool.eqb andb].
    rewrite Nat.eqb_refl. cbn [andb remove_first fst snd String.eqb Ascii.eqb Bool.eqb
                                 cb_fn Closure_eqb].
    now rewrite Nat.eqb_refl.
  - rewrite settlements_settle, Nat.eqb_refl.
    change (settlements_of k (on_socket ?f (on_socket ?h m)))
      with (settlements_of k m).
    now rewrite S.
Qed.

Lemma snapshot_of_promise (k : nat) (event : string) (m : Machine) (so : Socket) :
  socket (this m) = Some so ->
  filter (fun cb => belongs_to k (event, cb)) (listeners_of event so)
  = map snd (filter (fun ec => String.eqb (fst ec) event)
               (listeners_of_promise k (this m))).
Proof.
  intros So. unfold listeners_of, listeners_of_promise, channel_callbacks.
  rewrite So. apply filter_snapshot. reflexivity.
Qed.

Lemma armed_socket (k : nat) (m : Machine) :
  armed k m -> exists so, socket (this m) = Some so.
Proof.
  intros [L _]. unfold listeners_of_promise, channel_callbacks in L.
  destruct (socket (this m)) as [so|]; [now exists so | discriminate].
Qed.

(** An event that reaches a waiting join: the first acknowledgment or error
    ends it, anything else leaves it waiting. *)
Lemma dispatch_armed (k : nat) (m : Machine) (e : ChanEvent) :
  armed k m ->
  match settles_with e with
  | Some s => spent k s (dispatch m e)
  | None => armed k (dispatch m e)
  end.
Proof.
  intros A. destruct (armed_socket k m A) as [so So].
  pose proof (snapshot_of_promise k (ev_name e) m so So) as F.
  rewrite (proj1 A) in F.
  unfold dispatch, settles_with. rewrite So.
  destruct (String.eqb_spec (ev_name e) "agency-joined") as [N|N].
  - rewrite N in *. cbn in F.
    apply filter_singleton_split in F. destruct F as (l1 & l2 & -> & F1 & F2).
    rewrite fold_left_app. cbn [fold_left].
    destruct (fold_invoke_other k _ (ev_data e) l1 F1 m) as [L1 S1].
    assert (A1 : armed k (fold_left (invoke "agency-joined" (ev_data e)) l1 m))
      by (destruct A; split; congruence).
    pose proof (invoke_joined k (ev_data e) _ A1) as [L S].
    destruct (fold_invoke_other k _ (ev_data e) l2 F2
                (invoke "agency-joined" (ev_data e)
                   (fold_left (invoke "agency-joined" (ev_data e)) l1 m)
                   (snd (joined_listener k)))) as [L2 S2].
    cbn [snd joined_listener] in L, S, L2, S2. split; congruence.
  - destruct (String.eqb_spec (ev_name e) "error") as [N'|N'].
    + rewrite N' in *. cbn in F.
      apply filter_singleton_split in F. destruct F as (l1 & l2 & -> & F1 & F2).
      rewrite fold_left_app. cbn [fold_left].
      destruct (fold_invoke_other k _ (ev_data e) l1 F1 m) as [L1 S1].
      assert (A1 : armed k (fold_left (invoke "error" (ev_data e)) l1 m))
        by (destruct A; split; congruence).
      pose proof (invoke_error k (ev_data e) _ A1) as [L S].
      destruct (fold_invoke_other k _ (ev_data e) l2 F2
                  (invoke "error" (ev_data e)
                     (fold_left (invoke "error" (ev_data e)) l1 m)
                     (snd (error_listener k)))) as [L2 S2].
      cbn [snd error_listener] in L, S, L2, S2. split; congruence.
    + assert (F0 : filter (fun cb => belongs_to k (ev_name e, cb))
                     (listeners_of (ev_name e) so) = []).
      { rewrite F. unfold joined_listener, error_listener. cbn [filter fst].
        rewrite (String.eqb_sym "agency-joined"), (String.eqb_sym "error").
        apply String.eqb_neq in N, N'. now rewrite N, N'. }
      destruct (fold_invoke_other k _ (ev_data e) _ F0 m) as [L S].
      destruct A. split; congruence.
Qed.

Lemma dispatch_spent (k : nat) (s : Settlement) (m : Machine) (e : ChanEvent) :
  spent k s m -> spent k s (dispatch m e).
Proof.
  intros [L S]. unfold dispatch. destruct (socket (this m)) as [so|] eqn:So;
    [|now split].
  pose proof (snapshot_of_promise k (ev_name e) m so So) as F.
  rewrite L in F. cbn in F.
  destruct (fold_invoke_other k _ (ev_data e) _ F m) as [L' S'].
  split; congruence.
Qed.

Lemma deliver_spent (k : nat) (s : Settlement) (events : list ChanEvent) :
  forall m, spent k s m -> spent k s (deliver events m).
Proof.
  induction events as [|e es IH]; intros m H; cbn; [exact H|].
  now apply IH, dispatch_spent.
Qed.

Lemma deliver_armed (k : nat) (events : list ChanEvent) :
  forall m,
    armed k m ->
    match first_settling events with
    | Some s => spent k s (deliver events m)
    | None => armed k (deliver events m)
    end.
Proof.
  induction events as [|e es IH]; intros m A; cbn [first_settling deliver fold_left];
    [exact A|].
  pose proof (dispatch_armed k m e A) as D.
  destruct (settles_with e) as [s|].
  - now apply deliver_spent.
  - now apply IH.
Qed.

Lemma filter_none {A} (p : A -> bool) (l : list A) :
  (forall x, In x l -> p x = false) -> filter p l = [].
Proof.
  induction l as [|x l IH]; intros H; cbn [filter]; [reflexivity|].
  rewrite (H x) by now left. apply IH. intros y I. apply H. now right.
Qed.

(** The identity [nextId] is fresh: nothing on the channel and no call of
    `resolve`/`reject` belongs to it. *)
Lemma fresh_promise (m : Machine) :
  allocated m ->
  listeners_of_promise (nextId m) (this m) = []
  /\ settlements_of (nextId m) m = [].
Proof.
  intros [A1 A2]. split.
  - apply filter_none. intros [ev cb] I. unfold belongs_to. cbn [snd].
    destruct (closure_id (cb_fn cb)) as [p|] eqn:C; [|reflexivity].
    specialize (A1 ev cb p I C). apply Nat.eqb_neq. lia.
  - unfold settlements_of. rewrite filter_none; [reflexivity|].
    intros [p s] I. cbn [fst]. specialize (A2 p s I). apply Nat.eqb_neq. lia.
Qed.

Lemma request_join_armed (a : Agency.t) (so : Socket) (m : Machine) :
  allocated m -> socket (this m) = Some so ->
  armed (nextId m) (CrustoceanAgent.request_join a so m).
Proof.
  intros A So. destruct (fresh_promise m A) as [L S].
  unfold armed, CrustoceanAgent.request_join. split; [|exact S].
  unfold listeners_of_promise, channel_callbacks in *.
  cbn [record this on_socket update_agent bump set_socket socket].
  rewrite So in *. cbn [option_map sock_once callbacks].
  rewrite <- app_assoc, filter_app, L. cbn [app filter].
  unfold belongs_to. cbn [snd cb_fn closure_id].
  now rewrite Nat.eqb_refl.
Qed.

Lemma not_listening (k : nat) (fn : Closure) (a : Agent) :
  listeners_of_promise k a = [] -> closure_id fn = Some k -> ~ listening fn a.
Proof.
  intros L C (ev & cb & I & E).
  assert (B : belongs_to k (ev, cb) = true).
  { unfold belongs_to. cbn [snd]. rewrite E, C. apply Nat.eqb_refl. }
  assert (X : In (ev, cb) (listeners_of_promise k a))
    by (apply filter_In; auto).
  rewrite L in X. destruct X.
Qed.

Lemma promise_state_settlements (k : nat) (calls : list (nat * Settlement)) :
  promise_state k calls
  = hd_error (map snd (filter (fun c => Nat.eqb (fst c) k) calls)).
Proof.
  induction calls as [|[p s] l IH]; cbn [promise_state filter fst]; [reflexivity|].
  destruct (Nat.eqb p k); [reflexivity | exact IH].
Qed.

Lemma await_spent (k : nat) (s : Settlement) (m : Machine) :
  spent k s m -> await k m = outcome_of s.
Proof.
  intros [_ S]. unfold await. rewrite promise_state_settlements.
  unfold settlements_of in S. rewrite S. now destruct s.
Qed.



(** ** Re-attaching the registry *)

Lemma user_fns_remove_other (q : string * Callback -> bool) (event : string)
  (l : list (string * Callback)) :
  (forall ec, In ec l -> q ec = true -> forall h, cb_fn (snd ec) <> UserFn h) ->
  user_fns (map snd (filter (fun ec => String.eqb (fst ec) event) (remove_first q l)))
  = user_fns (map snd (filter (fun ec => String.eqb (fst ec) event) l)).
Proof.
  induction l as [|ec l IH]; intros H; cbn [remove_first]; [reflexivity|].
  destruct (q ec) eqn:Q.
  - cbn [filter]. destruct (String.eqb (fst ec) event); [|reflexivity].
    cbn [map user_fns]. pose proof (H ec (or_introl eq_refl) Q) as N.
    destruct (cb_fn (snd ec)) as [h| | | |]; try reflexivity.
    now destruct (N h).
  - cbn [filter]. destruct (String.eqb (fst ec) event); cbn [map user_fns];
      rewrite IH by (intros ec' I; apply H; now right); reflexivity.
Qed.

Lemma attached_remove_other (q : string * Callback -> bool) (f : Socket -> Socket)
  (event : string) (m : Machine) :
  (forall so, callbacks (f so) = remove_first q (callbacks so)) ->
  (forall ec, In ec (channel_callbacks (this m)) -> q ec = true ->
              forall h, cb_fn (snd ec) <> UserFn h) ->
  attached event (this (on_socket f m)) = attached event (this m).
Proof.
  intros F H. unfold attached, channel_callbacks in *.
  cbn [on_socket update_agent this socket set_socket].
  destruct (socket (this m)) as [so|]; cbn [option_map]; [|reflexivity].
  unfold listeners_of. rewrite F. now apply user_fns_remove_other.
Qed.

Lemma attached_off_closure (event ev : string) (fn : Closure) (m : Machine) :
  (forall h, fn <> UserFn h) ->
  attached event (this (on_socket (sock_off ev fn) m)) = attached event (this m).
Proof.
  intros N.
  apply attached_remove_other
    with (q := fun ec => String.eqb (fst ec) ev && Closure_eqb (cb_fn (snd ec)) fn);
    [reflexivity|].
  intros ec _ Q h E. apply andb_true_iff in Q. destruct Q as [_ Q].
  apply Closure_eqb_eq in Q. apply (N h). congruence.
Qed.

Lemma attached_once (event ev : string) (fn : Closure) (m : Machine) :
  (forall h, fn <> UserFn h) ->
  attached event (this (on_socket (sock_once ev fn) m)) = attached event (this m).
Proof.
  intros N. unfold attached.
  cbn [on_socket update_agent this socket set_socket].
  destruct (socket (this m)) as [so|]; cbn [option_map]; [|reflexivity].
  rewrite (listeners_of_added ev event {| cb_fn := fn; cb_once := true |} so)
    by reflexivity.
  destruct (String.eqb ev event); [|reflexivity].
  rewrite user_fns_app. cbn [user_fns cb_fn].
  destruct fn; rewrite ?app_nil_r; try reflexivity. now destruct (N h).
Qed.

Lemma invoke_attached (event ev : string) (data : Payload) (m : Machine)
  (cb : Callback) :
  (forall h, cb_fn cb = UserFn h -> cb_once cb = false) ->
  attached event (this (invoke ev data m cb)) = attached event (this m).
Proof.
  intros P. unfold invoke.
  set (m1 := if cb_once cb then on_socket (sock_off_wrapper ev cb) m else m).
  assert (A1 : attached event (this m1) = attached event (this m)).
  { subst m1. destruct (cb_once cb) eqn:O; [|reflexivity].
    apply attached_remove_other
      with (q := fun ec => String.eqb (fst ec) ev && Callback_eqb (snd ec) cb);
      [reflexivity|].
    intros ec _ Q h E. apply andb_true_iff in Q. destruct Q as [_ Q].
    apply Callback_eqb_eq in Q. rewrite Q in E. apply P in E. congruence. }
  clearbody m1. rewrite <- A1. unfold run_closure.
  destruct (cb_fn cb) as [h|p|p|p|p]; try reflexivity.
  - now destruct (socket (this m1)).
  - change (this (settle p _ ?x)) with (this x).
    now rewrite attached_off_closure by discriminate.
  - change (this (settle p _ ?x)) with (this x).
    now rewrite attached_off_closure by discriminate.
Qed.

Lemma fold_invoke_attached (event ev : string) (data : Payload) (l : list Callback) :
  (forall cb h, In cb l -> cb_fn cb = UserFn h -> cb_once cb = false) ->
  forall m,
    attached event (this (fold_left (invoke ev data) l m)) = attached event (this m).
Proof.
  induction l as [|cb l IH]; intros P m; cbn [fold_left]; [reflexivity|].
  rewrite IH by (intros cb' h I; apply P; now right).
  apply invoke_attached. intros h. apply P. now left.
Qed.

(** An incoming event leaves the caller's handlers attached as they were. *)
Lemma dispatch_attached (event : string) (m : Machine) (e : ChanEvent) :
  users_plain m ->
  attached event (this (dispatch m e)) = attached event (this m).
Proof.
  intros U. unfold dispatch. destruct (socket (this m)) as [so|] eqn:So;
    [|reflexivity].
  apply fold_invoke_attached. intros cb h I. apply (U (ev_name e)).
  unfold channel_callbacks. rewrite So. now apply listeners_of_in.
Qed.

Lemma deliver_attached (event : string) (events : list ChanEvent) :
  forall m, well_formed m ->
            attached event (this (deliver events m)) = attached event (this m).
Proof.
  induction events as [|e es IH]; intros m W; cbn; [reflexivity|].
  rewrite IH by now apply well_formed_dispatch.
  apply dispatch_attached, W.
Qed.

(** Emissions reach the attached handlers once per attachment, in the order
    of emission. *)
Lemma log_deliver (events : list ChanEvent) :
  forall m, well_formed m ->
            log (deliver events m)
            = (log m
               ++ flat_map (fun e => calls_for (attached (ev_name e) (this m)) e)
                    events)%list.
Proof.
  induction events as [|e es IH]; intros m W; cbn [deliver fold_left flat_map].
  - now rewrite app_nil_r.
  - change (fold_left dispatch es (dispatch m e)) with (deliver es (dispatch m e)).
    rewrite IH by now apply well_formed_dispatch.
    rewrite log_dispatch, <- app_assoc. f_equal. f_equal.
    apply flat_map_ext. intros e'.
    now rewrite dispatch_attached by apply W.
Qed.

Lemma attach_handlers_attached (event e : string) (hs : list Handler) :
  forall m,
    socket (this m) <> None ->
    attached e (this (CrustoceanAgent.attach_handlers event hs m))
    = (attached e (this m) ++ if String.eqb event e then hs else [])%list
    /\ socket (this (CrustoceanAgent.attach_handlers event hs m)) <> None.
Proof.
  unfold CrustoceanAgent.attach_handlers.
  induction hs as [|h hs IH]; intros m S; cbn [fold_left].
  - split; [|exact S]. destruct (String.eqb event e); now rewrite app_nil_r.
  - assert (S' : socket (this (on_socket (sock_on event (UserFn h)) m)) <> None).
    { cbn. destruct (socket (this m)); [discriminate | congruence]. }
    destruct (IH _ S') as [A N]. split; [|exact N].
    rewrite A, attached_on_socket_on.
    destruct (socket (this m)); [|congruence].
    destruct (String.eqb event e); [|reflexivity].
    now rewrite <- app_assoc.
Qed.

Lemma attach_entries_attached (e : string) (r : Registry) :
  forall m,
    socket (this m) <> None ->
    attached e
      (this (fold_left
               (fun m eh => CrustoceanAgent.attach_handlers (fst eh) (snd eh) m) r m))
    = (attached e (this m)
       ++ flat_map (fun eh => if String.eqb (fst eh) e then snd eh else []) r)%list.
Proof.
  induction r as [|[ev hs] r IH]; intros m S; cbn [fold_left flat_map fst snd].
  - now rewrite app_nil_r.
  - destruct (attach_handlers_attached ev e hs m S) as [A N].
    rewrite IH by exact N. rewrite A. now rewrite <- app_assoc.
Qed.

Lemma entries_of_absent_key (e : string) (r : Registry) :
  ~ In e (map fst r) ->
  flat_map (fun eh => if String.eqb (fst eh) e then snd eh else []) r = [].
Proof.
  induction r as [|[k l] r IH]; cbn [map fst flat_map snd In]; [reflexivity|].
  intros N. destruct (String.eqb_spec k e) as [->|ne]; [tauto|].
  cbn [app]. apply IH. tauto.
Qed.

Lemma entries_registered (e : string) (r : Registry) :
  distinct_keys r ->
  flat_map (fun eh => if String.eqb (fst eh) e then snd eh else []) r
  = registered e r.
Proof.
  unfold distinct_keys, registered.
  induction r as [|[k l] r IH]; cbn [map fst flat_map snd reg_get]; [reflexivity|].
  intros D. inversion D as [|? ? N D']. subst.
  destruct (String.eqb_spec k e) as [->|ne].
  - rewrite entries_of_absent_key by exact N. apply app_nil_r.
  - cbn [app]. now apply IH.
Qed.

Lemma channel_connected (m : Machine) (i : nat) (b : bool) :
  channel_of m = Some (i, b) -> socket_connected (this m) = b.
Proof.
  unfold channel_of, socket_connected. destruct (socket (this m)); cbn;
    [intros E; now inversion E | discriminate].
Qed.

Lemma open_channel_attached (event : string) (m : Machine) :
  attached event (this (CrustoceanAgent.open_channel m)) = [].
Proof.
  unfold attached, CrustoceanAgent.open_channel, listeners_of.
  cbn [on_socket update_agent record bump this socket set_socket option_map
       sock_on callbacks app filter fst].
  destruct (String.eqb "connect" event), (String.eqb "connect_error" event);
    reflexivity.
Qed.

Lemma await_fresh (m m' : Machine) (l : list (nat * Settlement)) :
  allocated m -> settle_calls m' = (settle_calls m ++ l)%list ->
  await (nextId m) m'
  = match hd_error (map snd (filter (fun c => Nat.eqb (fst c) (nextId m)) l)) with
    | Some s => outcome_of s
    | None => Pending
    end.
Proof.
  intros A E. unfold await. rewrite promise_state_settlements, E, filter_app, map_app.
  destruct (fresh_promise m A) as [_ S]. unfold settlements_of in S. rewrite S.
  cbn [app]. destruct (hd_error _) as [[v|msg]|]; reflexivity.
Qed.

(** When connectSocket returns, the session holds a fresh connected channel
    with none of the caller's handlers on it. *)
Lemma connectSocket_returned (w : World) (m m' : Machine) (v : Value) :
  well_formed m ->
  CrustoceanAgent.connectSocket w m = (m', Returned v) ->
  well_formed m'
  /\ socket_connected (this m') = true
  /\ (forall event, attached event (this m') = [])
  /\ listeners (this m') = listeners (this m).
Proof.
  intros W E. unfold CrustoceanAgent.connectSocket in E.
  apply bind_returned_inv in E. destruct E as (m0 & [] & E0 & E).
  assert (W0 : well_formed m0).
  { pose proof (keeps_ensure_token w m W) as X. now rewrite E0 in X. }
  assert (L0 : listeners (this m0) = listeners (this m)).
  { pose proof (core_ensure_token w m) as X. rewrite E0 in X. cbn [fst] in X.
    unfold core in X. now inversion X. }
  pose proof (well_formed_open_channel m0 W0) as W4.
  cbv beta zeta in E.
  destruct (channel_open w (log (CrustoceanAgent.open_channel m0))) as [|msg|];
    inversion E as [[E1 E2]]; clear E.
  - split; [|split; [|split]].
    + now apply well_formed_dispatch, well_formed_set_connected.
    + apply (channel_connected _ (nextId m0)).
      now rewrite (frame_channel _ _ (frame_dispatch _ _)).
    + intros event.
      rewrite dispatch_attached
        by now apply (wf_plain (well_formed_set_connected true _ W4)).
      apply (open_channel_attached event m0).
    + destruct (frame_parts _ _ (frame_dispatch
                  (on_socket (set_connected true) (CrustoceanAgent.open_channel m0))
                  {| ev_name := "connect"; ev_data := empty_payload |}))
        as (_ & L & _).
      rewrite L. exact L0.
  - exfalso.
    rewrite (await_fresh m0 _ [(nextId m0, Rejected msg)] (wf_allocated W0)) in E2
      by reflexivity.
    cbn in E2. rewrite Nat.eqb_refl in E2. discriminate.
  - exfalso.
    rewrite (await_fresh m0 _ [] (wf_allocated W0)) in E2
      by (cbn; now rewrite app_nil_r).
    discriminate.
Qed.

Lemma core_attached (event : string) (m m' : Machine) :
  core m = core m' -> attached event (this m) = attached event (this m').
Proof. intros C. unfold attached. now rewrite (core_socket _ _ C). Qed.

Lemma core_channel (m m' : Machine) : core m = core m' -> channel_of m = channel_of m'.
Proof. intros C. unfold channel_of. now rewrite (core_socket _ _ C). Qed.

(** On a connected channel, join keeps the channel and leaves the caller's
    handlers attached as they were, whatever its outcome. *)
Lemma join_attached (w : World) (x : string) (m : Machine) :
  well_formed m -> socket_connected (this m) = true ->
  well_formed (fst (CrustoceanAgent.join w x m))
  /\ channel_of (fst (CrustoceanAgent.join w x m)) = channel_of m
  /\ forall event,
       attached event (this (fst (CrustoceanAgent.join w x m)))
       = attached event (this m).
Proof.
  intros W C. split; [now apply keeps_join|].
  unfold CrustoceanAgent.join, bind at 1 3, CrustoceanAgent.ensure_socket.
  rewrite C. cbn [ret]. unfold bind.
  pose proof (core_getAgencies w m) as Co.
  pose proof (keeps_getAgencies w m W) as W1.
  destruct (CrustoceanAgent.getAgencies w m) as [m1 [dir|msg|]] eqn:G;
    cbn [fst] in *;
    try (split; [symmetry; now apply core_channel
                | intros event; symmetry; now apply core_attached]).
  rewrite <- (core_channel _ _ Co).
  assert (X : forall event, attached event (this m1) = attached event (this m))
    by (intros event; now apply core_attached).
  destruct (find _ dir) as [a|]; [|now split].
  unfold CrustoceanAgent.handshake.
  destruct (socket (this m1)) as [so|] eqn:So; [|now split].
  cbn [fst]. split.
  - rewrite (frame_channel _ _ (frame_deliver _ _)).
    unfold channel_of, CrustoceanAgent.request_join. cbn. now rewrite So.
  - intros event. rewrite <- X.
    rewrite deliver_attached
      by (apply well_formed_request_join; auto; eapply token_getAgencies, G).
    unfold CrustoceanAgent.request_join.
    change (this (record ?e ?y)) with (this y).
    rewrite !attached_once by discriminate. reflexivity.
Qed.

(** ** Channels left open *)

Lemma log_run_closure (event : string) (data : Payload) (fn : Closure) (m : Machine) :
  log (run_closure event data fn m)
  = (log m ++ match fn with
              | UserFn h => [HandlerCall h event data]
              | _ => []
              end)%list.
Proof.
  exact (log_invoke event data m {| cb_fn := fn; cb_once := false |}).
Qed.

Lemma log_fold_invoke_on (event : string) (data : Payload) (l : list Callback) :
  forall so m,
    log (snd (fold_left (invoke_on event data) l (so, m)))
    = (log m ++ map (fun h => HandlerCall h event data) (user_fns l))%list.
Proof.
  induction l as [|cb l IH]; intros so m; cbn [fold_left user_fns snd].
  - now rewrite app_nil_r.
  - unfold invoke_on at 2. cbn [fst snd]. rewrite IH, log_run_closure.
    destruct (cb_fn cb); cbn [map]; rewrite <- app_assoc; reflexivity.
Qed.

(** An event delivered by a channel the session held earlier calls the
    handlers that are attached to that channel, and records nothing else. *)
Lemma log_dispatch_on (so : Socket) (m : Machine) (e : ChanEvent) :
  log (snd (dispatch_on so m e))
  = (log m ++ calls_for (user_fns (listeners_of (ev_name e) so)) e)%list.
Proof. unfold dispatch_on, calls_for. apply log_fold_invoke_on. Qed.

Lemma is_close_quiet_http r : is_close (Http r) = false.
Proof. reflexivity. Qed.
Lemma is_close_quiet_open sid url t : is_close (ChannelOpen sid url t) = false.
Proof. reflexivity. Qed.
Lemma is_close_quiet_call h ev d : is_close (HandlerCall h ev d) = false.
Proof. reflexivity. Qed.
Lemma is_close_quiet_emit sid o : is_close (ChannelEmit sid o) = false.
Proof. reflexivity. Qed.

Lemma log_attach_handlers (event : string) (hs : list Handler) :
  forall m, log (CrustoceanAgent.attach_handlers event hs m) = log m.
Proof.
  unfold CrustoceanAgent.attach_handlers.
  induction hs as [|h hs IH]; intros m; cbn [fold_left]; [reflexivity|].
  now rewrite IH.
Qed.

Lemma log_attach_registry (m : Machine) :
  log (CrustoceanAgent.attach_registry m) = log m.
Proof.
  unfold CrustoceanAgent.attach_registry. generalize (listeners (this m)).
  intros r. revert m. induction r as [|[ev hs] r IH]; intros m;
    cbn [fold_left fst snd]; [reflexivity|].
  now rewrite IH, log_attach_handlers.
Qed.

(** Neither join nor connectAndJoin closes a channel. *)
Lemma join_closes_nothing (w : World) (x : string) :
  quiet_op is_close (CrustoceanAgent.join w x).
Proof.
  apply (quiet_join is_close is_close_quiet_http is_close_quiet_open
           is_close_quiet_call w x is_close_quiet_emit).
Qed.

Lemma connectAndJoin_closes_nothing (w : World) (x : option string) :
  quiet_op is_close (CrustoceanAgent.connectAndJoin w x).
Proof.
  unfold CrustoceanAgent.connectAndJoin.
  apply quiet_bind;
    [apply (quiet_connect is_close is_close_quiet_http)|]. intros _.
  apply quiet_bind;
    [apply (quiet_connectSocket is_close is_close_quiet_http is_close_quiet_open
              is_close_quiet_call)|]. intros _.
  apply quiet_bind; [|intros _; apply join_closes_nothing].
  intros m. apply quiet_same_log. cbn [ret fst]. apply log_attach_registry.
Qed.

Lemma attached_socket (event : string) (m : Machine) (so : Socket) :
  socket (this m) = Some so ->
  attached event (this m) = user_fns (listeners_of event so).
Proof. intros S. unfold attached. now rewrite S. Qed.

(** ** connectAndJoin *)

(** C4. Whatever was registered with on (and off) before, when
    connectAndJoin gets its channel, every registration in the registry is
    attached to that channel exactly once and in registration order, also
    when disconnect came first; so every event emitted on that channel
    afterwards calls the handlers registered for its name once per
    registration (a handler registered once: exactly once), emission after
    emission. *)
Theorem connectAndJoin_attaches_once
  (w : World) (x : option string) (after_disconnect : bool)
  (m m1 : Machine) (v : Value) :
  reachable m ->
  let m0 := if after_disconnect then CrustoceanAgent.disconnect m else m in
  let m' := fst (CrustoceanAgent.connectAndJoin w x m0) in
  bind (CrustoceanAgent.connect w) (fun _ => CrustoceanAgent.connectSocket w) m0
  = (m1, Returned v) ->
  (channel_of m' = channel_of m1 /\ socket_connected (this m') = true)
  /\ (forall event,
        attached event (this m') = registered event (listeners (this m)))
  /\ (forall events,
        added m' (deliver events m')
        = flat_map
            (fun e => calls_for (registered (ev_name e) (listeners (this m))) e)
            events)
  /\ (forall h e,
        calls_to h (added m' (dispatch m' e))
        = occurrences h (registered (ev_name e) (listeners (this m))))
  /\ (forall h e,
        occurrences h (registered (ev_name e) (listeners (this m))) = 1 ->
        calls_to h (added m' (dispatch m' e)) = 1).
Proof.
  intros R m0 m' E.
  assert (R0 : reachable m0).
  { subst m0. destruct after_disconnect; [|exact R].
    apply (reach_step w CallDisconnect R). }
  assert (L0 : listeners (this m0) = listeners (this m)).
  { subst m0. destruct after_disconnect; [|reflexivity].
    unfold CrustoceanAgent.disconnect. now destruct (socket (this m)). }
  pose proof (reachable_well_formed m0 R0) as W0.
  pose proof E as E'.
  apply bind_returned_inv in E'. destruct E' as (mc & [] & Ec & Es).
  assert (Wc : well_formed mc).
  { pose proof (keeps_connect w m0 W0) as X. now rewrite Ec in X. }
  assert (Lc : listeners (this mc) = listeners (this m0)).
  { pose proof (core_connect w m0) as X. rewrite Ec in X. cbn [fst] in X.
    unfold core in X. now inversion X. }
  destruct (connectSocket_returned w mc m1 v Wc Es) as (W1 & C1 & A1 & L1).
  set (m2 := CrustoceanAgent.attach_registry m1).
  assert (S1 : socket (this m1) <> None).
  { unfold socket_connected in C1. destruct (socket (this m1)); congruence. }
  assert (W2 : well_formed m2) by now apply well_formed_attach_entries.
  assert (A2 : forall event,
             attached event (this m2) = registered event (listeners (this m))).
  { intros event. subst m2. unfold CrustoceanAgent.attach_registry.
    rewrite attach_entries_attached by exact S1.
    rewrite A1, entries_registered by apply W1. cbn [app]. congruence. }
  assert (F2 : channel_of m2 = channel_of m1).
  { subst m2. unfold CrustoceanAgent.attach_registry.
    generalize (listeners (this m1)). intros r. generalize m1.
    induction r as [|[ev hs] r IH]; intros mm; cbn [fold_left fst snd];
      [reflexivity|].
    rewrite IH. unfold CrustoceanAgent.attach_handlers. generalize mm.
    induction hs as [|h hs IHh]; intros mm'; cbn [fold_left]; [reflexivity|].
    rewrite IHh. unfold channel_of. cbn. now destruct (socket (this mm')). }
  assert (C2 : socket_connected (this m2) = true).
  { unfold channel_of in F2. unfold socket_connected in *.
    destruct (socket (this m2)), (socket (this m1)); cbn in F2;
      inversion F2; congruence. }
  assert (J : m' = fst (CrustoceanAgent.join w
                          (match x with Some y => y | None => "lobby" end) m2)).
  { subst m'. unfold CrustoceanAgent.connectAndJoin.
    rewrite <- bind_assoc. rewrite (bind_returned _ _ _ _ _ E).
    reflexivity. }
  destruct (join_attached w (match x with Some y => y | None => "lobby" end) m2 W2 C2)
    as (W' & F' & A').
  rewrite <- J in W', F', A'.
  assert (Calls : forall h e,
             calls_to h (added m' (dispatch m' e))
             = occurrences h (registered (ev_name e) (listeners (this m)))).
  { intros h e. erewrite added_app by apply log_dispatch.
    now rewrite calls_to_calls_for, A', A2. }
  split; [|split; [|split; [|split]]].
  - split; [congruence|].
    unfold channel_of in F', F2. unfold socket_connected in *.
    destruct (socket (this m')), (socket (this m2)), (socket (this m1));
      cbn in F', F2; inversion F'; inversion F2; congruence.
  - intros event. now rewrite A'.
  - intros events. apply added_app. rewrite log_deliver by exact W'.
    f_equal. apply flat_map_ext. intros e. now rewrite A', A2.
  - exact Calls.
  - intros h e One. now rewrite Calls.
Qed.

Lemma connectAndJoin_attaches_once_witness :
  reachable Sample.listening
  /\ attached "message" (this Sample.rejoined) = [7]
  /\ added Sample.rejoined (deliver Sample.burst Sample.rejoined)
     = [HandlerCall 7 "message" (ev_data (Sample.message_event "one"));
        HandlerCall 8 "error" (ev_data (Sample.error_event "oops"));
        HandlerCall 7 "message" (ev_data (Sample.message_event "two"))].
Proof.
  assert (R : reachable Sample.listening).
  { exact (reach_step Sample.world (CallOn "error" 8)
             (reach_step Sample.world (CallOn "message" 7) in_room_reachable)). }
  split; [exact R|].
  assert (E : bind (CrustoceanAgent.connect Sample.world)
                (fun _ => CrustoceanAgent.connectSocket Sample.world)
                (CrustoceanAgent.disconnect Sample.listening)
              = (fst (bind (CrustoceanAgent.connect Sample.world)
                        (fun _ => CrustoceanAgent.connectSocket Sample.world)
                        (CrustoceanAgent.disconnect Sample.listening)),
                 Returned (VSocket 2)))
    by (vm_compute; reflexivity).
  destruct (connectAndJoin_attaches_once Sample.world (Some "a") true Sample.listening
              _ _ R E) as (_ & A & D & _).
  split.
  - transitivity (registered "message" (listeners (this Sample.listening)));
      [exact (A "message") | vm_compute; reflexivity].
  - transitivity
      (flat_map
         (fun e => calls_for (registered (ev_name e) (listeners (this Sample.listening))) e)
         Sample.burst);
      [exact (D Sample.burst) | vm_compute; reflexivity].
Defined.

(** connectAndJoin, on with a handler for "message", connectAndJoin again:
    the second call opens a channel and attaches the handler to it, closes
    nothing, and the channel of the first call is still open with the
    handler that on attached there.  One message the server emits to the
    agent arrives on both channels and calls the handler twice. *)
Lemma sample_again_two_channels :
  registered "message" (listeners (this Sample.listening)) = [7]
  /\ attached "message" (this sample_again) = [7]
  /\ filter is_close (added Sample.listening sample_again) = []
  /\ option_map sock_id (left_open Sample.listening sample_again) = Some 0
  /\ calls_to 7
       (added sample_again
          (emission (left_open Sample.listening sample_again) sample_again
             (Sample.message_event "hi")))
     = 2.
Proof. vm_compute. repeat split. Qed.

(** C4, as stated, fails: "exactly once per emission" does not hold for
    every session in which connectAndJoin succeeds, because an emission
    also arrives on a channel that was left open. *)
Lemma connectAndJoin_again_calls_twice :
  ~ (forall (w : World) (x : option string) (m : Machine) (v : Value)
            (h : Handler) (e : ChanEvent),
       reachable m ->
       snd (CrustoceanAgent.connectAndJoin w x m) = Returned v ->
       occurrences h (registered (ev_name e) (listeners (this m))) = 1 ->
       calls_to h
         (added (fst (CrustoceanAgent.connectAndJoin w x m))
            (emission (left_open m (fst (CrustoceanAgent.connectAndJoin w x m)))
               (fst (CrustoceanAgent.connectAndJoin w x m)) e))
       = 1).
Proof.
  intros H.
  assert (R : reachable Sample.listening).
  { exact (reach_step Sample.world (CallOn "error" 8)
             (reach_step Sample.world (CallOn "message" 7) in_room_reachable)). }
  specialize (H Sample.world (Some "a") Sample.listening
                (VJoined (Some "r1") ["bot"]) 7 (Sample.message_event "hi") R).
  assert (S : snd (CrustoceanAgent.connectAndJoin Sample.world (Some "a")
                     Sample.listening)
              = Returned (VJoined (Some "r1") ["bot"]))
    by (vm_compute; reflexivity).
  assert (O : occurrences 7
                (registered (ev_name (Sample.message_event "hi"))
                   (listeners (this Sample.listening))) = 1)
    by (vm_compute; reflexivity).
  specialize (H S O). vm_compute in H. discriminate H.
Qed.

(** ** joinAllMemberAgencies *)

Lemma is_warning_quiet_http (r : Request) : is_warning (Http r) = false.
Proof. reflexivity. Qed.
Lemma is_warning_quiet_open sid url t : is_warning (ChannelOpen sid url t) = false.
Proof. reflexivity. Qed.
Lemma is_warning_quiet_call h ev d : is_warning (HandlerCall h ev d) = false.
Proof. reflexivity. Qed.
Lemma is_warning_quiet_emit sid o : is_warning (ChannelEmit sid o) = false.
Proof. reflexivity. Qed.

Lemma quiet_warnings (m m' : Machine) :
  quiet is_warning m m' ->
  filter is_warning (log m') = filter is_warning (log m).
Proof.
  intros (l & E & F). rewrite E, filter_app.
  rewrite (filter_none is_warning l), app_nil_r; [reflexivity|].
  intros e I. rewrite forallb_forall in F. apply negb_true_iff. now apply F.
Qed.

Lemma join_warnings (w : World) (x : string) (m : Machine) :
  filter is_warning (log (fst (CrustoceanAgent.join w x m)))
  = filter is_warning (log m).
Proof.
  apply quiet_warnings.
  apply (quiet_join is_warning is_warning_quiet_http is_warning_quiet_open
           is_warning_quiet_call w x is_warning_quiet_emit).
Qed.

(** The loop of joinAllMemberAgencies against the sequential run. *)
Lemma join_each_sequential (w : World) (members : list Agency.t) :
  forall (joined : list string) (m : Machine),
    let run := sequential_joins w (map room_name members) m in
    let m' := fst (CrustoceanAgent.join_each w members joined m) in
    let r := snd (CrustoceanAgent.join_each w members joined m) in
    map fst run = firstn (List.length run) (map room_name members)
    /\ (forall msg, r <> Thrown msg)
    /\ (existsb unsettled run = false ->
        map fst run = map room_name members
        /\ r = Returned (joined ++ map fst (filter succeeded run))%list)
    /\ (existsb unsettled run = true -> r = Pending)
    /\ filter is_warning (log m')
       = (filter is_warning (log m) ++ map warning_of (filter rejected run))%list.
Proof.
  induction members as [|a rest IH]; intros joined m;
    cbn [map sequential_joins CrustoceanAgent.join_each].
  - cbn. rewrite !app_nil_r. repeat split; try discriminate; auto.
  - fold (room_name a).
    pose proof (join_warnings w (room_name a) m) as Wn.
    destruct (CrustoceanAgent.join w (room_name a) m) as [m1 [v|msg|]];
      cbn [fst] in Wn.
    + specialize (IH (joined ++ [room_name a])%list m1). cbn zeta in IH.
      destruct IH as (P & T & O & Pe & Wr).
      cbn [map fst List.length firstn existsb unsettled snd orb filter succeeded
           rejected].
      split; [now rewrite P at 1|]. split; [exact T|].
      split; [|split].
      * intros U. destruct (O U) as [O1 O2]. split; [now rewrite O1|].
        rewrite O2. cbn [map fst]. now rewrite <- app_assoc.
      * exact Pe.
      * now rewrite Wr, Wn.
    + specialize (IH joined
                    (record (ConsoleWarn ("Failed to join " ++ room_name a ++ ":") msg) m1)).
      cbn zeta in IH. destruct IH as (P & T & O & Pe & Wr).
      cbn [map fst List.length firstn existsb unsettled snd orb filter succeeded
           rejected].
      split; [now rewrite P at 1|]. split; [exact T|].
      split; [|split].
      * intros U. destruct (O U) as [O1 O2]. split; [now rewrite O1 | exact O2].
      * exact Pe.
      * rewrite Wr. cbn [record log]. rewrite filter_app. cbn [filter is_warning].
        rewrite Wn, <- app_assoc. reflexivity.
    + cbn. rewrite !app_nil_r. repeat split; try discriminate; auto.
Qed.

(** C3. joinAllMemberAgencies joins the rooms of the directory whose
    isMember flag is set, in directory order and one after the other (each
    join starts in the state the previous one left when it settled); a
    rejected join is logged as a warning and the loop goes on; nothing is
    thrown; when every join settles the result is the list of the names
    whose join succeeded, in that order (while a join that never settles
    leaves the whole call pending). *)
Theorem joinAllMemberAgencies_sequential
  (w : World) (m m0 : Machine) (dir : list Agency.t) :
  CrustoceanAgent.getAgencies w m = (m0, Returned dir) ->
  let rooms := map room_name (filter Agency.isMember dir) in
  let run := sequential_joins w rooms m0 in
  let m' := fst (CrustoceanAgent.joinAllMemberAgencies w m) in
  let r := snd (CrustoceanAgent.joinAllMemberAgencies w m) in
  map fst run = firstn (List.length run) rooms
  /\ (forall msg, r <> Thrown msg)
  /\ (existsb unsettled run = false ->
      map fst run = rooms /\ r = Returned (map fst (filter succeeded run)))
  /\ (existsb unsettled run = true -> r = Pending)
  /\ filter is_warning (log m')
     = (filter is_warning (log m0) ++ map warning_of (filter rejected run))%list.
Proof.
  intros E rooms run m' r. subst rooms run m' r.
  unfold CrustoceanAgent.joinAllMemberAgencies.
  rewrite (bind_returned _ _ _ _ _ E).
  apply (join_each_sequential w (filter Agency.isMember dir) [] m0).
Qed.

Lemma joinAllMemberAgencies_sequential_witness :
  CrustoceanAgent.getAgencies Sample.world Sample.in_room
  = (fst (CrustoceanAgent.getAgencies Sample.world Sample.in_room),
     Returned Sample.directory)
  /\ snd (CrustoceanAgent.joinAllMemberAgencies Sample.world Sample.in_room)
     = Returned ["a"]
  /\ filter is_warning
       (log (fst (CrustoceanAgent.joinAllMemberAgencies Sample.world Sample.in_room)))
     = [ConsoleWarn "Failed to join c:" "Room is closed"].
Proof.
  split; [reflexivity|].
  pose proof (joinAllMemberAgencies_sequential Sample.world Sample.in_room
                (fst (CrustoceanAgent.getAgencies Sample.world Sample.in_room))
                Sample.directory eq_refl) as H.
  cbn zeta in H. destruct H as (_ & _ & O & _ & Wn).
  split.
  - apply (O eq_refl).
  - exact Wn.
Defined.

(** * Further properties of the session *)

(** ** send, connect, disconnect *)

(** X1. send returns exactly when the channel is connected and a room is
    joined; it then adds one effect, the `send-message` emission to the
    current room with the trimmed content, the type when it is truthy and
    the metadata as given, and leaves the session as it was. *)
Theorem send_emits_once (content : string) (options : SendOptions) (m : Machine) :
  (snd (CrustoceanAgent.send content options m) = Returned tt <->
   socket_connected (this m) = true /\ truthy (currentAgencyId (this m)) = true)
  /\ (snd (CrustoceanAgent.send content options m) <> Pending)
  /\ (forall so room,
        socket (this m) = Some so -> connected so = true ->
        currentAgencyId (this m) = Some room -> room <> "" ->
        let m' := fst (CrustoceanAgent.send content options m) in
        this m' = this m
        /\ added m m'
           = [ChannelEmit (sock_id so)
                (SendMessage room (trim content)
                   (if truthy (o_type options) then o_type options else None)
                   (o_metadata options))]).
Proof.
  unfold CrustoceanAgent.send, socket_connected, falsy.
  split; [|split].
  - destruct (socket (this m)) as [so|]; cbn [negb orb snd].
    + destruct (connected so); cbn [negb orb].
      * destruct (currentAgencyId (this m)) as [room|]; cbn [truthy negb].
        -- destruct (is_empty room); cbn [negb snd]; split; intros H;
             try discriminate; try (destruct H; discriminate); auto.
        -- cbn [snd]. split; [discriminate | intros [_ H]; discriminate].
      * cbn [snd]. split; [discriminate | intros [H _]; discriminate].
    + split; [discriminate | intros [H _]; discriminate].
  - destruct (socket (this m)) as [so|]; cbn [negb orb snd]; [|discriminate].
    destruct (connected so); cbn [negb orb snd]; [|discriminate].
    destruct (currentAgencyId (this m)) as [room|]; cbn [truthy negb snd];
      [|discriminate].
    destruct (is_empty room); cbn [negb snd]; discriminate.
  - intros so room So Co Cu Ne. rewrite So, Cu. cbn [truthy].
    apply is_empty_false in Ne. rewrite Co, Ne. cbn [negb orb fst].
    split; [reflexivity|]. apply added_app. reflexivity.
Qed.

Lemma send_emits_once_witness :
  socket_connected (this Sample.in_room) = true
  /\ added Sample.in_room
       (fst (CrustoceanAgent.send "  hi there  "
               {| o_type := Some ""; o_metadata := None |} Sample.in_room))
     = [ChannelEmit 0 (SendMessage "r1" "hi there" None None)].
Proof.
  split; [vm_compute; reflexivity|].
  refine (eq_trans
            (proj2 (proj2 (proj2 (send_emits_once "  hi there  "
                             {| o_type := Some ""; o_metadata := None |}
                             Sample.in_room))
                      {| sock_id := 0; connected := true;
                         callbacks :=
                           [("connect", {| cb_fn := OnConnect 0; cb_once := false |});
                            ("connect_error",
                             {| cb_fn := OnConnectError 0; cb_once := false |})] |}
                      "r1" _ eq_refl _ _)) _).
  - vm_compute; reflexivity.
  - vm_compute; reflexivity.
  - discriminate.
  - vm_compute; reflexivity.
Defined.

(** X2. connect makes one request, the POST of the agent token to the auth
    endpoint, and touches nothing but the credential and the identity: a
    rejection throws the server's error (or "Auth failed: <status>") and
    leaves the whole session as it was, an earlier credential included; a
    success replaces the credential and the identity by the ones received. *)
Theorem connect_replaces_credential (w : World) (m : Machine) :
  let m' := fst (CrustoceanAgent.connect w m) in
  let r := snd (CrustoceanAgent.connect w m) in
  let rq := {| req_method := "POST";
               req_url := request_url (apiUrl (this m)) EpAuth;
               req_query := []; req_bearer := None;
               req_body := Some (agentToken (this m)) |} in
  added m m' = [Http rq]
  /\ core m' = core m
  /\ match auth_endpoint w (log m ++ [Http rq])%list with
     | AuthRejected status error =>
         this m' = this m
         /\ r = Thrown (or_else error ("Auth failed: " ++ string_of_nat status))
     | AuthOk tok u =>
         token (this m') = Some tok /\ user (this m') = Some u
         /\ r = Returned tt
     end.
Proof.
  cbn zeta. unfold CrustoceanAgent.connect. cbn [record log].
  destruct (auth_endpoint w _) as [tok u|status error]; cbn [fst snd].
  - split; [now apply added_app|]. split; [reflexivity|]. auto.
  - split; [now apply added_app|]. split; [reflexivity|]. auto.
Qed.

(** X3. disconnect closes the channel the session holds (one close, none
    without a channel), clears the channel and the current room and keeps
    the credential, the identity and the registry; a second disconnect
    changes nothing, and send after disconnect throws the precondition
    error. *)
Theorem disconnect_idempotent (m : Machine) :
  let m' := CrustoceanAgent.disconnect m in
  CrustoceanAgent.disconnect m' = m'
  /\ socket (this m') = None /\ currentAgencyId (this m') = None
  /\ token (this m') = token (this m) /\ user (this m') = user (this m)
  /\ listeners (this m') = listeners (this m)
  /\ added m m'
     = match socket (this m) with
       | Some so => [ChannelClose (sock_id so)]
       | None => []
       end
  /\ forall content options,
       CrustoceanAgent.send content options m'
       = (m', Thrown CrustoceanAgent.send_precondition).
Proof.
  cbn zeta. unfold CrustoceanAgent.disconnect.
  destruct (socket (this m)) as [so|] eqn:So.
  - repeat split; try reflexivity. now apply added_app.
  - cbn [update_agent this set_currentAgencyId socket]. rewrite So.
    repeat split; try reflexivity.
    + apply added_app. cbn. now rewrite app_nil_r.
    + intros content options. unfold CrustoceanAgent.send, socket_connected.
      cbn [update_agent this set_currentAgencyId socket]. now rewrite So.
Qed.
(** ** on and off *)

Lemma occurrences_without_first_other (h h' : Handler) (l : list Handler) :
  h' <> h -> occurrences h' (without_first h l) = occurrences h' l.
Proof.
  intros ne. unfold occurrences.
  induction l as [|x l IH]; [reflexivity|].
  rewrite without_first_cons. destruct (Nat.eqb_spec x h) as [->|nx].
  - cbn [count_occ]. destruct (Nat.eq_dec h h'); [congruence | reflexivity].
  - cbn [count_occ]. destruct (Nat.eq_dec x h'); now rewrite IH.
Qed.

Lemma without_first_snoc (h : Handler) (l : list Handler) :
  ~ In h l -> without_first h (l ++ [h]) = l.
Proof.
  induction l as [|x l IH]; intros N; cbn [app]; rewrite without_first_cons.
  - now rewrite Nat.eqb_refl.
  - destruct (Nat.eqb_spec x h) as [->|nx].
    + exfalso. apply N. now left.
    + rewrite IH; [reflexivity|]. intros I. apply N. now right.
Qed.

Lemma occurrences_on_off (h h' : Handler) (l : list Handler) :
  occurrences h' (without_first h (l ++ [h])) = occurrences h' l.
Proof.
  destruct (Nat.eq_dec h' h) as [->|ne].
  - rewrite occurrences_without_first, occurrences_app, occurrences_self. lia.
  - rewrite occurrences_without_first_other by exact ne.
    rewrite occurrences_app. unfold occurrences at 2. cbn [count_occ].
    destruct (Nat.eq_dec h h'); [congruence | lia].
Qed.

Lemma registered_on_off (event e : string) (h : Handler) (m : Machine) :
  registered e
    (listeners (this (CrustoceanAgent.off event h (CrustoceanAgent.on event h m))))
  = if String.eqb e event
    then without_first h (registered e (listeners (this m)) ++ [h])
    else registered e (listeners (this m)).
Proof.
  rewrite registered_off, !registered_on.
  destruct (String.eqb e event); reflexivity.
Qed.

Lemma attached_on_off (event e : string) (h : Handler) (m : Machine) :
  attached e (this (CrustoceanAgent.off event h (CrustoceanAgent.on event h m)))
  = match socket (this m) with
    | Some _ =>
        if String.eqb event e then without_first h (attached e (this m) ++ [h])
        else attached e (this m)
    | None => []
    end.
Proof.
  rewrite attached_off, !attached_on.
  destruct (socket (this m)); destruct (String.eqb event e); reflexivity.
Qed.

Lemma attached_no_socket (e : string) (m : Machine) :
  socket (this m) = None -> attached e (this m) = [].
Proof. intros S. unfold attached. now rewrite S. Qed.

(** X4. off after on of the same handler is a round trip: for every event
    and handler the number of registrations and the number of attachments
    to the live channel are what they were, and the lists themselves are
    unchanged when the handler was not there before. *)
Theorem on_off_round_trip (event : string) (h : Handler) (m : Machine) :
  let m' := CrustoceanAgent.off event h (CrustoceanAgent.on event h m) in
  (forall e h',
     occurrences h' (registered e (listeners (this m')))
     = occurrences h' (registered e (listeners (this m))))
  /\ (forall e h',
        occurrences h' (attached e (this m'))
        = occurrences h' (attached e (this m)))
  /\ (~ In h (registered event (listeners (this m))) ->
      forall e, registered e (listeners (this m'))
                = registered e (listeners (this m)))
  /\ (~ In h (attached event (this m)) ->
      forall e, attached e (this m') = attached e (this m))
  /\ added m m' = [].
Proof.
  cbn zeta. split; [|split; [|split; [|split]]].
  - intros e h'. rewrite registered_on_off.
    destruct (String.eqb e event); [apply occurrences_on_off | reflexivity].
  - intros e h'. rewrite attached_on_off.
    destruct (socket (this m)) eqn:So.
    + destruct (String.eqb event e); [apply occurrences_on_off | reflexivity].
    + now rewrite attached_no_socket.
  - intros N e. rewrite registered_on_off.
    destruct (String.eqb_spec e event) as [->|ne]; [|reflexivity].
    now apply without_first_snoc.
  - intros N e. rewrite attached_on_off.
    destruct (socket (this m)) eqn:So.
    + destruct (String.eqb_spec event e) as [<-|ne]; [|reflexivity].
      now apply without_first_snoc.
    + now rewrite attached_no_socket.
  - apply added_app. cbn. now rewrite app_nil_r.
Qed.

Lemma on_off_round_trip_witness :
  ~ In 9 (registered "message" (listeners (this Sample.listening)))
  /\ registered "message"
       (listeners (this (CrustoceanAgent.off "message" 9
                           (CrustoceanAgent.on "message" 9 Sample.listening))))
     = registered "message" (listeners (this Sample.listening)).
Proof.
  assert (N : ~ In 9 (registered "message" (listeners (this Sample.listening)))).
  { vm_compute. intros [H|[]]. discriminate. }
  split; [exact N|].
  exact (proj1 (proj2 (proj2 (on_off_round_trip "message" 9 Sample.listening)))
           N "message").
Defined.

(** X5. on always records the handler at the end of the event's list; with
    a channel it takes effect at once, the next emission of the event calls
    the handler once more than it would have; without a channel nothing is
    attached and an emission calls nobody. *)
Theorem on_takes_effect_live (event : string) (h : Handler) (m : Machine)
  (e : ChanEvent) :
  let m' := CrustoceanAgent.on event h m in
  registered event (listeners (this m'))
  = (registered event (listeners (this m)) ++ [h])%list
  /\ (socket (this m) <> None -> ev_name e = event ->
      added m' (dispatch m' e)
      = (added m (dispatch m e) ++ [HandlerCall h event (ev_data e)])%list
      /\ calls_to h (added m' (dispatch m' e))
         = S (calls_to h (added m (dispatch m e))))
  /\ (socket (this m) = None ->
      (forall ev, attached ev (this m') = []) /\ dispatch m' e = m').
Proof.
  cbn zeta. split; [|split].
  - rewrite registered_on. now rewrite String.eqb_refl.
  - intros So N. subst event.
    erewrite !added_app by apply log_dispatch.
    rewrite attached_on. destruct (socket (this m)); [|congruence].
    rewrite String.eqb_refl.
    assert (E : calls_for (attached (ev_name e) (this m) ++ [h]) e
                = (calls_for (attached (ev_name e) (this m)) e
                   ++ [HandlerCall h (ev_name e) (ev_data e)])%list)
      by (unfold calls_for; now rewrite map_app).
    split; [exact E|].
    rewrite !calls_to_calls_for, occurrences_app, occurrences_self. lia.
  - intros So. split.
    + intros ev. rewrite attached_on. now rewrite So.
    + unfold dispatch, CrustoceanAgent.on.
      cbn [on_socket update_agent this socket set_socket set_listeners].
      now rewrite So.
Qed.

Lemma on_takes_effect_live_witness :
  socket (this Sample.in_room) <> None
  /\ calls_to 7
       (added (CrustoceanAgent.on "message" 7 Sample.in_room)
          (dispatch (CrustoceanAgent.on "message" 7 Sample.in_room)
             (Sample.message_event "hi")))
     = S (calls_to 7
            (added Sample.in_room
               (dispatch Sample.in_room (Sample.message_event "hi")))).
Proof.
  assert (S : socket (this Sample.in_room) <> None)
    by (vm_compute; discriminate).
  split; [exact S|].
  exact (proj2 (proj1 (proj2 (on_takes_effect_live "message" 7 Sample.in_room
                                (Sample.message_event "hi"))) S eq_refl)).
Defined.
(** ** connectSocket and join on a channel that is gone *)

Lemma dispatch_open_connect (m : Machine) :
  dispatch (on_socket (set_connected true) (CrustoceanAgent.open_channel m))
    {| ev_name := "connect"; ev_data := empty_payload |}
  = settle (nextId m) (Fulfilled (VSocket (nextId m)))
      (on_socket (set_connected true) (CrustoceanAgent.open_channel m)).
Proof. reflexivity. Qed.

Lemma dispatch_open_error (m : Machine) (msg : string) :
  dispatch (CrustoceanAgent.open_channel m)
    {| ev_name := "connect_error"; ev_data := error_payload msg |}
  = settle (nextId m) (Rejected msg) (CrustoceanAgent.open_channel m).
Proof. reflexivity. Qed.

(** X6. With a credential at hand, connectSocket replaces the session's
    channel by a fresh one in every case and attaches none of the caller's
    handlers to it; the registry and the current room stay as they were.
    It returns the channel when the channel connects, throws the channel's
    error when it reports one and stays pending when it reports nothing; in
    the last two cases the session is left holding a channel that is not
    connected. *)
Theorem connectSocket_outcome (w : World) (m : Machine) :
  allocated m -> truthy (token (this m)) = true ->
  let k := nextId m in
  let m' := fst (CrustoceanAgent.connectSocket w m) in
  let r := snd (CrustoceanAgent.connectSocket w m) in
  (forall ev, attached ev (this m') = [])
  /\ listeners (this m') = listeners (this m)
  /\ currentAgencyId (this m') = currentAgencyId (this m)
  /\ match channel_open w (log (CrustoceanAgent.open_channel m)) with
     | OpenConnected => r = Returned (VSocket k) /\ channel_of m' = Some (k, true)
     | OpenError msg => r = Thrown msg /\ channel_of m' = Some (k, false)
     | OpenSilent => r = Pending /\ channel_of m' = Some (k, false)
     end.
Proof.
  intros A T. cbn zeta.
  unfold CrustoceanAgent.connectSocket, bind, CrustoceanAgent.ensure_token.
  rewrite T. cbn [ret fst snd].
  destruct (channel_open w (log (CrustoceanAgent.open_channel m))) as [|msg|].
  - rewrite dispatch_open_connect.
    split; [|split; [|split; [|split]]]; try reflexivity.
    + intros ev. apply (open_channel_attached ev m).
    + rewrite (await_fresh m _ [(nextId m, Fulfilled (VSocket (nextId m)))] A)
        by reflexivity.
      cbn. now rewrite Nat.eqb_refl.
  - rewrite dispatch_open_error.
    split; [|split; [|split; [|split]]]; try reflexivity.
    + intros ev. apply (open_channel_attached ev m).
    + rewrite (await_fresh m _ [(nextId m, Rejected msg)] A) by reflexivity.
      cbn. now rewrite Nat.eqb_refl.
  - split; [|split; [|split; [|split]]]; try reflexivity.
    + intros ev. apply (open_channel_attached ev m).
    + now rewrite (await_fresh m _ [] A) by (cbn; now rewrite app_nil_r).
Qed.

Lemma sample_allocated : allocated Sample.listening.
Proof.
  split.
  - intros ev cb p I C. vm_compute in I.
    repeat (destruct I as [E|I]; [inversion E; subst; cbn in C; inversion C;
                                  vm_compute; lia|]).
    destruct I.
  - intros p s I. vm_compute in I.
    repeat (destruct I as [E|I]; [inversion E; vm_compute; lia|]).
    destruct I.
Qed.

Lemma connectSocket_outcome_witness :
  truthy (token (this Sample.listening)) = true
  /\ attached "message"
       (this (fst (CrustoceanAgent.connectSocket Sample.world Sample.listening)))
     = []
  /\ registered "message"
       (listeners
          (this (fst (CrustoceanAgent.connectSocket Sample.world Sample.listening))))
     = [7].
Proof.
  split; [vm_compute; reflexivity|].
  destruct (connectSocket_outcome Sample.world Sample.listening sample_allocated)
    as (A & L & _); [vm_compute; reflexivity|].
  split; [exact (A "message")|].
  rewrite L. vm_compute. reflexivity.
Defined.

Lemma listeners_ensure_token (w : World) (m : Machine) :
  listeners (this (fst (CrustoceanAgent.ensure_token w m))) = listeners (this m).
Proof.
  pose proof (core_ensure_token w m) as C. unfold core in C. now inversion C.
Qed.

Lemma listeners_getAgencies (w : World) (m : Machine) :
  listeners (this (fst (CrustoceanAgent.getAgencies w m))) = listeners (this m).
Proof.
  pose proof (core_getAgencies w m) as C. unfold core in C. now inversion C.
Qed.

Lemma listeners_handshake (w : World) (a : Agency.t) (m : Machine) :
  listeners (this (fst (CrustoceanAgent.handshake w a m))) = listeners (this m).
Proof.
  unfold CrustoceanAgent.handshake. destruct (socket (this m)) as [so|];
    [|reflexivity].
  cbn [fst].
  destruct (frame_parts _ _ (frame_deliver
              (channel_feed w (log (CrustoceanAgent.request_join a so m)))
              (CrustoceanAgent.request_join a so m))) as (_ & L & _).
  rewrite L. reflexivity.
Qed.

(** On a connected channel join keeps the registry. *)
Lemma listeners_join_connected (w : World) (x : string) (m : Machine) :
  socket_connected (this m) = true ->
  listeners (this (fst (CrustoceanAgent.join w x m))) = listeners (this m).
Proof.
  intros C. unfold CrustoceanAgent.join, bind at 1, CrustoceanAgent.ensure_socket.
  rewrite C. cbn [ret]. unfold bind.
  pose proof (listeners_getAgencies w m) as L.
  destruct (CrustoceanAgent.getAgencies w m) as [m1 [dir|msg|]]; cbn [fst] in *;
    try exact L.
  destruct (find _ dir) as [a|]; [|exact L].
  now rewrite listeners_handshake.
Qed.

(** X7. join on a session whose channel is not connected opens a new
    channel and goes on there, but it does not re-attach the registry: when
    it is over, whatever its outcome, the registry is what it was and none
    of the caller's handlers is on the new channel, so an event the new
    channel delivers calls no handler.  The channel that was replaced is
    not closed and keeps its listeners: an event it delivers still calls
    the handlers that were attached to it. *)
Theorem join_reconnect_attaches_nothing
  (w : World) (x : string) (m m1 : Machine) (v : Value) :
  reachable m -> socket_connected (this m) = false ->
  CrustoceanAgent.connectSocket w m = (m1, Returned v) ->
  let m' := fst (CrustoceanAgent.join w x m) in
  channel_of m' = channel_of m1
  /\ listeners (this m') = listeners (this m)
  /\ (forall ev, attached ev (this m') = [])
  /\ (forall e, added m' (dispatch m' e) = [])
  /\ filter is_close (added m m') = []
  /\ (forall so e,
        socket (this m) = Some so ->
        added m' (snd (dispatch_on so m' e))
        = calls_for (attached (ev_name e) (this m)) e).
Proof.
  intros R C E. cbn zeta.
  split; [|split; [|split; [|split; [|split]]]].
  5: apply quiet_added, join_closes_nothing.
  5: { intros so e So. erewrite added_app by apply log_dispatch_on.
       now rewrite (attached_socket _ _ _ So). }
  all: pose proof (reachable_well_formed m R) as W.
  all: destruct (connectSocket_returned w m m1 v W E) as (W1 & C1 & A1 & L1).
  all: assert (J : CrustoceanAgent.join w x m = CrustoceanAgent.join w x m1)
         by (unfold CrustoceanAgent.join, bind at 1 3, CrustoceanAgent.ensure_socket;
             rewrite C, C1; unfold bind at 1; rewrite E; reflexivity).
  all: rewrite J.
  all: destruct (join_attached w x m1 W1 C1) as (_ & F & A).
  all: assert (At : forall ev,
                 attached ev (this (fst (CrustoceanAgent.join w x m1))) = [])
         by (intros ev; now rewrite A).
  - exact F.
  - rewrite listeners_join_connected by exact C1. exact L1.
  - exact At.
  - intros e. erewrite added_app by apply log_dispatch. now rewrite At.
Qed.

Lemma join_reconnect_attaches_nothing_witness :
  reachable sample_dropped
  /\ socket_connected (this sample_dropped) = false
  /\ registered "message"
       (listeners (this (fst (CrustoceanAgent.join Sample.world "a" sample_dropped))))
     = [7]
  /\ attached "message"
       (this (fst (CrustoceanAgent.join Sample.world "a" sample_dropped)))
     = []
  /\ (forall so,
        socket (this sample_dropped) = Some so ->
        added (fst (CrustoceanAgent.join Sample.world "a" sample_dropped))
          (snd (dispatch_on so
                  (fst (CrustoceanAgent.join Sample.world "a" sample_dropped))
                  (Sample.message_event "hi")))
        = [HandlerCall 7 "message" (ev_data (Sample.message_event "hi"))]).
Proof.
  assert (R : reachable sample_dropped).
  { exact (reach_step Sample.world ServerDrop
             (reach_step Sample.world (CallOn "error" 8)
                (reach_step Sample.world (CallOn "message" 7) in_room_reachable))). }
  assert (C : socket_connected (this sample_dropped) = false)
    by (vm_compute; reflexivity).
  assert (E : CrustoceanAgent.connectSocket Sample.world sample_dropped
              = (fst (CrustoceanAgent.connectSocket Sample.world sample_dropped),
                 Returned (VSocket 2)))
    by (vm_compute; reflexivity).
  split; [exact R|]. split; [exact C|].
  destruct (join_reconnect_attaches_nothing Sample.world "a" sample_dropped _ _ R C E)
    as (_ & L & A & _ & _ & O).
  split; [|split; [exact (A "message")|]].
  - rewrite L. vm_compute. reflexivity.
  - intros so So. rewrite (O so (Sample.message_event "hi") So).
    vm_compute. reflexivity.
Defined.

(** ** The current room after join *)

Lemma room_invoke (event : string) (data : Payload) (m : Machine) (cb : Callback) :
  currentAgencyId (this (invoke event data m cb))
  = match cb_fn cb with
    | OnJoined _ => p_agencyId data
    | _ => currentAgencyId (this m)
    end.
Proof.
  destruct cb as [fn once]. unfold invoke. cbn [cb_once cb_fn].
  destruct fn, once; cbn; try reflexivity;
    destruct (socket (this m)); reflexivity.
Qed.

Lemma room_fold_kept (event : string) (data : Payload) (l : list Callback) :
  forall m,
    currentAgencyId (this m) = p_agencyId data ->
    currentAgencyId (this (fold_left (invoke event data) l m)) = p_agencyId data.
Proof.
  induction l as [|cb l IH]; intros m E; cbn [fold_left]; [exact E|].
  apply IH. rewrite room_invoke. now destruct (cb_fn cb).
Qed.

Lemma room_fold_joined (event : string) (data : Payload) (l : list Callback) :
  forall m cb p,
    In cb l -> cb_fn cb = OnJoined p ->
    currentAgencyId (this (fold_left (invoke event data) l m)) = p_agencyId data.
Proof.
  induction l as [|c l IH]; intros m cb p I F; [destruct I|].
  cbn [fold_left]. destruct I as [->|I].
  - apply room_fold_kept. rewrite room_invoke, F. reflexivity.
  - now apply (IH _ cb p).
Qed.

Lemma listening_incl (fn : Closure) (a b : Agent) :
  incl (channel_callbacks b) (channel_callbacks a) ->
  listening fn b -> listening fn a.
Proof.
  intros I (ev & cb & H & F). exists ev, cb. split; [now apply I|exact F].
Qed.

Lemma dispatch_callbacks (m : Machine) (e : ChanEvent) :
  incl (channel_callbacks (this (dispatch m e))) (channel_callbacks (this m)).
Proof.
  unfold dispatch. destruct (socket (this m)) as [so|] eqn:So;
    [|apply incl_refl].
  apply (fold_invoke_effects (ev_name e) (ev_data e) (listeners_of (ev_name e) so) m).
Qed.

(** When no join waits, an event leaves the current room alone. *)
Lemma dispatch_no_join (m : Machine) (e : ChanEvent) :
  no_join_waiting m ->
  no_join_waiting (dispatch m e)
  /\ currentAgencyId (this (dispatch m e)) = currentAgencyId (this m).
Proof.
  intros N. split.
  - intros p L. apply (N p).
    exact (listening_incl _ _ _ (dispatch_callbacks m e) L).
  - unfold dispatch. destruct (socket (this m)) as [so|] eqn:So; [|reflexivity].
    destruct (fold_invoke_effects (ev_name e) (ev_data e)
                (listeners_of (ev_name e) so) m) as (_ & _ & [E|(cb & p & I & F)]);
      [exact E|].
    exfalso. apply (N p). exists (ev_name e), cb. split; [|exact F].
    unfold channel_callbacks. rewrite So. now apply listeners_of_in.
Qed.

Lemma deliver_no_join (events : list ChanEvent) :
  forall m,
    no_join_waiting m ->
    no_join_waiting (deliver events m)
    /\ currentAgencyId (this (deliver events m)) = currentAgencyId (this m).
Proof.
  induction events as [|e events IH]; intros m N; [now split|].
  unfold deliver. cbn [fold_left]. fold (deliver events (dispatch m e)).
  destruct (dispatch_no_join m e N) as [N1 E1].
  destruct (IH _ N1) as [N2 E2]. split; [exact N2|congruence].
Qed.

Lemma spent_no_join (k : nat) (s : Settlement) (m m' : Machine) :
  only_join_waiting k m ->
  incl (channel_callbacks (this m')) (channel_callbacks (this m)) ->
  spent k s m' -> no_join_waiting m'.
Proof.
  intros [_ O] I [L _] p Li.
  assert (p = k) by (apply O; exact (listening_incl _ _ _ I Li)). subst p.
  exact (not_listening k (OnJoined k) (this m') L eq_refl Li).
Qed.

(** The callbacks of an armed attempt, by the event they listen to. *)
Lemma armed_callback (k : nat) (m : Machine) (ev : string) (cb : Callback) (p : nat) :
  only_join_waiting k m ->
  In (ev, cb) (channel_callbacks (this m)) -> cb_fn cb = OnJoined p ->
  ev = "agency-joined".
Proof.
  intros [[L _] O] I F.
  assert (p = k) by (apply O; now exists ev, cb). subst p.
  assert (J : In (ev, cb) (listeners_of_promise k (this m))).
  { apply filter_In. split; [exact I|].
    unfold belongs_to. cbn. rewrite F. cbn. apply Nat.eqb_refl. }
  rewrite L in J. destruct J as [J|[J|[]]].
  - now inversion J.
  - inversion J. subst cb. discriminate F.
Qed.

Lemma dispatch_only_join (k : nat) (m : Machine) (e : ChanEvent) :
  only_join_waiting k m ->
  match settles_with e with
  | Some s =>
      no_join_waiting (dispatch m e)
      /\ currentAgencyId (this (dispatch m e))
         = match s with
           | Fulfilled _ => p_agencyId (ev_data e)
           | Rejected _ => currentAgencyId (this m)
           end
  | None =>
      only_join_waiting k (dispatch m e)
      /\ currentAgencyId (this (dispatch m e)) = currentAgencyId (this m)
  end.
Proof.
  intros O. pose proof O as [A Oth].
  pose proof (dispatch_armed k m e A) as D.
  pose proof (dispatch_callbacks m e) as I.
  destruct (armed_socket k m A) as [so So].
  assert (Room : ev_name e <> "agency-joined" ->
                 currentAgencyId (this (dispatch m e)) = currentAgencyId (this m)).
  { intros Ne. unfold dispatch. rewrite So.
    destruct (fold_invoke_effects (ev_name e) (ev_data e)
                (listeners_of (ev_name e) so) m) as (_ & _ & [E|(cb & p & Hc & F)]);
      [exact E|].
    exfalso. apply Ne. apply (armed_callback k m (ev_name e) cb p O); [|exact F].
    unfold channel_callbacks. rewrite So. now apply listeners_of_in. }
  unfold settles_with in *.
  destruct (String.eqb (ev_name e) "agency-joined") eqn:Ej.
  - split; [exact (spent_no_join k _ m _ O I D)|].
    apply String.eqb_eq in Ej.
    unfold dispatch. rewrite So.
    apply (room_fold_joined _ _ _ m (snd (joined_listener k)) k); [|reflexivity].
    unfold listeners_of. apply in_map_iff. exists (joined_listener k).
    split; [reflexivity|]. apply filter_In. split.
    + destruct A as [L _].
      assert (J : In (joined_listener k) (listeners_of_promise k (this m)))
        by (rewrite L; now left).
      apply filter_In in J. destruct J as [J _].
      unfold channel_callbacks in J. now rewrite So in J.
    + cbn. rewrite Ej. reflexivity.
  - assert (Ne : ev_name e <> "agency-joined")
      by (intros E; rewrite E in Ej; discriminate Ej).
    destruct (String.eqb (ev_name e) "error").
    + split; [exact (spent_no_join k _ m _ O I D)|exact (Room Ne)].
    + split; [|exact (Room Ne)]. split; [exact D|].
      intros p L. apply Oth. exact (listening_incl _ _ _ I L).
Qed.

Lemma deliver_only_join (k : nat) (events : list ChanEvent) :
  forall m,
    only_join_waiting k m ->
    match first_settling events with
    | Some (Fulfilled v) =>
        no_join_waiting (deliver events m)
        /\ exists a ms,
             v = VJoined a ms /\ currentAgencyId (this (deliver events m)) = a
    | Some (Rejected _) =>
        no_join_waiting (deliver events m)
        /\ currentAgencyId (this (deliver events m)) = currentAgencyId (this m)
    | None => currentAgencyId (this (deliver events m)) = currentAgencyId (this m)
    end.
Proof.
  induction events as [|e events IH]; intros m O; [reflexivity|].
  unfold deliver. cbn [fold_left first_settling]. fold (deliver events (dispatch m e)).
  pose proof (dispatch_only_join k m e O) as D.
  destruct (settles_with e) as [s|] eqn:Se.
  - destruct D as [N R].
    destruct (deliver_no_join events _ N) as [N' E]. rewrite E, R.
    destruct s as [v|msg]; [|now split].
    split; [exact N'|].
    unfold settles_with in Se.
    destruct (String.eqb (ev_name e) "agency-joined");
      [|destruct (String.eqb (ev_name e) "error"); discriminate Se].
    inversion Se. now eexists _, _.
  - destruct D as [O1 R]. specialize (IH _ O1).
    destruct (first_settling events) as [[v|msg]|].
    + exact IH.
    + destruct IH as [N' E]. split; [exact N'|congruence].
    + congruence.
Qed.

Lemma request_join_only (a : Agency.t) (so : Socket) (m : Machine) :
  allocated m -> socket (this m) = Some so -> no_join_waiting m ->
  only_join_waiting (nextId m) (CrustoceanAgent.request_join a so m)
  /\ currentAgencyId (this (CrustoceanAgent.request_join a so m))
     = currentAgencyId (this m).
Proof.
  intros A So N. split; [split|].
  - now apply request_join_armed.
  - intros p (ev & cb & I & F).
    unfold CrustoceanAgent.request_join, channel_callbacks in I.
    cbn in I. rewrite So in I. cbn in I.
    rewrite <- app_assoc in I. apply in_app_or in I. destruct I as [I|I].
    + exfalso. apply (N p). exists ev, cb. split; [|exact F].
      unfold channel_callbacks. now rewrite So.
    + destruct I as [I|[I|[]]]; inversion I; subst cb; cbn in F.
      * now inversion F.
      * discriminate F.
  - reflexivity.
Qed.

(** join on a connected channel: the directory, the match, the handshake. *)
Lemma join_on_channel (w : World) (x : string) (m : Machine) :
  socket_connected (this m) = true ->
  CrustoceanAgent.join w x m
  = match CrustoceanAgent.getAgencies w m with
    | (m1, Returned dir) =>
        match find (CrustoceanAgent.names x) dir with
        | Some a => CrustoceanAgent.handshake w a m1
        | None => (m1, Thrown (CrustoceanAgent.agency_not_found x))
        end
    | (m1, Thrown msg) => (m1, Thrown msg)
    | (m1, Pending) => (m1, Pending)
    end.
Proof.
  intros C. unfold CrustoceanAgent.join, bind at 1, CrustoceanAgent.ensure_socket.
  rewrite C. cbn [ret]. unfold bind.
  destruct (CrustoceanAgent.getAgencies w m) as [m1 [dir|msg|]]; try reflexivity.
  now destruct (find (CrustoceanAgent.names x) dir).
Qed.

(** X8. join on a connected channel on which no earlier join still waits:
    when it resolves, the room that becomes current is the one named in the
    acknowledgment it resolves with (the server's word, whatever was asked
    for); when it throws or stays pending, the current room is the one
    before the call.  Unless it stays pending, no join waits afterwards
    either. *)
Theorem join_current_room (w : World) (x : string) (m : Machine) :
  allocated m -> socket_connected (this m) = true -> no_join_waiting m ->
  let m' := fst (CrustoceanAgent.join w x m) in
  match snd (CrustoceanAgent.join w x m) with
  | Returned v =>
      no_join_waiting m'
      /\ exists a ms, v = VJoined a ms /\ currentAgencyId (this m') = a
  | Thrown _ =>
      no_join_waiting m' /\ currentAgencyId (this m') = currentAgencyId (this m)
  | Pending => currentAgencyId (this m') = currentAgencyId (this m)
  end.
Proof.
  intros A C N. cbn zeta. rewrite (join_on_channel w x m C).
  pose proof (core_getAgencies w m) as G. unfold core in G.
  injection G as E1 E2 E3 E4 E5 E6 E7.
  assert (A1 : allocated (fst (CrustoceanAgent.getAgencies w m))).
  { destruct A as [A1 A2]. unfold allocated, channel_callbacks in *.
    rewrite E3, E6, E7. now split. }
  assert (N1 : no_join_waiting (fst (CrustoceanAgent.getAgencies w m))).
  { intros p L. apply (N p). unfold listening, channel_callbacks in *.
    now rewrite <- E3. }
  rewrite <- E4. clear E1 E2 E3 E4 E5 E6 E7 A N C.
  destruct (CrustoceanAgent.getAgencies w m) as [m1 [dir|msg|]]; cbn [fst snd] in *;
    [|now split|reflexivity].
  destruct (find (CrustoceanAgent.names x) dir) as [a|];
    [|cbn [fst snd]; now split].
  unfold CrustoceanAgent.handshake.
  destruct (socket (this m1)) as [so|] eqn:So; [|now split].
  cbn [fst snd].
  destruct (request_join_only a so m1 A1 So N1) as [O R]. rewrite <- R.
  pose proof (deliver_only_join (nextId m1)
                (channel_feed w (log (CrustoceanAgent.request_join a so m1))) _ O) as D.
  pose proof (deliver_armed (nextId m1)
                (channel_feed w (log (CrustoceanAgent.request_join a so m1))) _
                (proj1 O)) as S.
  destruct (first_settling _) as [s|].
  - rewrite (await_spent _ _ _ S). destruct s as [v|msg]; exact D.
  - destruct S as [_ S]. unfold await.
    rewrite promise_state_settlements. unfold settlements_of in S. rewrite S.
    exact D.
Qed.

Lemma sample_no_join_waiting : no_join_waiting Sample.listening.
Proof.
  intros p (ev & cb & I & F). vm_compute in I.
  repeat (destruct I as [I|I]; [inversion I; subst cb; discriminate F|]).
  destruct I.
Qed.

Lemma join_current_room_witness :
  socket_connected (this Sample.listening) = true
  /\ currentAgencyId (this Sample.listening) = Some "r1"
  /\ currentAgencyId
       (this (fst (CrustoceanAgent.join Sample.world "b" Sample.listening)))
     = Some "r2".
Proof.
  assert (C : socket_connected (this Sample.listening) = true)
    by (vm_compute; reflexivity).
  split; [exact C|]. split; [vm_compute; reflexivity|].
  pose proof (join_current_room Sample.world "b" Sample.listening
                sample_allocated C sample_no_join_waiting) as H.
  cbv zeta in H.
  assert (E : snd (CrustoceanAgent.join Sample.world "b" Sample.listening)
              = Returned (VJoined (Some "r2") ["bot"]))
    by (vm_compute; reflexivity).
  rewrite E in H. destruct H as (_ & a & ms & V & R).
  rewrite R. now inversion V.
Defined.

(** ** The REST calls of the session *)

(** X9. getAgencies exchanges the agent token only when the session holds
    no credential.  With a credential it sends the directory request alone,
    under that credential, and keeps the credential whatever the answer.
    Without one it sends the exchange first: if the exchange is rejected it
    throws the exchange's error and no directory request is sent; if it
    succeeds the directory request carries the credential just received. *)
Theorem getAgencies_authenticates_first (w : World) (m : Machine) :
  let m' := fst (CrustoceanAgent.getAgencies w m) in
  let r := snd (CrustoceanAgent.getAgencies w m) in
  let a := this m in
  if truthy (token a)
  then added m m' = [Http (directory_request a (token a))]
       /\ token (this m') = token a
  else match auth_endpoint w (log m ++ [Http (auth_request a)])%list with
       | AuthRejected status error =>
           added m m' = [Http (auth_request a)]
           /\ r = Thrown (or_else error ("Auth failed: " ++ string_of_nat status))
           /\ token (this m') = token a
       | AuthOk tok u =>
           added m m' = [Http (auth_request a); Http (directory_request a (Some tok))]
           /\ token (this m') = Some tok
       end.
Proof.
  cbn zeta. unfold CrustoceanAgent.getAgencies, bind, CrustoceanAgent.ensure_token.
  destruct (truthy (token (this m))).
  - cbn [ret]. destruct (agencies_endpoint w _); cbn [fst snd];
      (split; [now apply added_app | reflexivity]).
  - unfold CrustoceanAgent.connect. cbn [record log].
    fold (auth_request (this m)).
    destruct (auth_endpoint w _) as [tok u|status error].
    + destruct (agencies_endpoint w _); cbn [fst snd];
        (split; [apply added_app; cbn; now rewrite <- app_assoc | reflexivity]).
    + cbn [fst snd]. split; [now apply added_app|]. now split.
Qed.

(** X10. Without a current room getRecentMessages always throws and
    sends no messages request.  With a credential at hand it throws "No
    agency joined" and leaves the session untouched; without one it first
    exchanges the agent token, so the only request it can have sent is
    that exchange. *)
Theorem getRecentMessages_without_room
  (w : World) (opts : MessagesOptions) (m : Machine) :
  truthy (currentAgencyId (this m)) = false ->
  let m' := fst (CrustoceanAgent.getRecentMessages w opts m) in
  let r := snd (CrustoceanAgent.getRecentMessages w opts m) in
  (exists msg, r = Thrown msg)
  /\ (forall rq, In (Http rq) (added m m') -> rq = auth_request (this m))
  /\ (truthy (token (this m)) = true ->
      m' = m /\ r = Thrown CrustoceanAgent.no_agency_joined).
Proof.
  intros R. cbn zeta.
  unfold CrustoceanAgent.getRecentMessages, bind, CrustoceanAgent.ensure_token.
  destruct (truthy (token (this m))).
  - cbn [ret].
    destruct (currentAgencyId (this m)) as [room|] eqn:Cu.
    + cbn in R. apply negb_false_iff in R. rewrite R. cbn [fst snd].
      split; [now eexists|]. split; [|now split].
      rewrite added_refl. intros rq [].
    + cbn [fst snd]. split; [now eexists|]. split; [|now split].
      rewrite added_refl. intros rq [].
  - unfold CrustoceanAgent.connect. cbn [record log].
    fold (auth_request (this m)).
    destruct (auth_endpoint w _) as [tok u|status error].
    + cbn [update_agent this set_token currentAgencyId record].
      destruct (currentAgencyId (this m)) as [room|] eqn:Cu.
      * cbn in R. apply negb_false_iff in R. rewrite R. cbn [fst snd].
        split; [now eexists|]. split; [|discriminate].
        erewrite added_app by reflexivity.
        intros rq [E|[]]. now inversion E.
      * cbn [fst snd]. split; [now eexists|]. split; [|discriminate].
        erewrite added_app by reflexivity.
        intros rq [E|[]]. now inversion E.
    + cbn [fst snd]. split; [now eexists|]. split; [|discriminate].
      erewrite added_app by reflexivity.
      intros rq [E|[]]. now inversion E.
Qed.

Lemma getRecentMessages_without_room_witness :
  truthy (currentAgencyId (this Sample.fresh)) = false
  /\ exists msg,
       snd (CrustoceanAgent.getRecentMessages Sample.world
              {| limit := None; before := None; mentions := None |} Sample.fresh)
       = Thrown msg.
Proof.
  split; [reflexivity|].
  exact (proj1 (getRecentMessages_without_room Sample.world
                  {| limit := None; before := None; mentions := None |}
                  Sample.fresh eq_refl)).
Defined.

(** X11. connectAndJoin starts with a token exchange even when the session
    holds a credential, and a rejected exchange ends it there: it throws
    the exchange's error, the exchange is the only effect, and the session
    (channel, room, registry, the earlier credential) is as it was. *)
Theorem connectAndJoin_rejected_exchange
  (w : World) (x : option string) (m : Machine) (status : nat)
  (error : option string) :
  auth_endpoint w (log m ++ [Http (auth_request (this m))])%list
  = AuthRejected status error ->
  let m' := fst (CrustoceanAgent.connectAndJoin w x m) in
  this m' = this m
  /\ added m m' = [Http (auth_request (this m))]
  /\ snd (CrustoceanAgent.connectAndJoin w x m)
     = Thrown (or_else error ("Auth failed: " ++ string_of_nat status)).
Proof.
  intros E. cbn zeta.
  unfold CrustoceanAgent.connectAndJoin, bind, CrustoceanAgent.connect.
  cbn [record log]. fold (auth_request (this m)). rewrite E. cbn [fst snd].
  split; [reflexivity|]. split; [now apply added_app | reflexivity].
Qed.
Lemma connectAndJoin_rejected_exchange_witness :
  token (this (fst (CrustoceanAgent.connectAndJoin sample_closed (Some "a")
                      Sample.listening)))
  = Some "jwt"
  /\ snd (CrustoceanAgent.connectAndJoin sample_closed (Some "a") Sample.listening)
     = Thrown "Auth failed: 401".
Proof.
  destruct (connectAndJoin_rejected_exchange sample_closed (Some "a")
              Sample.listening 401 None eq_refl) as (T & _ & R).
  split; [rewrite T; vm_compute; reflexivity | exact R].
Defined.

(** * Properties of the REST helpers *)

Lemma strip_trailing_slash_snoc (s : string) :
  strip_trailing_slash (s ++ "/") = s.
Proof.
  induction s as [|c r IH]; [reflexivity|].
  cbn [append]. destruct r as [|d r]; [reflexivity|].
  change (strip_trailing_slash (String c (String d r ++ "/")))
    with (String c (strip_trailing_slash (String d r ++ "/"))).
  now rewrite IH.
Qed.

Lemma strip_trailing_slash_none (s : string) :
  ends_with "/" s = false -> strip_trailing_slash s = s.
Proof.
  intros E. destruct (strip_trailing_slash_spec s) as [(t & U & _)|(_ & S)];
    [|exact S].
  assert (H : ends_with "/" s = true) by (apply ends_with_spec; now exists t).
  congruence.
Qed.

Lemma failed_message (label : string) (status : nat) :
  label ++ " failed: " ++ string_of_nat status <> "".
Proof. destruct label; discriminate. Qed.

(** X12. How a REST helper ends is decided by the reply to its one
    request.  If `fetch` rejects, the helper rejects with the same reason.
    On a response that is `ok` the helper returns the parsed body and
    throws the parser's error when the body does not parse, except that
    deleteCustomCommand, and only it, does not read the body and returns
    `undefined`.  On a response that is not `ok` the helper throws: a
    TypeError when the body is JSON `null`; otherwise the text of the
    body's `error` when that is truthy (the string itself when it is a
    string, so never empty then); otherwise, also when the body is not
    JSON, the helper's label followed by " failed: " and the status, which
    is never empty.  The labels are Register, Login, Create, Update config,
    Verify, Add agent, Update agency, Create invite, Install skill, List,
    Create, Update and Delete. *)
Theorem helper_outcome (h : string -> Rest.Call) (apiUrl : string)
  (fetch : Rest.Fetch -> HttpReply) :
  Rest.helper h ->
  let c := h apiUrl in
  match fetch (Rest.request c) with
  | FetchRejected reason => Rest.perform fetch c = Thrown reason
  | Response status body =>
      if ok status
      then Rest.perform fetch c
           = (if Rest.returns_body c
              then match body with
                   | Parses v => Returned v
                   | ParseFails e => Thrown e
                   end
              else Returned JsUndefined)
      else exists msg,
             Rest.perform fetch c = Thrown msg
             /\ let err := json_or_empty body in
                let error := js_get "error" err in
                if is_nullish err then msg = type_error
                else if js_truthy error
                     then msg = to_text error
                          /\ (forall s, error = JsString s -> msg = s /\ msg <> "")
                     else msg = Rest.label c ++ " failed: " ++ string_of_nat status
                          /\ msg <> ""
  end
  /\ (Rest.returns_body c = false <->
      exists userToken agencyId commandId,
        c = Rest.deleteCustomCommand apiUrl userToken agencyId commandId)
  /\ ((forall b u p d, Rest.label (Rest.register b u p d) = "Register")
      /\ (forall b u p, Rest.label (Rest.login b u p) = "Login")
      /\ (forall b t n r a, Rest.label (Rest.createAgent b t n r a) = "Create")
      /\ (forall b t a c,
            Rest.label (Rest.updateAgentConfig b t a c) = "Update config")
      /\ (forall b t a, Rest.label (Rest.verifyAgent b t a) = "Verify")
      /\ (forall b t a i u,
            Rest.label (Rest.addAgentToAgency b t a i u) = "Add agent")
      /\ (forall b t a u, Rest.label (Rest.updateAgency b t a u) = "Update agency")
      /\ (forall b t a n e,
            Rest.label (Rest.createInvite b t a n e) = "Create invite")
      /\ (forall b t a k, Rest.label (Rest.installSkill b t a k) = "Install skill")
      /\ (forall b t a, Rest.label (Rest.listCustomCommands b t a) = "List")
      /\ (forall b t a n u d e p l,
            Rest.label (Rest.createCustomCommand b t a n u d e p l) = "Create")
      /\ (forall b t a i n u d e p l,
            Rest.label (Rest.updateCustomCommand b t a i n u d e p l) = "Update")
      /\ (forall b t a i, Rest.label (Rest.deleteCustomCommand b t a i) = "Delete")).
Proof.
  intros H. cbn zeta. split; [|split].
  - unfold Rest.perform.
    destruct (fetch (Rest.request (h apiUrl))) as [reason|status body];
      [reflexivity|].
    destruct (ok status); cbn [negb]; [reflexivity|].
    destruct (is_nullish (json_or_empty body)); [now eexists|].
    destruct (js_truthy (js_get "error" (json_or_empty body))) eqn:T.
    + eexists. split; [reflexivity|]. split; [reflexivity|].
      intros s E. rewrite E in T |- *. cbn [to_text]. split; [reflexivity|].
      cbn in T. apply negb_true_iff in T. now apply is_empty_false.
    + eexists. split; [reflexivity|]. split; [reflexivity|].
      apply failed_message.
  - destruct H; cbv beta;
      unfold Rest.register, Rest.login, Rest.createAgent, Rest.updateAgentConfig,
        Rest.verifyAgent, Rest.addAgentToAgency, Rest.updateAgency,
        Rest.createInvite, Rest.installSkill, Rest.listCustomCommands,
        Rest.createCustomCommand, Rest.updateCustomCommand,
        Rest.deleteCustomCommand;
      cbv zeta; cbn [Rest.returns_body];
      (split; intros X;
       [try discriminate X; now eexists _, _, _
       |try reflexivity; destruct X as (t & a & c & E); discriminate E]).
  - repeat split.
Qed.

Lemma helper_outcome_witness :
  Rest.perform
    (fun _ => Response 403 (Parses (JsObject [("error", JsString "")])))
    (Rest.verifyAgent "https://x" "jwt" "a1")
  = Thrown "Verify failed: 403".
Proof.
  destruct (helper_outcome (fun b => Rest.verifyAgent b "jwt" "a1") "https://x"
              (fun _ => Response 403 (Parses (JsObject [("error", JsString "")])))
              (Rest.h_verifyAgent "jwt" "a1")) as ((msg & P & D) & _).
  rewrite P. f_equal. exact (proj1 D).
Defined.

(** X13. Every REST helper addresses the base with at most its last slash
    removed, followed by a path that begins with "/api/" and does not depend
    on the base; a base that is given with one slash at its end therefore
    prepares the very same call as the base without it. *)
Theorem helper_base_address (h : string -> Rest.Call) :
  Rest.helper h ->
  (exists path,
     prefix "/api/" path = true
     /\ forall apiUrl,
          Rest.f_url (Rest.request (h apiUrl))
          = strip_trailing_slash apiUrl ++ path)
  /\ forall apiUrl, ends_with "/" apiUrl = false -> h (apiUrl ++ "/") = h apiUrl.
Proof.
  intros H. split.
  - destruct H; eexists; (split; [|intros apiUrl; reflexivity]); reflexivity.
  - intros apiUrl E.
    destruct H;
      unfold Rest.register, Rest.login, Rest.createAgent, Rest.updateAgentConfig,
        Rest.verifyAgent, Rest.addAgentToAgency, Rest.updateAgency,
        Rest.createInvite, Rest.installSkill, Rest.listCustomCommands,
        Rest.createCustomCommand, Rest.updateCustomCommand,
        Rest.deleteCustomCommand;
      cbv zeta;
      now rewrite strip_trailing_slash_snoc, (strip_trailing_slash_none _ E).
Qed.

Lemma helper_base_address_witness :
  Rest.login "https://api.crustocean.chat/" "ann" "pw"
  = Rest.login "https://api.crustocean.chat" "ann" "pw".
Proof.
  exact (proj2 (helper_base_address (fun b => Rest.login b "ann" "pw")
                  (Rest.h_login "ann" "pw"))
           "https://api.crustocean.chat" eq_refl).
Defined.

(** X14. The body updateCustomCommand sends holds exactly the fields that
    were given, in the order name, webhook_url, description,
    explore_metadata, invoke_permission, invoke_whitelist; a field given as
    `null` is sent as `null`, and with no field at all the body is the empty
    object.  For the same fields it is the body createCustomCommand
    sends. *)
Theorem updateCustomCommand_body
  (apiUrl userToken agencyId commandId n u : string)
  (name webhook_url description : option string) (explore_metadata : Rest.Json)
  (invoke_permission : option string) (invoke_whitelist : option (list string)) :
  Rest.f_body
    (Rest.request
       (Rest.updateCustomCommand apiUrl userToken agencyId commandId name
          webhook_url description explore_metadata invoke_permission
          invoke_whitelist))
  = Rest.ObjectBody
      (filter (fun kv => negb (Rest.is_undefined (snd kv)))
         [("name", Rest.of_string name);
          ("webhook_url", Rest.of_string webhook_url);
          ("description", Rest.of_string description);
          ("explore_metadata", explore_metadata);
          ("invoke_permission", Rest.of_string invoke_permission);
          ("invoke_whitelist", Rest.of_strings invoke_whitelist)])
  /\ Rest.f_body
       (Rest.request
          (Rest.updateCustomCommand apiUrl userToken agencyId commandId (Some n)
             (Some u) description explore_metadata invoke_permission
             invoke_whitelist))
     = Rest.f_body
         (Rest.request
            (Rest.createCustomCommand apiUrl userToken agencyId n u description
               explore_metadata invoke_permission invoke_whitelist)).
Proof.
  split.
  - destruct name, webhook_url, description, explore_metadata, invoke_permission,
      invoke_whitelist; reflexivity.
  - destruct description, explore_metadata, invoke_permission, invoke_whitelist;
      reflexivity.
Qed.
(** * Properties of the payment wiring and of the example *)

(** X15. createX402Fetch throws its own "requires a privateKey" error when
    the key is not a string or is the empty string.  Otherwise it asks the
    wallet for the account of a key that always begins with "0x": the given
    key when that begins with "0x" and the given key behind "0x" when not,
    so that a key prefixed once is not prefixed again.  When the wallet
    refuses the key, its error is the function's.  When it accepts, the
    libraries are handed the account with a chain and a network id that
    belong together, the test network's exactly when the network is the
    string "base-sepolia" and the main network's for any other value or
    none, and with the given fetch or the global one; their result or error
    is the function's. *)
Theorem createX402Fetch_wiring
  (Account Fetch Paying : Type)
  (privateKeyToAccount : string -> Account + string)
  (wrap : X402.Wiring Account Fetch -> Paying + string)
  (globalFetch : Fetch)
  (privateKey network : Js) (fetchFn : option Fetch) :
  let run := X402.createX402Fetch privateKeyToAccount wrap globalFetch in
  match privateKey with
  | JsString (String c k) =>
      exists key,
        prefix "0x" key = true
        /\ (key = String c k \/ key = "0x" ++ String c k)
        /\ run (JsString key) network fetchFn = run privateKey network fetchFn
        /\ match privateKeyToAccount key with
           | inr refused => run privateKey network fetchFn = inr refused
           | inl a =>
               exists ch id,
                 run privateKey network fetchFn
                 = wrap {| X402.account := a; X402.chain := ch;
                           X402.networkId := id;
                           X402.fetchFn :=
                             match fetchFn with
                             | Some f => f
                             | None => globalFetch
                             end |}
                 /\ (if X402.is_the_string "base-sepolia" network
                     then network = JsString "base-sepolia"
                          /\ ch = X402.baseSepolia /\ id = "eip155:84532"
                     else network <> JsString "base-sepolia"
                          /\ ch = X402.base /\ id = "eip155:8453")
           end
  | _ => run privateKey network fetchFn = inr X402.key_required
  end.
Proof.
  cbn zeta. unfold X402.createX402Fetch.
  destruct privateKey as [| |b|n|key|l|l]; try reflexivity.
  destruct key as [|c k]; [reflexivity|].
  cbn [is_empty].
  set (key := String c k).
  assert (T : forall v,
            (if X402.is_the_string "base-sepolia" v
             then v = JsString "base-sepolia" else v <> JsString "base-sepolia")).
  { intros v. destruct v as [| |b|n|s|l|l]; cbn; try discriminate.
    destruct (String.eqb_spec s "base-sepolia") as [->|ne];
      [reflexivity | congruence]. }
  assert (N : X402.is_the_string "base-sepolia"
                match network with JsUndefined => JsString "base" | _ => network end
              = X402.is_the_string "base-sepolia" network)
    by now destruct network.
  rewrite N. clear N. specialize (T network).
  exists (if prefix "0x" key then key else "0x" ++ key).
  assert (P : prefix "0x" (if prefix "0x" key then key else "0x" ++ key) = true).
  { destruct (prefix "0x" key) eqn:P; [exact P | reflexivity]. }
  split; [exact P|]. split.
  { destruct (prefix "0x" key); [now left | now right]. }
  split.
  { assert (E : is_empty (if prefix "0x" key then key else "0x" ++ key) = false)
      by now destruct (prefix "0x" key).
    rewrite E, P. reflexivity. }
  destruct (privateKeyToAccount _) as [a|refused]; [|reflexivity].
  destruct (X402.is_the_string "base-sepolia" network);
    eexists _, _; (split; [reflexivity|]); now repeat split.
Qed.

Lemma trim_end_head (a : ascii) (r : string) :
  is_space a = false -> exists r', trim_end (String a r) = String a r'.
Proof.
  intros N. cbn [trim_end]. rewrite N.
  destruct (trim_end r); now eexists.
Qed.

Lemma trim_start_head (s : string) :
  trim_start s = ""
  \/ exists a r, trim_start s = String a r /\ is_space a = false.
Proof.
  induction s as [|c s IH]; [now left|].
  cbn [trim_start]. destruct (is_space c) eqn:Sp; [exact IH|].
  right. now exists c, s.
Qed.

(** A string that begins with a visible character is not trimmed away, and
    what `trim` leaves is such a string or empty. *)
Lemma trim_head (a : ascii) (r : string) :
  is_space a = false -> exists r', trim (String a r) = String a r'.
Proof.
  intros N. unfold trim. cbn [trim_start]. rewrite N. now apply trim_end_head.
Qed.

Lemma trim_shape (s : string) :
  trim s = "" \/ exists a r, trim s = String a r /\ is_space a = false.
Proof.
  unfold trim. destruct (trim_start_head s) as [E|(a & r & E & N)].
  - left. now rewrite E.
  - right. rewrite E. destruct (trim_end_head a r N) as [r' E'].
    exists a, r'. now split.
Qed.

Lemma trim_trimmed (s : string) : trim s <> "" -> trim (trim s) <> "".
Proof.
  intros Ne. destruct (trim_shape s) as [E|(a & r & E & N)]; [congruence|].
  rewrite E. destruct (trim_head a r N) as [r' E']. rewrite E'. discriminate.
Qed.

(** X16. Without an API key (missing or empty) callLLM makes no request
    and returns the fixed notice; with one it makes exactly one request,
    to the completions endpoint under that key.  Whenever it returns, the
    text is neither empty nor blank, so trimming it, as send does, leaves
    something to send.  It throws only after its request: the reason of a
    `fetch` that rejects, the parser's error when a response that is `ok`
    has a body that does not parse, and a TypeError when the body is `null`
    or, on a response that is `ok`, when the content of the first choice is
    there and is not a string. *)
Theorem callLLM_never_blank (key : option string)
  (fetch : Example.Completion -> HttpReply) (systemPrompt userPrompt : string) :
  let run := Example.callLLM key fetch systemPrompt userPrompt in
  let rq := Example.completion key systemPrompt userPrompt in
  (if truthy key
   then fst run = [rq]
        /\ Example.c_url rq = "https://api.openai.com/v1/chat/completions"
        /\ match key with
           | Some k => Example.c_authorization rq = "Bearer " ++ k
           | None => True
           end
   else run = ([], Returned Example.not_configured))
  /\ match snd run with
     | Returned text => trim text <> "" /\ text <> ""
     | Thrown msg =>
         fst run = [rq]
         /\ match fetch rq with
            | FetchRejected reason => msg = reason
            | Response status body =>
                match body with
                | ParseFails e => ok status = true /\ msg = e
                | Parses data =>
                    msg = type_error
                    /\ (is_nullish data = true
                        \/ ok status = true
                           /\ is_nullish (Example.first_content data) = false
                           /\ is_string (Example.first_content data) = false)
                end
            end
     | Pending => False
     end.
Proof.
  cbn zeta.
  assert (B : forall t : string, trim t <> "" -> trim t <> "" /\ t <> "").
  { intros t H. split; [exact H|]. intros E. apply H. now rewrite E. }
  assert (Er : forall t, trim ("Error: " ++ t) <> "").
  { intros t. destruct (trim_head "E" ("rror: " ++ t) eq_refl) as [r' E'].
    cbn [append] in *. rewrite E'. discriminate. }
  unfold Example.callLLM, falsy.
  destruct (truthy key) eqn:T; cbn [negb].
  2: { split; [reflexivity|]. cbn [snd]. now apply B. }
  split.
  { split; [|split; [reflexivity|]].
    - destruct (fetch _) as [reason|status body]; [reflexivity|].
      destruct (negb (ok status)).
      + destruct (is_nullish (json_or_empty body)); reflexivity.
      + destruct body as [data|e]; [|reflexivity].
        destruct (is_nullish data); [reflexivity|].
        destruct (Example.first_content data); reflexivity.
    - now destruct key. }
  destruct (fetch _) as [reason|status body]; cbn [snd fst]; [now split|].
  destruct (ok status) eqn:O; cbn [negb].
  - destruct body as [data|e]; cbn [snd fst]; [|now split].
    destruct (is_nullish data) eqn:Nd; cbn [snd fst]; [split; auto|].
    destruct (Example.first_content data) as [| |b|n|content|l|l] eqn:Fc;
      cbn [snd fst];
      try (now apply B);
      try (split; [reflexivity|]; split; [reflexivity|]; right; now repeat split).
    destruct (is_empty (trim content)) eqn:Em; apply B; [discriminate|].
    apply trim_trimmed. now apply is_empty_false.
  - destruct (is_nullish (json_or_empty body)) eqn:Nb; cbn [snd fst].
    + split; [reflexivity|].
      destruct body as [data|e]; cbn in Nb; [|discriminate Nb].
      split; [reflexivity | now left].
    + apply B, Er.
Qed.

(** * Further properties of shouldRespond *)

Lemma lower_ascii_idempotent (c : ascii) :
  lower_ascii (lower_ascii c) = lower_ascii c.
Proof. destruct c as [[] [] [] [] [] [] [] []]; reflexivity. Qed.

Lemma toLowerCase_idempotent (s : string) :
  toLowerCase (toLowerCase s) = toLowerCase s.
Proof.
  induction s as [|c r IH]; [reflexivity|].
  cbn [toLowerCase]. now rewrite lower_ascii_idempotent, IH.
Qed.

Lemma toLowerCase_app (a b : string) :
  toLowerCase (a ++ b) = toLowerCase a ++ toLowerCase b.
Proof.
  induction a as [|c r IH]; [reflexivity|].
  cbn [append toLowerCase]. now rewrite IH.
Qed.

Lemma toLowerCase_empty (s : string) :
  is_empty (toLowerCase s) = is_empty s.
Proof. now destruct s. Qed.

Lemma prefix_shorter (a b s : string) :
  prefix (a ++ b) s = true -> prefix a s = true.
Proof.
  revert s. induction a as [|c r IH]; intros s P; [now destruct s|].
  destruct s as [|d s]; [discriminate P|].
  cbn [append prefix] in *. destruct (ascii_dec c d); [|discriminate P].
  now apply IH.
Qed.

Lemma includes_app (s a b : string) :
  includes s (a ++ b) = true -> includes s a = true.
Proof.
  induction s as [|c s IH]; cbn [includes]; intros H.
  - destruct (prefix (a ++ b) "") eqn:P; [|discriminate H].
    now rewrite (prefix_shorter a b "" P).
  - destruct (prefix (a ++ b) (String c s)) eqn:P.
    + now rewrite (prefix_shorter a b _ P).
    + destruct (prefix a (String c s)); [reflexivity|]. now apply IH.
Qed.

(** X17. On text in the ASCII range shouldRespond looks for the name as
    a piece of text, so a mention of any longer name that begins with the
    agent's name counts as a mention of the agent: a message that a bot
    named "bobby" should respond to is one that a bot named "bob" should
    respond to as well. *)
Theorem shouldRespond_longer_name
  (msg : option Msg.t) (name rest : string) :
  ascii_content msg = true -> ascii_only name = true -> ascii_only rest = true ->
  name <> "" ->
  shouldRespond msg (Some (name ++ rest)) = true ->
  shouldRespond msg (Some name) = true.
Proof.
  intros _ _ _ Ne. unfold shouldRespond.
  destruct (falsy (content_of msg)); cbn [orb]; [discriminate|].
  apply is_empty_false in Ne.
  unfold falsy, truthy. rewrite Ne. cbn [negb].
  destruct (is_empty (name ++ rest)); cbn [negb]; [discriminate|].
  destruct (content_of msg) as [content|]; [|discriminate].
  cbv zeta. rewrite toLowerCase_app.
  change ("@" ++ (toLowerCase name ++ toLowerCase rest))
    with (("@" ++ toLowerCase name) ++ toLowerCase rest).
  apply includes_app.
Qed.

Lemma shouldRespond_longer_name_witness :
  shouldRespond (Some (Msg.mk (Some "thanks @Bobby!") (Some "ann"))) (Some "bobby")
  = true
  /\ shouldRespond (Some (Msg.mk (Some "thanks @Bobby!") (Some "ann"))) (Some "bob")
     = true.
Proof.
  split; [reflexivity|].
  apply (shouldRespond_longer_name _ "bob" "by");
    [reflexivity | reflexivity | reflexivity | discriminate | reflexivity].
Defined.

(** X18. shouldRespond does not depend on the case of the name or of the
    content, and not on the sender: in particular the agent's own message
    that mentions the agent is one it should respond to. *)
Theorem shouldRespond_insensitive
  (content sender : option string) (agentUsername : option string) :
  let msg := Some (Msg.mk content sender) in
  shouldRespond msg (option_map toLowerCase agentUsername)
  = shouldRespond msg agentUsername
  /\ shouldRespond (Some (Msg.mk (option_map toLowerCase content) sender))
       agentUsername
     = shouldRespond msg agentUsername
  /\ shouldRespond (Some (Msg.mk content agentUsername)) agentUsername
     = shouldRespond msg agentUsername.
Proof.
  cbn zeta. unfold shouldRespond, falsy, truthy, content_of. cbn [Msg.content].
  destruct content as [c|], agentUsername as [u|]; cbn [option_map];
    rewrite ?toLowerCase_empty, ?toLowerCase_idempotent; auto.
Qed.

(** * What no step changes *)

Lemma steady_bind {A B} (c : M A) (k : A -> M B) :
  steady c -> (forall a, steady (k a)) -> steady (bind c k).
Proof.
  intros Hc Hk m. unfold bind. destruct (Hc m) as [S T].
  destruct (c m) as [m1 [a| |]]; cbn [fst] in *; try (now split).
  destruct (Hk a m1) as [S1 T1]. split; [congruence | auto].
Qed.

Lemma steady_same {A} (c : M A) :
  (forall m, settings (fst (c m)) = settings m
             /\ token (this (fst (c m))) = token (this m)) ->
  steady c.
Proof. intros H m. destruct (H m) as [S T]. split; [exact S | congruence]. Qed.

Lemma same_frame (m m' : Machine) :
  frame m' = frame m ->
  settings m' = settings m /\ token (this m') = token (this m).
Proof.
  unfold frame, settings. intros F.
  injection F as E1 E2 E3 E4 E5 E6 E7. split; congruence.
Qed.

Lemma same_core (m m' : Machine) :
  core m' = core m -> settings m' = settings m.
Proof.
  unfold core, settings. intros C.
  injection C as E1 E2 E3 E4 E5 E6 E7. congruence.
Qed.

Lemma same_attach_handlers (event : string) (hs : list Handler) :
  forall m,
    settings (CrustoceanAgent.attach_handlers event hs m) = settings m
    /\ token (this (CrustoceanAgent.attach_handlers event hs m)) = token (this m).
Proof.
  unfold CrustoceanAgent.attach_handlers.
  induction hs as [|h hs IH]; intros m; [now split|].
  cbn [fold_left]. destruct (IH (on_socket (sock_on event (UserFn h)) m)) as [S T].
  split; [rewrite S | rewrite T]; reflexivity.
Qed.

Lemma same_attach_entries (r : Registry) :
  forall m,
    let m' := fold_left
                (fun m eh => CrustoceanAgent.attach_handlers (fst eh) (snd eh) m) r m in
    settings m' = settings m /\ token (this m') = token (this m).
Proof.
  induction r as [|[ev hs] r IH]; intros m; [now split|].
  cbn [fold_left fst snd]. cbn zeta in IH.
  destruct (IH (CrustoceanAgent.attach_handlers ev hs m)) as [S T].
  destruct (same_attach_handlers ev hs m) as [S1 T1].
  split; congruence.
Qed.

Section Steady.

Variable w : World.

Lemma steady_connect : steady (CrustoceanAgent.connect w).
Proof.
  intros m. split; [apply same_core, core_connect|].
  intros T. unfold CrustoceanAgent.connect.
  destruct (auth_endpoint w _); cbn; [discriminate | exact T].
Qed.

Lemma steady_ensure_token : steady (CrustoceanAgent.ensure_token w).
Proof.
  intros m. unfold CrustoceanAgent.ensure_token.
  destruct (truthy _); [now split | apply steady_connect].
Qed.

Lemma steady_connectSocket : steady (CrustoceanAgent.connectSocket w).
Proof.
  unfold CrustoceanAgent.connectSocket.
  apply steady_bind; [apply steady_ensure_token|]. intros _.
  apply steady_same. intros m. cbn [fst].
  destruct (channel_open w _).
  - destruct (same_frame _ _ (frame_dispatch
                (on_socket (set_connected true) (CrustoceanAgent.open_channel m))
                {| ev_name := "connect"; ev_data := empty_payload |})) as [S T].
    split; [rewrite S | rewrite T]; reflexivity.
  - destruct (same_frame _ _ (frame_dispatch (CrustoceanAgent.open_channel m)
                {| ev_name := "connect_error"; ev_data := error_payload message |}))
      as [S T].
    split; [rewrite S | rewrite T]; reflexivity.
  - now split.
Qed.

Lemma steady_getAgencies : steady (CrustoceanAgent.getAgencies w).
Proof.
  unfold CrustoceanAgent.getAgencies.
  apply steady_bind; [apply steady_ensure_token|]. intros _.
  apply steady_same. intros m. destruct (agencies_endpoint w _); now split.
Qed.

Lemma steady_ensure_socket : steady (CrustoceanAgent.ensure_socket w).
Proof.
  intros m. unfold CrustoceanAgent.ensure_socket.
  destruct (socket_connected _); [now split|].
  apply steady_bind; [apply steady_connectSocket|]. intros _ m1. now split.
Qed.

Lemma steady_handshake (a : Agency.t) : steady (CrustoceanAgent.handshake w a).
Proof.
  apply steady_same. intros m. unfold CrustoceanAgent.handshake.
  destruct (socket (this m)) as [so|] eqn:So; [|now split]. cbn [fst].
  destruct (same_frame _ _ (frame_deliver
              (channel_feed w (log (CrustoceanAgent.request_join a so m)))
              (CrustoceanAgent.request_join a so m))) as [S T].
  split; [rewrite S | rewrite T]; unfold CrustoceanAgent.request_join;
    cbn; unfold settings; cbn; now rewrite ?So.
Qed.

Lemma steady_join (x : string) : steady (CrustoceanAgent.join w x).
Proof.
  unfold CrustoceanAgent.join.
  apply steady_bind; [apply steady_ensure_socket|]. intros _.
  apply steady_bind; [apply steady_getAgencies|]. intros dir.
  destruct (find _ dir); [apply steady_handshake|]. intros m. now split.
Qed.

Lemma steady_join_each (rooms : list Agency.t) :
  forall joined, steady (CrustoceanAgent.join_each w rooms joined).
Proof.
  induction rooms as [|a rooms IH]; intros joined m; [now split|].
  cbn [CrustoceanAgent.join_each]. cbv zeta.
  destruct (steady_join (or_else (Agency.slug a) (Agency.id a)) m) as [S T].
  destruct (CrustoceanAgent.join w _ m) as [m1 [v|msg|]]; cbn [fst] in *.
  - destruct (IH (joined ++ [or_else (Agency.slug a) (Agency.id a)])%list m1)
      as [S1 T1].
    split; [congruence | auto].
  - destruct (IH joined (record (ConsoleWarn
                 ("Failed to join " ++ or_else (Agency.slug a) (Agency.id a) ++ ":")
                 msg) m1)) as [S1 T1].
    split; [rewrite S1; exact S | intros H; apply T1; cbn; auto].
  - now split.
Qed.

Lemma steady_joinAllMemberAgencies :
  steady (CrustoceanAgent.joinAllMemberAgencies w).
Proof.
  unfold CrustoceanAgent.joinAllMemberAgencies.
  apply steady_bind; [apply steady_getAgencies|]. intros dir.
  apply steady_join_each.
Qed.

Lemma steady_getRecentMessages (opts : MessagesOptions) :
  steady (CrustoceanAgent.getRecentMessages w opts).
Proof.
  unfold CrustoceanAgent.getRecentMessages.
  apply steady_bind; [apply steady_ensure_token|]. intros _.
  apply steady_same. intros m. cbv zeta.
  destruct (currentAgencyId (this m)) as [room|]; [|now split].
  destruct (is_empty room); [now split|].
  destruct (messages_endpoint w _); now split.
Qed.

Lemma steady_connectAndJoin (x : option string) :
  steady (CrustoceanAgent.connectAndJoin w x).
Proof.
  unfold CrustoceanAgent.connectAndJoin.
  apply steady_bind; [apply steady_connect|]. intros _.
  apply steady_bind; [apply steady_connectSocket|]. intros _.
  apply steady_bind; [|intros _; apply steady_join].
  apply steady_same. intros m. cbn [ret fst].
  apply (same_attach_entries (listeners (this m)) m).
Qed.

End Steady.

(** X19. Whatever the session is asked to do and whatever the server
    answers, no step changes the base address or the agent token; the
    registry of handlers is changed by on and off alone (disconnect and a
    new channel leave it as it is); and a credential once held is never
    given up, not even by disconnect. *)
Theorem step_keeps_settings (w : World) (s : Step) (m : Machine) :
  let m' := step w s m in
  apiUrl (this m') = apiUrl (this m)
  /\ agentToken (this m') = agentToken (this m)
  /\ match s with
     | CallOn _ _ | CallOff _ _ => True
     | _ => listeners (this m') = listeners (this m)
     end
  /\ match token (this m) with
     | Some _ => token (this m') <> None
     | None => True
     end.
Proof.
  cbn zeta.
  assert (St : forall A (c : M A),
            steady c ->
            apiUrl (this (fst (c m))) = apiUrl (this m)
            /\ agentToken (this (fst (c m))) = agentToken (this m)
            /\ listeners (this (fst (c m))) = listeners (this m)
            /\ match token (this m) with
               | Some _ => token (this (fst (c m))) <> None
               | None => True
               end).
  { intros A c H. destruct (H m) as [S T]. unfold settings in S.
    injection S as E1 E2 E3. repeat split; try assumption.
    destruct (token (this m)); [apply T; discriminate | exact I]. }
  destruct s; cbn [step].
  - apply St, steady_connect.
  - apply St, steady_connectSocket.
  - apply St, steady_join.
  - apply St, steady_joinAllMemberAgencies.
  - apply (St unit (CrustoceanAgent.send content options)).
    apply steady_same. intros m0. unfold CrustoceanAgent.send.
    destruct (_ || _); [now split|].
    destruct (socket (this m0)), (currentAgencyId (this m0)); now split.
  - unfold CrustoceanAgent.on.
    cbn [on_socket update_agent this set_socket set_listeners apiUrl agentToken
         token].
    split; [reflexivity|]. split; [reflexivity|]. split; [exact I|].
    destruct (token (this m)); [discriminate | exact I].
  - unfold CrustoceanAgent.off.
    cbn [on_socket update_agent this set_socket set_listeners apiUrl agentToken
         token].
    split; [reflexivity|]. split; [reflexivity|]. split; [exact I|].
    destruct (token (this m)); [discriminate | exact I].
  - apply St, steady_getAgencies.
  - apply St, steady_getRecentMessages.
  - unfold CrustoceanAgent.disconnect.
    destruct (socket (this m)), (token (this m)) eqn:T; cbn; rewrite ?T;
      repeat split; discriminate.
  - apply St, steady_connectAndJoin.
  - destruct (same_frame _ _ (frame_dispatch m e)) as [S T].
    unfold settings in S. injection S as E1 E2 E3. repeat split; try assumption.
    rewrite T. destruct (token (this m)); [discriminate | exact I].
  - cbn. repeat split. destruct (token (this m)); [discriminate | exact I].
Qed.

(** * shouldRespond on every value *)

(** On typed arguments the function on values is the typed function. *)
Lemma shouldRespond_typed (msg : option Msg.t) (agentUsername : option string) :
  Untyped.shouldRespond (js_of_msg msg) (js_of_option agentUsername)
  = Returned (shouldRespond msg agentUsername).
Proof.
  unfold Untyped.shouldRespond, shouldRespond, falsy, truthy, content_of.
  destruct msg as [[content sender]|]; cbn [js_of_msg Msg.content]; [|reflexivity].
  destruct content as [c|], agentUsername as [u|]; cbn; try reflexivity.
  - destruct (is_empty c), (is_empty u); reflexivity.
  - now destruct (is_empty c).
Qed.

(** C10, as stated, fails: shouldRespond does not return for every value.
    With the number 123 as content and a name to look for, the call of
    `toLowerCase` on the number throws a TypeError. *)
Lemma shouldRespond_number_content_throws :
  ~ (forall msg agentUsername : Js,
       exists b, Untyped.shouldRespond msg agentUsername = Returned b).
Proof.
  intros H.
  destruct (H (JsObject [("content", JsNumber 123)]) (JsString "bot")) as [b E].
  discriminate E.
Qed.

(** C10. For every value of msg and of agentUsername, with content standing
    for `msg?.content`: shouldRespond returns true exactly when content is a
    non-empty string, agentUsername is a non-empty string and the
    lower-cased content contains "@" followed by the lower-cased name; it
    throws a TypeError exactly when content and agentUsername are both
    truthy and one of them is not a string; in every other case it returns
    false. *)
Theorem shouldRespond_every_value (msg agentUsername : Js) :
  let content := optional_get "content" msg in
  let r := Untyped.shouldRespond msg agentUsername in
  (r = Returned true <->
   exists c name,
     content = JsString c /\ c <> "" /\
     agentUsername = JsString name /\ name <> "" /\
     contains (toLowerCase c) ("@" ++ toLowerCase name))
  /\ (r = Thrown type_error <->
      js_truthy content = true /\ js_truthy agentUsername = true
      /\ (is_string content = false \/ is_string agentUsername = false))
  /\ (r = Returned true \/ r = Thrown type_error \/ r = Returned false).
Proof.
  cbn zeta. unfold Untyped.shouldRespond.
  assert (G : js_truthy (optional_get "content" msg) = true ->
              js_get "content" msg = optional_get "content" msg).
  { unfold optional_get. now destruct (is_nullish msg). }
  destruct (js_truthy (optional_get "content" msg)) eqn:Tc; cbn [negb orb].
  - rewrite (G eq_refl). clear G.
    destruct (js_truthy agentUsername) eqn:Tu; cbn [negb].
    + destruct (optional_get "content" msg) as [| |b|n|c|l|l] eqn:Ec;
        try (split; [split; [discriminate | intros (c' & n' & E & _); discriminate E]
                    |split; [split; auto|auto]]).
      destruct agentUsername as [| |b|n|name|l|l];
        try (split; [split; [discriminate
                            |intros (c' & n' & _ & _ & E & _); discriminate E]
                    |split; [split; auto|auto]]).
      cbn in Tc, Tu. apply negb_true_iff in Tc, Tu.
      split; [|split].
      * split.
        -- intros H. injection H as H. apply includes_contains in H.
           exists c, name. repeat split; try assumption;
             now apply is_empty_false.
        -- intros (c' & n' & E1 & _ & E2 & _ & H).
           injection E1 as <-. injection E2 as <-.
           f_equal. now apply includes_contains.
      * split; [discriminate|].
        intros (_ & _ & [H|H]); discriminate H.
      * destruct (includes _ _); auto.
    + split; [|split; [|auto]].
      * split; [discriminate|].
        intros (c & name & _ & _ & E & Ne & _). subst agentUsername.
        cbn in Tu. apply negb_false_iff in Tu. apply is_empty_false in Ne.
        congruence.
      * split; [discriminate | intros (_ & H & _); discriminate H].
  - split; [|split; [|auto]].
    + split; [discriminate|].
      intros (c & name & E & Ne & _). rewrite E in Tc.
      cbn in Tc. apply negb_false_iff in Tc. apply is_empty_false in Ne.
      congruence.
    + split; [discriminate | intros (H & _); discriminate H].
Qed.
